(** * Cryptic Crossings: a shallow embedding of the game engines

    The development follows the repository's Python modules:
    - [Legacy]  : the helpers of [cryptic_crossings.py] (the monolithic game);
    - [Part4]   : [part4_missionaries_cannibals.py], the river state machine;
    - [Part3]   : [part3_cryptarithmetic.py], validator, hints and
                  backtracking solver;
    - [LegacyCrypto] : the validator of [cryptic_crossings.py];
    - [Part1]   : the level table of [part1_game_data.py];
    - [Part2]   : [part2_persistence.py], save file and session data;
    - [Part5]   : the state behind the panel of [part5_crypto_ui.py];
    - [Part6]   : the level controller of [part6_river_ui_controller.py];
    - [App]     : the two panels and the controller of
                  [part6_river_ui_controller.py] at work on the objects of
                  the other modules.

    Python integers are unbounded and are modelled by [Z], with CPython's
    limit of 4300 digits on the conversions between integers and strings
    where the code converts; Python lists by [list]; dictionaries and sets
    by stdpp's [gmap] and [gset].  A Python call either returns or raises:
    [result] keeps the two apart. *)

From Stdlib Require Import ZArith String Ascii List Bool Lia.
From stdpp Require Import base option list strings gmap pretty.

(** ** Python outcomes *)

Inductive Exn := AttributeError | KeyError | ValueError.

Inductive result (A : Type) : Type :=
| Return (a : A)
| Raise (e : Exn).
Arguments Return {A} a.
Arguments Raise {A} e.

#[global] Instance result_ret : MRet result := λ A a, Return a.
#[global] Instance result_bind : MBind result := λ A B f r,
  match r with
  | Return a => f a
  | Raise e => Raise e
  end.

(** ** [cryptic_crossings.py] *)

Module Legacy.

(** [is_safe(m, c)], lines 103-107. *)
Definition is_safe (m c : Z) : bool :=
  if (m =? 0)%Z then true else (c <=? m)%Z.

End Legacy.

(** ** [part4_missionaries_cannibals.py] *)

Module Part4.

Inductive Side := LEFT | RIGHT.
Inductive CharacterType := MISSIONARY | CANNIBAL.

#[global] Instance Side_eq_dec : EqDecision Side.
Proof. solve_decision. Defined.
#[global] Instance CharacterType_eq_dec : EqDecision CharacterType.
Proof. solve_decision. Defined.

Record Character := mkCharacter {
  id : string;
  type : CharacterType;
  location : Side
}.

Record GameState := mkGameState {
  missionaries_left : Z;
  cannibals_left : Z;
  missionaries_right : Z;
  cannibals_right : Z;
  boat_side : Side;
  boat_crew : list string;
  boat_capacity : Z;
  total_missionaries : Z;
  total_cannibals : Z;
  move_count : Z;
  is_game_over : bool;
  is_won : bool
}.

(** The dictionary built by [_get_state_snapshot]. *)
Record Snapshot := mkSnapshot {
  snap_missionaries_left : Z;
  snap_cannibals_left : Z;
  snap_missionaries_right : Z;
  snap_cannibals_right : Z;
  snap_boat_side : Side;
  snap_boat_crew_count : Z;
  snap_is_safe : bool
}.

(** The dictionary [move_data] appended to [move_history] by [travel]. *)
Record MoveRecord := mkMoveRecord {
  move_number : Z;
  from_side : Side;
  passengers : list string;
  state_before : Snapshot;
  to_side : Side;
  state_after : Snapshot
}.

(** The object [MissionariesCannibalsGame]. *)
Record Game := mkGame {
  state : GameState;
  characters : list Character;
  move_history : list MoveRecord
}.

(** The messages returned next to the success flag; the constructor
    arguments are the values interpolated into the f-string. *)
Inductive Message :=
| MsgGameOver                       (* "Game is over" *)
| MsgNotFound (cid : string)        (* "Character {id} not found" *)
| MsgWrongSide (loc boat : Side)    (* "Character is on {..} side, boat is on {..} side" *)
| MsgBoatFull (capacity : Z)        (* "Boat is full (capacity: {..})" *)
| MsgAlreadyOnBoat                  (* "Character is already on the boat" *)
| MsgCanAdd                         (* "Can add to boat" *)
| MsgNotOnBoat                      (* "Character is not on the boat" *)
| MsgCanRemove                      (* "Can remove from boat" *)
| MsgAdded (cid : string)           (* "Added {id} to boat" *)
| MsgRemoved (cid : string)         (* "Removed {id} from boat" *)
| MsgEmptyBoat                      (* "Boat must have at least one passenger" *)
| MsgTooMany (capacity : Z)         (* "Too many passengers (capacity: {..})" *)
| MsgCanTravel                      (* "Can travel" *)
| MsgTraveled (side : Side).        (* "Traveled to {..} side" *)

(** *** Field updates ([self.state.f = v]) *)

Definition set_counts (ml cl mr cr : Z) (st : GameState) : GameState :=
  mkGameState ml cl mr cr (boat_side st) (boat_crew st) (boat_capacity st)
    (total_missionaries st) (total_cannibals st) (move_count st)
    (is_game_over st) (is_won st).

Definition set_boat_side (s : Side) (st : GameState) : GameState :=
  mkGameState (missionaries_left st) (cannibals_left st)
    (missionaries_right st) (cannibals_right st) s (boat_crew st)
    (boat_capacity st) (total_missionaries st) (total_cannibals st)
    (move_count st) (is_game_over st) (is_won st).

Definition set_boat_crew (crew : list string) (st : GameState) : GameState :=
  mkGameState (missionaries_left st) (cannibals_left st)
    (missionaries_right st) (cannibals_right st) (boat_side st) crew
    (boat_capacity st) (total_missionaries st) (total_cannibals st)
    (move_count st) (is_game_over st) (is_won st).

Definition set_move_count (n : Z) (st : GameState) : GameState :=
  mkGameState (missionaries_left st) (cannibals_left st)
    (missionaries_right st) (cannibals_right st) (boat_side st) (boat_crew st)
    (boat_capacity st) (total_missionaries st) (total_cannibals st)
    n (is_game_over st) (is_won st).

Definition set_flags (over won : bool) (st : GameState) : GameState :=
  mkGameState (missionaries_left st) (cannibals_left st)
    (missionaries_right st) (cannibals_right st) (boat_side st) (boat_crew st)
    (boat_capacity st) (total_missionaries st) (total_cannibals st)
    (move_count st) over won.

Definition set_state (st : GameState) (g : Game) : Game :=
  mkGame st (characters g) (move_history g).

(** The four-way branch "Update side counts" shared by [add_to_boat]
    ([delta = -1]), [remove_from_boat] and [travel] ([delta = 1]). *)
Definition update_side_counts (side : Side) (ty : CharacterType) (delta : Z)
    (st : GameState) : GameState :=
  match side, ty with
  | LEFT, MISSIONARY =>
      set_counts (missionaries_left st + delta) (cannibals_left st)
        (missionaries_right st) (cannibals_right st) st
  | LEFT, CANNIBAL =>
      set_counts (missionaries_left st) (cannibals_left st + delta)
        (missionaries_right st) (cannibals_right st) st
  | RIGHT, MISSIONARY =>
      set_counts (missionaries_left st) (cannibals_left st)
        (missionaries_right st + delta) (cannibals_right st) st
  | RIGHT, CANNIBAL =>
      set_counts (missionaries_left st) (cannibals_left st)
        (missionaries_right st) (cannibals_right st + delta) st
  end.

(** *** [initialize_game] *)

(** [char_id] runs from 1 over the missionaries and continues over the
    cannibals; [range(n)] is empty for [n <= 0]. *)
Definition initial_characters (missionaries cannibals : Z) : list Character :=
  map (λ i, mkCharacter ("M" +:+ pretty i) MISSIONARY LEFT)
      (seqZ 1 missionaries)
  ++ map (λ i, mkCharacter ("C" +:+ pretty i) CANNIBAL LEFT)
      (seqZ (1 + Z.max 0 missionaries) cannibals).

Definition initialize_game (missionaries cannibals capacity : Z) : Game :=
  mkGame
    (mkGameState missionaries cannibals 0 0 LEFT [] capacity
       missionaries cannibals 0 false false)
    (initial_characters missionaries cannibals)
    [].

(** *** Safety *)

Definition is_safe_state (m_left c_left m_right c_right : Z) : bool :=
  if (0 <? m_left)%Z && (m_left <? c_left)%Z then false
  else if (0 <? m_right)%Z && (m_right <? c_right)%Z then false
  else true.

Definition is_current_state_safe (g : Game) : bool :=
  is_safe_state (missionaries_left (state g)) (cannibals_left (state g))
    (missionaries_right (state g)) (cannibals_right (state g)).

(** *** Characters *)

(** [get_character]: the first character carrying the id. *)
Definition get_character (g : Game) (cid : string) : option Character :=
  find (λ ch, bool_decide (id ch = cid)) (characters g).

(** [character.location = side] for the object returned by
    [get_character]: the first list entry with that id is mutated. *)
Fixpoint set_location (cid : string) (side : Side) (chars : list Character)
    : list Character :=
  match chars with
  | [] => []
  | ch :: rest =>
      if bool_decide (id ch = cid)
      then mkCharacter (id ch) (type ch) side :: rest
      else ch :: set_location cid side rest
  end.

(** [lst.remove(x)]: drops the first occurrence; [None] stands for the
    [ValueError] raised when there is none. *)
Fixpoint list_remove (x : string) (l : list string) : option (list string) :=
  match l with
  | [] => None
  | y :: rest =>
      if bool_decide (y = x) then Some rest
      else cons y <$> list_remove x rest
  end.

Definition move_character (cid : string) (side : Side) (g : Game) : Game :=
  mkGame (state g) (set_location cid side (characters g)) (move_history g).

(** *** Boat loading *)

Definition can_add_to_boat (g : Game) (cid : string) : bool * Message :=
  if is_game_over (state g) then (false, MsgGameOver)
  else match get_character g cid with
  | None => (false, MsgNotFound cid)
  | Some character =>
      if negb (bool_decide (location character = boat_side (state g)))
      then (false, MsgWrongSide (location character) (boat_side (state g)))
      else if (boat_capacity (state g) <=? Z.of_nat (length (boat_crew (state g))))%Z
      then (false, MsgBoatFull (boat_capacity (state g)))
      else if bool_decide (cid ∈ boat_crew (state g))
      then (false, MsgAlreadyOnBoat)
      else (true, MsgCanAdd)
  end.

Definition can_remove_from_boat (g : Game) (cid : string) : bool * Message :=
  if is_game_over (state g) then (false, MsgGameOver)
  else if negb (bool_decide (cid ∈ boat_crew (state g)))
  then (false, MsgNotOnBoat)
  else (true, MsgCanRemove).

Definition add_to_boat (g : Game) (cid : string)
    : result (Game * (bool * Message)) :=
  let '(can_add, message) := can_add_to_boat g cid in
  if negb can_add then Return (g, (false, message))
  else match get_character g cid with
  | None => Raise AttributeError
  | Some character =>
      let side := boat_side (state g) in
      let g1 := set_state (set_boat_crew (boat_crew (state g) ++ [cid]) (state g)) g in
      let g2 := move_character cid side g1 in
      let g3 := set_state (update_side_counts side (type character) (-1) (state g2)) g2 in
      Return (g3, (true, MsgAdded cid))
  end.

Definition remove_from_boat (g : Game) (cid : string)
    : result (Game * (bool * Message)) :=
  let '(can_remove, message) := can_remove_from_boat g cid in
  if negb can_remove then Return (g, (false, message))
  else
    let character := get_character g cid in
    match list_remove cid (boat_crew (state g)) with
    | None => Raise ValueError
    | Some crew =>
        match character with
        | None => Raise AttributeError
        | Some character =>
            let side := boat_side (state g) in
            let g1 := set_state (set_boat_crew crew (state g)) g in
            let g2 := move_character cid side g1 in
            let g3 := set_state (update_side_counts side (type character) 1 (state g2)) g2 in
            Return (g3, (true, MsgRemoved cid))
        end
    end.

(** *** Crossing *)

Definition can_travel (g : Game) : bool * Message :=
  if is_game_over (state g) then (false, MsgGameOver)
  else if (Z.of_nat (length (boat_crew (state g))) =? 0)%Z
  then (false, MsgEmptyBoat)
  else if (boat_capacity (state g) <? Z.of_nat (length (boat_crew (state g))))%Z
  then (false, MsgTooMany (boat_capacity (state g)))
  else (true, MsgCanTravel).

Definition _get_state_snapshot (g : Game) : Snapshot :=
  mkSnapshot (missionaries_left (state g)) (cannibals_left (state g))
    (missionaries_right (state g)) (cannibals_right (state g))
    (boat_side (state g)) (Z.of_nat (length (boat_crew (state g))))
    (is_current_state_safe g).

(** The loop "Move all passengers to the new side". *)
Fixpoint land_passengers (new_side : Side) (crew : list string) (g : Game)
    : result Game :=
  match crew with
  | [] => Return g
  | cid :: rest =>
      match get_character g cid with
      | None => Raise AttributeError
      | Some character =>
          let g1 := move_character cid new_side g in
          let g2 := set_state (update_side_counts new_side (type character) 1 (state g1)) g1 in
          land_passengers new_side rest g2
      end
  end.

Definition _check_game_status (g : Game) : Game :=
  if negb (is_current_state_safe g)
  then set_state (set_flags true false (state g)) g
  else if (missionaries_left (state g) =? 0)%Z
          && (cannibals_left (state g) =? 0)%Z
          && (Z.of_nat (length (boat_crew (state g))) =? 0)%Z
  then set_state (set_flags true true (state g)) g
  else g.

Definition travel (g : Game) : result (Game * (bool * Message)) :=
  let '(ok, message) := can_travel g in
  if negb ok then Return (g, (false, message))
  else
    let number := (move_count (state g) + 1)%Z in
    let origin := boat_side (state g) in
    let crew := boat_crew (state g) in
    let before := _get_state_snapshot g in
    let new_side := match boat_side (state g) with LEFT => RIGHT | RIGHT => LEFT end in
    let g1 := set_state (set_boat_side new_side (state g)) g in
    g2 ← land_passengers new_side (boat_crew (state g1)) g1;
    let g3 := set_state (set_boat_crew [] (state g2)) g2 in
    let g4 := set_state (set_move_count (move_count (state g3) + 1) (state g3)) g3 in
    let record := mkMoveRecord number origin crew before new_side (_get_state_snapshot g4) in
    let g5 := mkGame (state g4) (characters g4) (move_history g4 ++ [record]) in
    Return (_check_game_status g5, (true, MsgTraveled new_side)).

Definition restart_game (g : Game) : Game :=
  initialize_game (total_missionaries (state g)) (total_cannibals (state g))
    (boat_capacity (state g)).

(** *** Sequences of calls *)

Inductive Op :=
| AddToBoat (cid : string)
| RemoveFromBoat (cid : string)
| Travel.

Definition step (g : Game) (op : Op) : result Game :=
  match op with
  | AddToBoat cid => r ← add_to_boat g cid; Return (fst r)
  | RemoveFromBoat cid => r ← remove_from_boat g cid; Return (fst r)
  | Travel => r ← travel g; Return (fst r)
  end.

(** The states seen while the calls run, the starting one first. *)
Fixpoint trace (g : Game) (ops : list Op) : result (list Game) :=
  match ops with
  | [] => Return [g]
  | op :: rest =>
      g' ← step g op;
      tr ← trace g' rest;
      Return (g :: tr)
  end.

(** The number of boat-crew ids that belong to a character of type [ty]. *)
Definition crew_count (ty : CharacterType) (g : Game) : Z :=
  Z.of_nat (length (filter (λ cid, type <$> get_character g cid = Some ty)
                           (boat_crew (state g)))).

(** *** Queries *)

(** [get_characters_on_side]: the characters on a bank, the boat crew left
    out. *)
Definition get_characters_on_side (g : Game) (side : Side) : list Character :=
  filter (λ ch, location ch = side ∧ id ch ∉ boat_crew (state g))
         (characters g).

(** [get_characters_on_boat]. *)
Definition get_characters_on_boat (g : Game) : list Character :=
  filter (λ ch, id ch ∈ boat_crew (state g)) (characters g).

(** The dictionary returned by [get_game_status]. *)
Record GameStatus := mkGameStatus {
  status_is_game_over : bool;
  status_is_won : bool;
  status_move_count : Z;
  status_current_state : Snapshot;
  status_can_travel : bool;
  status_boat_crew_count : Z;
  status_boat_capacity : Z
}.

Definition get_game_status (g : Game) : GameStatus :=
  mkGameStatus (is_game_over (state g)) (is_won (state g))
    (move_count (state g)) (_get_state_snapshot g) (fst (can_travel g))
    (Z.of_nat (length (boat_crew (state g)))) (boat_capacity (state g)).

(** [get_move_history]: a copy of the list. *)
Definition get_move_history (g : Game) : list MoveRecord := move_history g.

End Part4.

(** ** [part3_cryptarithmetic.py] *)

Module Part3.

(** A letter is a one-character string, a word a string, an assignment
    ([guess_map], [assignment]) a dictionary from letters to integers. *)
Abbreviation Assignment := (gmap ascii Z).

(** The second component of the pair returned by [_verify_mathematics];
    the exception texts are not kept. *)
Inductive MathFeedback :=
| NotThreeWords                       (* "Puzzle must have exactly 3 words ..." *)
| Correct (num1 num2 res : Z)         (* "Correct: {num1} + {num2} = {result}" *)
| Incorrect (num1 num2 res sum : Z)   (* "Incorrect: .. ≠ .. (equals ..)" *)
| MissingDigit                        (* "Missing digit assignment for letter: {e}" *)
| InvalidConversion.                  (* "Invalid number conversion: {e}" *)

(** The second component of the pair returned by [validate_input].  The
    letters are listed sorted in the message, so a set carries them; for
    the duplicates the digit-to-letters table is kept, not the order in
    which the message joins its entries. *)
Inductive Feedback :=
| NoPuzzleLoaded                              (* "No puzzle loaded" *)
| MissingAssignments (letters : gset ascii)   (* "Missing assignments for: .." *)
| ExtraAssignments (letters : gset ascii)     (* "Extra assignments for: .." *)
| DuplicateDigits (table : gmap Z (gset ascii)) (* "Duplicate digit assignments: .." *)
| LeadingZero (letter : ascii)                (* "Leading letter '..' cannot be zero" *)
| Mathematics (m : MathFeedback)              (* the message of [_verify_mathematics] *)
| SolutionCorrect.                            (* "Solution is correct!" *)

(** The object [CryptarithmeticSolver]. *)
Record Solver := mkSolver {
  current_puzzle : option (list string * list ascii);
  solution_cache : gmap (list string) (option Assignment)
}.

(** [__init__]. *)
Definition new_solver : Solver := mkSolver None ∅.

Definition set_puzzle (s : Solver) (words : list string)
    (unique_letters : list ascii) : Solver :=
  mkSolver (Some (words, unique_letters)) ∅.

(** *** [_word_to_number] *)

(** [sys.get_int_max_str_digits()] as CPython sets it: [int] refuses a
    string of more decimal digits with a [ValueError], and so does [str]
    an integer that needs more. *)
Definition int_max_str_digits : Z := 4300.

(** [str(n)] and the formatting of [n] in an f-string work for [n] below
    this bound in absolute value and raise [ValueError] from it on. *)
Definition int_str_bound : Z := 10 ^ int_max_str_digits.

#[global] Opaque int_str_bound.

(** [int(number_str)] on the strings that occur here, concatenations of
    [str(d)] for integers [d]: an optional leading minus sign followed by
    one or more decimal digits, at most [int_max_str_digits] of them (the
    leading zeros count); anything else is a [ValueError]. *)
Definition digit_value (c : ascii) : option Z :=
  let n := Z.of_nat (nat_of_ascii c) in
  if ((48 <=? n) && (n <=? 57))%Z then Some (n - 48)%Z else None.

Fixpoint parse_digits (s : string) (acc : Z) : option Z :=
  match s with
  | EmptyString => Some acc
  | String c rest =>
      match digit_value c with
      | None => None
      | Some d => parse_digits rest (10 * acc + d)%Z
      end
  end.

Definition int_of_str (s : string) : result Z :=
  match s with
  | EmptyString => Raise ValueError
  | String c rest =>
      if bool_decide (c = "-"%char) then
        match rest with
        | EmptyString => Raise ValueError
        | _ => match parse_digits rest 0 with
               | Some n =>
                   if (int_max_str_digits <? Z.of_nat (String.length rest))%Z
                   then Raise ValueError
                   else Return (- n)%Z
               | None => Raise ValueError
               end
        end
      else match parse_digits s 0 with
           | Some n =>
               if (int_max_str_digits <? Z.of_nat (String.length s))%Z
               then Raise ValueError
               else Return n
           | None => Raise ValueError
           end
  end.

(** The loop that builds [number_str].  The integers of [guess_map] are
    taken to be ones that [str] prints (below [int_str_bound] in absolute
    value), as every digit is. *)
Fixpoint build_number_str (word : string) (guess_map : Assignment)
    (number_str : string) : result string :=
  match word with
  | EmptyString => Return number_str
  | String char rest =>
      match guess_map !! char with
      | None => Raise KeyError
      | Some d => build_number_str rest guess_map (number_str +:+ pretty d)
      end
  end.

Definition _word_to_number (word : string) (guess_map : Assignment)
    : result Z :=
  match word with
  | EmptyString => Raise ValueError
  | _ => number_str ← build_number_str word guess_map ""; int_of_str number_str
  end.

(** *** [_verify_mathematics] *)

(** The three numbers come from [int] and are printed as they are; the
    sum in the message of a wrong equation can have one digit more, and
    formatting it then raises the [ValueError] that the function catches
    itself. *)

Definition _verify_mathematics (words : list string) (guess_map : Assignment)
    : bool * MathFeedback :=
  match words with
  | [word1; word2; word3] =>
      let attempt :=
        num1 ← _word_to_number word1 guess_map;
        num2 ← _word_to_number word2 guess_map;
        res ← _word_to_number word3 guess_map;
        if bool_decide (num1 + num2 = res)%Z
        then Return (true, Correct num1 num2 res)
        else if (Z.abs (num1 + num2) <? int_str_bound)%Z
        then Return (false, Incorrect num1 num2 res (num1 + num2))
        else Raise ValueError in
      match attempt with
      | Return r => r
      | Raise KeyError => (false, MissingDigit)
      | Raise _ => (false, InvalidConversion)
      end
  | _ => (false, NotThreeWords)
  end.

(** *** [validate_input] *)

(** [_find_duplicate_assignments]: the digits carried by more than one
    letter, each with its letters. *)
Definition _find_duplicate_assignments (guess_map : Assignment)
    : gmap Z (gset ascii) :=
  filter (λ kv, 1 < size (snd kv))
    (map_fold (λ letter digit (table : gmap Z (gset ascii)),
                 <[digit := {[letter]} ∪ default ∅ (table !! digit)]> table)
              ∅ guess_map).

(** The loop of rule 3. *)
Fixpoint find_leading_zero (words : list string) (guess_map : Assignment)
    : option ascii :=
  match words with
  | [] => None
  | word :: rest =>
      match word with
      | String c _ =>
          if bool_decide (guess_map !! c = Some 0%Z) then Some c
          else find_leading_zero rest guess_map
      | EmptyString => find_leading_zero rest guess_map
      end
  end.

(** Rule 1, the block guarded by [len(guess_map) != len(letters)]. *)
Definition check_all_assigned (letters : list ascii) (guess_map : Assignment)
    : option Feedback :=
  if bool_decide (size guess_map ≠ length letters) then
    let missing_letters : gset ascii := list_to_set letters ∖ dom guess_map in
    if bool_decide (missing_letters ≠ ∅)
    then Some (MissingAssignments missing_letters)
    else
      let extra_letters : gset ascii := dom guess_map ∖ list_to_set letters in
      if bool_decide (extra_letters ≠ ∅)
      then Some (ExtraAssignments extra_letters)
      else None
  else None.

Definition validate_input (s : Solver) (guess_map : Assignment)
    : bool * Feedback :=
  match current_puzzle s with
  | None => (false, NoPuzzleLoaded)
  | Some (words, letters) =>
      match check_all_assigned letters guess_map with
      | Some failure => (false, failure)
      | None =>
          let assigned_digits := (map_to_list guess_map).*2 in
          if bool_decide (size (list_to_set assigned_digits : gset Z)
                          ≠ length assigned_digits)
          then (false, DuplicateDigits (_find_duplicate_assignments guess_map))
          else
            match find_leading_zero words guess_map with
            | Some letter => (false, LeadingZero letter)
            | None =>
                let '(is_correct, math_error) :=
                  _verify_mathematics words guess_map in
                if negb is_correct then (false, Mathematics math_error)
                else (true, SolutionCorrect)
            end
      end
  end.

(** The module-level [validate_cryptarithmetic(level_data, current_guess)]:
    load the level's puzzle into the solver, then validate. *)
Definition validate_cryptarithmetic (s : Solver) (words : list string)
    (unique_letters : list ascii) (current_guess : Assignment)
    : Solver * (bool * Feedback) :=
  let s' := set_puzzle s words unique_letters in
  (s', validate_input s' current_guess).

(** *** The solver *)

(** What a call of [_backtrack_solve] leaves behind: the solution, or
    [None] together with the dictionary and the digit set it was handed,
    as the call has left them. *)
Inductive Search :=
| Found (solution : Assignment)
| Exhausted (assignment : Assignment) (used_digits : gset Z).

Definition leading_letters_of (words : list string) : gset ascii :=
  fold_left (λ (acc : gset ascii) word,
               match word with
               | String c _ => {[c]} ∪ acc
               | EmptyString => acc
               end) words ∅.

(** [range(10)]. *)
Definition range10 : list Z := seqZ 0 10.

(** The loop [for digit in range(10)] of [_backtrack_solve] for one
    [letter]; [recurse] is the recursive call on the remaining letters.
    The dictionary and the digit set are mutated in place by the call and
    restored by [del assignment[letter]] and [used_digits.remove(digit)],
    which raise [KeyError] when the entry is not there. *)
Definition try_digits (letter : ascii) (leading_letters : gset ascii)
    (recurse : Assignment → gset Z → result Search)
    : list Z → Assignment → gset Z → result Search :=
  fix go (digits : list Z) (assignment : Assignment) (used_digits : gset Z) :=
    match digits with
    | [] => Return (Exhausted assignment used_digits)
    | digit :: digits' =>
        if bool_decide (digit ∈ used_digits)
        then go digits' assignment used_digits
        else if bool_decide (letter ∈ leading_letters)
                && bool_decide (digit = 0%Z)
        then go digits' assignment used_digits
        else
          match recurse (<[letter := digit]> assignment)
                        ({[digit]} ∪ used_digits) with
          | Raise e => Raise e
          | Return (Found solution) => Return (Found solution)
          | Return (Exhausted assignment' used_digits') =>
              match assignment' !! letter with
              | None => Raise KeyError
              | Some _ =>
                  if bool_decide (digit ∈ used_digits')
                  then go digits' (delete letter assignment')
                         (used_digits' ∖ {[digit]})
                  else Raise KeyError
              end
          end
    end.

Fixpoint _backtrack_solve (words : list string) (leading_letters : gset ascii)
    (remaining_letters : list ascii) (assignment : Assignment)
    (used_digits : gset Z) : result Search :=
  match remaining_letters with
  | [] =>
      if fst (_verify_mathematics words assignment)
      then Return (Found assignment)
      else Return (Exhausted assignment used_digits)
  | letter :: remaining =>
      try_digits letter leading_letters
        (_backtrack_solve words leading_letters remaining)
        range10 assignment used_digits
  end.

(** [tuple(words + unique_letters)]. *)
Definition puzzle_key (words : list string) (unique_letters : list ascii)
    : list string :=
  words ++ map (λ c, String c EmptyString) unique_letters.

Definition solve_puzzle (s : Solver) (words : list string)
    (unique_letters : list ascii) : result (Solver * option Assignment) :=
  let key := puzzle_key words unique_letters in
  match solution_cache s !! key with
  | Some cached => Return (s, cached)
  | None =>
      let s1 := set_puzzle s words unique_letters in
      let leading_letters := leading_letters_of words in
      found ← _backtrack_solve words leading_letters unique_letters ∅ ∅;
      let solution :=
        match found with
        | Found a => Some a
        | Exhausted _ _ => None
        end in
      Return (mkSolver (current_puzzle s1)
                       (<[key := solution]> (solution_cache s1)),
              solution)
  end.

(** [is_puzzle_solvable]. *)
Definition is_puzzle_solvable (s : Solver) (words : list string)
    (unique_letters : list ascii) : result (Solver * bool) :=
  r ← solve_puzzle s words unique_letters;
  Return (fst r, match snd r with Some _ => true | None => false end).

(** The module-level [solve_puzzle_automatically(level_data)]. *)
Definition solve_puzzle_automatically (s : Solver) (words : list string)
    (unique_letters : list ascii) : result (Solver * option Assignment) :=
  solve_puzzle s words unique_letters.

(** *** [get_hints] *)

(** The entries of the list returned by [get_hints].  The duplicate
    digits are printed as a list in dictionary order; a set carries
    them. *)
Inductive Hint :=
| HintNoPuzzle                          (* "No puzzle loaded" *)
| HintUnassigned (letters : list ascii) (* "Still need to assign: .." *)
| HintLeadingZero (letter : ascii)      (* "'..' cannot be 0 (leading letter)" *)
| HintDuplicates (digits : gset Z)      (* "Duplicate digits found: [..]" *)
| HintMath (num1 num2 actual_sum : Z) (word3 : string) (expected : Z)
                                        (* "Math check: .. + .. = .., but .. = .." *)
| HintLookingGood.                      (* "Looking good so far!" *)

(** The loop over the words that collects the leading-zero hints. *)
Definition leading_zero_hints (words : list string) (guess_map : Assignment)
    : list Hint :=
  omap (λ word,
          match word with
          | String c _ =>
              if bool_decide (guess_map !! c = Some 0%Z)
              then Some (HintLeadingZero c) else None
          | EmptyString => None
          end) words.

(** The dictionary [digit_counts]. *)
Definition digit_counts (guess_map : Assignment) : gmap Z nat :=
  map_fold (λ (letter : ascii) digit (counts : gmap Z nat),
              <[digit := default 0 (counts !! digit) + 1]> counts)
           ∅ guess_map.

Definition duplicate_hints (guess_map : Assignment) : list Hint :=
  if bool_decide (1 < size guess_map) then
    let duplicates := dom (filter (λ kv, 1 < snd kv) (digit_counts guess_map)) in
    if bool_decide (duplicates ≠ ∅) then [HintDuplicates duplicates] else []
  else [].

(** The [try] block of the mathematical hint.  [KeyError] and
    [ValueError] are caught and passed over, the [ValueError] of
    formatting a sum of too many digits among them; [None] stands for an
    exception that escapes: the [IndexError] of [words[0]], [words[1]] or
    [words[2]] on a list that is too short. *)
Definition math_hints (words : list string) (guess_map : Assignment)
    : option (list Hint) :=
  let caught (r : result Z) (k : Z → option (list Hint)) :=
    match r with
    | Return n => k n
    | Raise KeyError | Raise ValueError => Some []
    | Raise AttributeError => None
    end in
  match words with
  | [] => None
  | word1 :: words1 =>
      caught (_word_to_number word1 guess_map) (λ num1,
        match words1 with
        | [] => None
        | word2 :: words2 =>
            caught (_word_to_number word2 guess_map) (λ num2,
              let actual_sum := (num1 + num2)%Z in
              match words2 with
              | [] => None
              | word3 :: _ =>
                  caught (_word_to_number word3 guess_map) (λ expected,
                    if bool_decide (actual_sum ≠ expected)
                    then if (Z.abs actual_sum <? int_str_bound)%Z
                         then Some [HintMath num1 num2 actual_sum word3
                                      expected]
                         else Some []
                    else Some [])
              end)
        end)
  end.

Definition get_hints (s : Solver) (guess_map : Assignment)
    : option (list Hint) :=
  match current_puzzle s with
  | None => Some [HintNoPuzzle]
  | Some (words, letters) =>
      let unassigned :=
        filter (λ letter, guess_map !! letter = None) letters in
      let hints1 :=
        match unassigned with
        | [] => []
        | _ => [HintUnassigned unassigned]
        end in
      let hints2 := hints1 ++ leading_zero_hints words guess_map in
      let hints3 := hints2 ++ duplicate_hints guess_map in
      hints4 ←
        (if bool_decide (size guess_map = length letters)
         then math ← math_hints words guess_map; Some (hints3 ++ math)
         else Some hints3);
      Some (match hints4 with [] => [HintLookingGood] | _ => hints4 end)
  end.

(** The module-level [get_puzzle_hints(level_data, current_guess)]. *)
Definition get_puzzle_hints (s : Solver) (words : list string)
    (unique_letters : list ascii) (current_guess : Assignment)
    : Solver * option (list Hint) :=
  let s' := set_puzzle s words unique_letters in
  (s', get_hints s' current_guess).

End Part3.

(** ** [cryptic_crossings.py]: the cryptarithmetic helpers *)

Module LegacyCrypto.

Import Part3.

(** The message returned next to the verdict. *)
Inductive Message :=
| AllLettersMustBeAssigned        (* "Error: All letters must be assigned a digit." *)
| DigitsMustBeUnique              (* "Error: Digits must be unique." *)
| LeadingLetterZero (c : ascii)   (* "Error: The leading letter '..' cannot be zero." *)
| InputError                      (* "Input error: {e}" *)
| ArithmeticError (num1 num2 result_num : Z)
                                  (* "Arithmetic Error: .. + .. != .." *)
| Success.                        (* "Success! The rules are deciphered." *)

(** The loop of [get_num]. *)
Fixpoint get_num_str (word : string) (guess_map : Assignment)
    (number_str : string) : result string :=
  match word with
  | EmptyString => Return number_str
  | String char rest =>
      match guess_map !! char with
      | None => Raise ValueError
      | Some d => get_num_str rest guess_map (number_str +:+ pretty d)
      end
  end.

Definition get_num (word : string) (guess_map : Assignment) : result Z :=
  number_str ← get_num_str word guess_map EmptyString; int_of_str number_str.

(** The loop over the leading letters.  [None] stands for the
    [IndexError] of [word[0]] on an empty word, which nothing catches;
    [Some None] for a loop that finds no leading zero. *)
Fixpoint leading_zero_loop (words : list string) (current_guess : Assignment)
    : option (option ascii) :=
  match words with
  | [] => Some None
  | word :: rest =>
      match word with
      | EmptyString => None
      | String c _ =>
          if bool_decide (current_guess !! c = Some 0%Z) then Some (Some c)
          else leading_zero_loop rest current_guess
      end
  end.

(** [validate_cryptarithmetic]; [None] stands for an escaping
    [IndexError], of [word[0]] or of [words[0]], [words[1]],
    [words[2]]. *)
Definition validate_cryptarithmetic (words : list string)
    (letters : list ascii) (current_guess : Assignment)
    : option (bool * Message) :=
  if bool_decide (size current_guess ≠ length letters)
  then Some (false, AllLettersMustBeAssigned)
  else
    let assigned_digits := (map_to_list current_guess).*2 in
    if bool_decide (size (list_to_set assigned_digits : gset Z)
                    ≠ length assigned_digits)
    then Some (false, DigitsMustBeUnique)
    else
      match leading_zero_loop words current_guess with
      | None => None
      | Some (Some c) => Some (false, LeadingLetterZero c)
      | Some None =>
          let caught (r : result Z) (k : Z → option (bool * Message)) :=
            match r with
            | Return n => k n
            | Raise ValueError => Some (false, InputError)
            | Raise _ => None
            end in
          match words with
          | [] => None
          | word1 :: words1 =>
              caught (get_num word1 current_guess) (λ num1,
                match words1 with
                | [] => None
                | word2 :: words2 =>
                    caught (get_num word2 current_guess) (λ num2,
                      match words2 with
                      | [] => None
                      | word3 :: _ =>
                          caught (get_num word3 current_guess) (λ result_num,
                            if bool_decide ((num1 + num2)%Z ≠ result_num)
                            then Some (false,
                                       ArithmeticError num1 num2 result_num)
                            else Some (true, Success))
                      end)
                end)
          end
      end.

End LegacyCrypto.

(** ** [part1_game_data.py] *)

Module Part1.

Record Level := mkLevel {
  words : list string;
  unique_letters : list ascii;
  solution : list (ascii * Z);
  final_m : Z;
  final_c : Z;
  final_k : Z
}.

Definition LEVELS : list Level :=
  [ mkLevel ["SEND"; "MORE"; "MONEY"]%string
      ["S"; "E"; "N"; "D"; "M"; "O"; "R"; "Y"]%char
      [("S", 9); ("E", 5); ("N", 6); ("D", 7);
       ("M", 1); ("O", 0); ("R", 8); ("Y", 2)]%char%Z
      3 3 2;
    mkLevel ["TWO"; "TWO"; "FOUR"]%string
      ["T"; "W"; "O"; "F"; "U"; "R"]%char
      [("T", 7); ("W", 3); ("O", 4); ("F", 1); ("U", 6); ("R", 8)]%char%Z
      4 4 3;
    mkLevel ["THIS"; "IS"; "GOOD"]%string
      ["T"; "H"; "I"; "S"; "G"; "O"; "D"]%char
      [("T", 1); ("H", 9); ("I", 5); ("S", 3);
       ("G", 2); ("O", 0); ("D", 6)]%char%Z
      5 5 3 ].

Definition get_level_count : Z := Z.of_nat (length LEVELS).

(** [get_level_data]: the level, or [None] for an index out of range. *)
Definition get_level_data (level_index : Z) : option Level :=
  if (0 <=? level_index)%Z && (level_index <? Z.of_nat (length LEVELS))%Z
  then LEVELS !! Z.to_nat level_index
  else None.

Definition validate_level_index (level_index : Z) : bool :=
  (0 <=? level_index)%Z && (level_index <? Z.of_nat (length LEVELS))%Z.

Definition get_max_level_index : Z := (Z.of_nat (length LEVELS) - 1)%Z.

End Part1.

(** ** [part2_persistence.py] *)

Module Part2.

(** What [json.load] can return.  Numbers with a fraction or an exponent
    are left out, and so are values nested so deep that reading them
    exhausts the interpreter's recursion limit. *)
#[warnings="-register-all"]
Inductive JValue :=
| JNull
| JBool (b : bool)
| JInt (n : Z)
| JStr (s : string)
| JList (items : list JValue)
| JDict (entries : gmap string JValue).

(** [json.load] turns an integer literal into a number with [int], which
    refuses more than [int_max_str_digits] digits, and [json.dump] prints
    a number with [int.__repr__], which refuses the same numbers: a value
    can be read and written when its integers are below [int_str_bound]
    in absolute value. *)
Definition int_fits (n : Z) : bool := (Z.abs n <? Part3.int_str_bound)%Z.

Fixpoint readable (v : JValue) : bool :=
  match v with
  | JInt n => int_fits n
  | JList items => forallb readable items
  | JDict entries => map_fold (λ _ v' acc, readable v' && acc) true entries
  | _ => true
  end.

(** The save file, when it can be opened: absent; bytes that are not
    text in the encoding of [open]; text that is not JSON; or the text of
    a JSON value. *)
Inductive SaveFile :=
| Absent
| NotText
| Garbled
| Stored (data : JValue).

(** The exceptions that [load_progress] does not catch. *)
Inductive Uncaught :=
| AttributeError      (* [data.get] on a value that is not a dictionary *)
| TypeError           (* [highest_level > max_level] on a value that is not a number *)
| UnicodeDecodeError  (* reading bytes that are not text *)
| ValueError.         (* [int] on an integer literal of too many digits *)

(** [json.load(f)] on the open file: the value, or the exception raised;
    [None] stands for [JSONDecodeError], the only one the callers
    catch. *)
Definition json_load (file : SaveFile) : Uncaught + option JValue :=
  match file with
  | Absent => inr None
  | NotText => inl UnicodeDecodeError
  | Garbled => inr None
  | Stored data => if readable data then inr (Some data) else inl ValueError
  end.

(** [load_progress]: the value returned, or the exception that escapes. *)
Definition load_progress (file : SaveFile) : Uncaught + JValue :=
  match file with
  | Absent => inr (JInt 0)
  | _ =>
      match json_load file with
      | inl e => inl e
      | inr None => inr (JInt 0)
      | inr (Some (JDict data)) =>
          let highest_level :=
            default (JInt 0) (data !! "highest_level_completed"%string) in
          let max_level := Part1.get_max_level_index in
          match highest_level with
          | JInt n => inr (JInt (if (max_level <? n)%Z then max_level else n))
          | JBool b =>
              inr (if (max_level <? (if b then 1 else 0))%Z then JInt max_level
                   else JBool b)
          | _ => inl TypeError
          end
      | inr (Some _) => inl AttributeError
      end
  end.

(** [save_progress]; [now] is [datetime.now().isoformat()].  Inside, only
    [JSONDecodeError] is caught while the file is read, and the writing
    then starts from an empty dictionary; any other exception (of the
    reading, or of the item assignment on a stored value that is not a
    dictionary) reaches the outer [except Exception] before the file is
    opened for writing, and the file stays as it is.  When [level_index]
    is too large for [json.dump] to print, the file has been truncated
    and holds the beginning of an object at most: text that is not
    JSON. *)
Definition save_progress (now : string) (level_index : Z) (file : SaveFile)
    : SaveFile :=
  let write (existing_data : gmap string JValue) :=
    let data1 := <["highest_level_completed"%string := JInt level_index]> existing_data in
    let data2 := <["last_played"%string := JStr now]> data1 in
    let data3 :=
      match data2 !! "session_history"%string with
      | None => <["session_history"%string := JList []]> data2
      | Some _ => data2
      end in
    if int_fits level_index then Stored (JDict data3) else Garbled in
  match file with
  | Absent => write ∅
  | _ =>
      match json_load file with
      | inl _ => file
      | inr None => write ∅
      | inr (Some (JDict existing_data)) => write existing_data
      | inr (Some _) => file
      end
  end.

(** [load_full_save_data]: the value returned, or the exception that
    escapes. *)
Definition load_full_save_data (file : SaveFile) : Uncaught + JValue :=
  match file with
  | Absent => inr (JDict ∅)
  | _ =>
      match json_load file with
      | inl e => inl e
      | inr None => inr (JDict ∅)
      | inr (Some data) => inr data
      end
  end.

(** [reset_progress]. *)
Definition reset_progress (file : SaveFile) : SaveFile := Absent.

(** An entry of [levels_attempted]. *)
Record Attempt := mkAttempt {
  attempt_level : Z;
  attempt_type : string;
  attempt_success : bool;
  attempt_timestamp : string
}.

(** The dictionary [session_data]. *)
Record SessionData := mkSessionData {
  session_start : string;
  levels_attempted : list Attempt;
  total_playtime : Z;
  cryptarithmetic_attempts : Z;
  river_crossing_attempts : Z
}.

(** [__init__]. *)
Definition new_session (now : string) : SessionData :=
  mkSessionData now [] 0 0 0.

Definition update_session_stats (stat_type : string) (value : Z)
    (d : SessionData) : SessionData :=
  if bool_decide (stat_type = "cryptarithmetic_attempts"%string)
  then mkSessionData (session_start d) (levels_attempted d)
         (total_playtime d) (cryptarithmetic_attempts d + value)
         (river_crossing_attempts d)
  else if bool_decide (stat_type = "river_crossing_attempts"%string)
  then mkSessionData (session_start d) (levels_attempted d)
         (total_playtime d) (cryptarithmetic_attempts d)
         (river_crossing_attempts d + value)
  else if bool_decide (stat_type = "total_playtime"%string)
  then mkSessionData (session_start d) (levels_attempted d)
         (total_playtime d + value) (cryptarithmetic_attempts d)
         (river_crossing_attempts d)
  else d.

Definition record_level_attempt (now : string) (level_index : Z)
    (puzzle_type : string) (success : bool) (d : SessionData) : SessionData :=
  let attempt_data := mkAttempt level_index puzzle_type success now in
  let d1 := mkSessionData (session_start d)
              (levels_attempted d ++ [attempt_data]) (total_playtime d)
              (cryptarithmetic_attempts d) (river_crossing_attempts d) in
  if bool_decide (puzzle_type = "cryptarithmetic"%string)
  then update_session_stats "cryptarithmetic_attempts" 1 d1
  else if bool_decide (puzzle_type = "river_crossing"%string)
  then update_session_stats "river_crossing_attempts" 1 d1
  else d1.

(** The entries of [get_session_summary] that are integers; the duration
    and the success rate are floating-point values and are left out. *)
Record Summary := mkSummary {
  summary_levels_attempted : nat;
  summary_total_attempts : nat;
  summary_cryptarithmetic_attempts : Z;
  summary_river_crossing_attempts : Z
}.

Definition get_session_summary (d : SessionData) : Summary :=
  mkSummary
    (size (list_to_set (attempt_level <$> levels_attempted d) : gset Z))
    (length (levels_attempted d))
    (cryptarithmetic_attempts d)
    (river_crossing_attempts d).

End Part2.

(** ** [part5_crypto_ui.py]: the state behind [CryptarithmeticUI] *)

Module Part5.

Import Part3.

(** The fields of [CryptarithmeticUI] that carry state; of [guess_entries]
    only the keys, the letters that have an entry field.  The text of an
    entry field reaches the model as the argument of [on_input_change];
    it is ASCII text. *)
Record CryptoUI := mkCryptoUI {
  current_level_index : Z;
  current_guess : Assignment;
  guess_entries : list ascii
}.

(** [__init__]. *)
Definition new_ui : CryptoUI := mkCryptoUI 0 ∅ [].

(** [load_level], with the entry fields made by [_create_input_fields]
    for [LEVELS[self.current_level_index]], in range by the guard. *)
Definition load_level (level_index : Z) (ui : CryptoUI) : CryptoUI :=
  if negb ((0 <=? level_index)%Z
           && (level_index <? Z.of_nat (length Part1.LEVELS))%Z)
  then ui
  else mkCryptoUI level_index ∅
         (from_option Part1.unique_letters []
            (Part1.LEVELS !! Z.to_nat level_index)).

(** [_find_duplicate_assignment]: the first letter other than
    [exclude_letter] that carries [digit], in the order in which the
    dictionary is listed (the order of insertion is not kept by the
    model). *)
Definition _find_duplicate_assignment (digit : Z) (exclude_letter : ascii)
    (ui : CryptoUI) : option ascii :=
  fst <$> find (λ kv, bool_decide (fst kv ≠ exclude_letter)
                      && bool_decide (snd kv = digit))
               (map_to_list (current_guess ui)).

Definition set_guess (guess : Assignment) (ui : CryptoUI) : CryptoUI :=
  mkCryptoUI (current_level_index ui) guess (guess_entries ui).

(** [content[-1]]. *)
Fixpoint last_char (content : string) : string :=
  match content with
  | EmptyString => EmptyString
  | String c EmptyString => content
  | String _ rest => last_char rest
  end.

(** The callback [on_input_change] of the entry field of [letter], run
    with [content] in the field.  The writes to the field ([var.set]) are
    not state of the model. *)
Definition on_input_change (letter : ascii) (content : string)
    (ui : CryptoUI) : CryptoUI :=
  let content :=
    if (1 <? String.length content)%nat then last_char content
    else content in
  match content with
  | EmptyString => set_guess (delete letter (current_guess ui)) ui
  | String c _ =>
      match digit_value c with
      | Some digit =>
          match _find_duplicate_assignment digit letter ui with
          | Some duplicate_letter =>
              set_guess (delete letter (current_guess ui)) ui
          | None => set_guess (<[letter := digit]> (current_guess ui)) ui
          end
      | None => set_guess (delete letter (current_guess ui)) ui
      end
  end.

(** [reset_puzzle]. *)
Definition reset_puzzle (ui : CryptoUI) : CryptoUI := set_guess ∅ ui.

(** [get_current_solution]. *)
Definition get_current_solution (ui : CryptoUI) : Assignment :=
  current_guess ui.

(** [is_solution_complete]; [None] stands for the [IndexError] of
    [LEVELS[self.current_level_index]]. *)
Definition is_solution_complete (ui : CryptoUI) : option bool :=
  level_data ← Part1.LEVELS !! Z.to_nat (current_level_index ui);
  Some (bool_decide (size (current_guess ui)
                     = length (Part1.unique_letters level_data))).

End Part5.

(** ** [part6_river_ui_controller.py]: the controller [CrypticCrossingsGame] *)

Module Part6.

Inductive PuzzleType := cryptarithmetic | river_crossing.

(** The calls made to the persistence module [part2_persistence], in the
    order they are made. *)
Inductive PersistenceCall :=
| load_progress
| save_progress (level_index : Z)
| record_attempt (level_index : Z) (puzzle_type : PuzzleType) (success : bool).

(** The controller's own fields, with the log of persistence calls. *)
Record Controller := mkController {
  current_level : Z;
  highest_level_completed : Z;
  persistence_calls : list PersistenceCall
}.

Definition _load_level (level_index : Z) (c : Controller) : Controller :=
  if negb ((0 <=? level_index)%Z && (level_index <? Part1.get_level_count)%Z)
  then c
  else mkController level_index (highest_level_completed c)
         (persistence_calls c).

(** [__init__]; [loaded] is the value [load_progress()] returns. *)
Definition init (loaded : Z) : Controller :=
  let c := mkController 0 loaded [load_progress] in
  _load_level (Z.min (highest_level_completed c) (Part1.get_level_count - 1)) c.

Definition _on_river_complete (c : Controller) : Controller :=
  let c1 := mkController (current_level c) (highest_level_completed c)
              (persistence_calls c
               ++ [record_attempt (current_level c) river_crossing true]) in
  let c2 :=
    if (highest_level_completed c1 <=? current_level c1)%Z
    then mkController (current_level c1) (current_level c1 + 1)
           (persistence_calls c1 ++ [save_progress (current_level c1 + 1)])
    else c1 in
  if (current_level c2 <? Part1.get_level_count - 1)%Z
  then _load_level (current_level c2 + 1) c2
  else _load_level 0 c2.

(** The controller after [wins] river wins in a session. *)
Fixpoint session (loaded : Z) (wins : nat) : Controller :=
  match wins with
  | O => init loaded
  | S n => _on_river_complete (session loaded n)
  end.

End Part6.

(** ** [part6_river_ui_controller.py]: the whole application *)

Module App.

(** The state of the application: the controller's fields, the state of
    the two panels, and the module-level objects they work on. *)
Record App := mkApp {
  controller : Part6.Controller;       (* [CrypticCrossingsGame] *)
  crypto_ui : Part5.CryptoUI;          (* [self.crypto_ui] *)
  is_unlocked : bool;                  (* [self.river_ui.is_unlocked] *)
  game : Part4.Game;                   (* [missionaries_cannibals_game] *)
  solver : Part3.Solver;               (* [cryptarithmetic_solver] *)
  save_file : Part2.SaveFile;          (* the file [SAVE_FILE] *)
  session_data : Part2.SessionData     (* [progress_manager.session_data] *)
}.

Definition set_controller (c : Part6.Controller) (a : App) : App :=
  mkApp c (crypto_ui a) (is_unlocked a) (game a) (solver a) (save_file a)
    (session_data a).

Definition set_crypto_ui (ui : Part5.CryptoUI) (a : App) : App :=
  mkApp (controller a) ui (is_unlocked a) (game a) (solver a) (save_file a)
    (session_data a).

Definition set_is_unlocked (b : bool) (a : App) : App :=
  mkApp (controller a) (crypto_ui a) b (game a) (solver a) (save_file a)
    (session_data a).

Definition set_game (g : Part4.Game) (a : App) : App :=
  mkApp (controller a) (crypto_ui a) (is_unlocked a) g (solver a)
    (save_file a) (session_data a).

Definition set_solver (s : Part3.Solver) (a : App) : App :=
  mkApp (controller a) (crypto_ui a) (is_unlocked a) (game a) s
    (save_file a) (session_data a).

Definition set_save_file (f : Part2.SaveFile) (a : App) : App :=
  mkApp (controller a) (crypto_ui a) (is_unlocked a) (game a) (solver a) f
    (session_data a).

Definition set_session_data (d : Part2.SessionData) (a : App) : App :=
  mkApp (controller a) (crypto_ui a) (is_unlocked a) (game a) (solver a)
    (save_file a) d.

(** *** [RiverCrossingUI] *)

Definition unlock_challenge (missionaries cannibals boat_capacity : Z)
    (a : App) : App :=
  set_game (Part4.initialize_game missionaries cannibals boat_capacity)
    (set_is_unlocked true a).

Definition lock_challenge (a : App) : App := set_is_unlocked false a.

(** [_on_character_click]; [None] stands for an exception that escapes
    from the engine. *)
Definition _on_character_click (character_id : string) (a : App)
    : option App :=
  if negb (is_unlocked a) then Some a
  else
    match Part4.get_character (game a) character_id with
    | None => Some a
    | Some _ =>
        let r :=
          if bool_decide (character_id ∈ Part4.boat_crew (Part4.state (game a)))
          then Part4.remove_from_boat (game a) character_id
          else Part4.add_to_boat (game a) character_id in
        match r with
        | Return (g, _) => Some (set_game g a)
        | Raise _ => None
        end
    end.

(** [_travel_boat]; the status check it schedules is the event
    [StatusTimer] below. *)
Definition _travel_boat (a : App) : option App :=
  if negb (is_unlocked a) then Some a
  else
    match Part4.travel (game a) with
    | Return (g, _) => Some (set_game g a)
    | Raise _ => None
    end.

Definition _restart_river_challenge (a : App) : App :=
  if is_unlocked a then set_game (Part4.restart_game (game a)) a else a.

(** *** [CrypticCrossingsGame] *)

(** [_load_level]. *)
Definition _load_level (level_index : Z) (a : App) : App :=
  if negb ((0 <=? level_index)%Z && (level_index <? Part1.get_level_count)%Z)
  then a
  else
    let a1 := set_controller (Part6._load_level level_index (controller a)) a in
    let a2 := set_crypto_ui (Part5.load_level level_index (crypto_ui a1)) a1 in
    lock_challenge a2.

(** [_on_crypto_solution]; [None] stands for the [IndexError] of
    [LEVELS[self.current_level]]; [now] is the time of the call. *)
Definition _on_crypto_solution (now : string) (is_valid : bool) (a : App)
    : option App :=
  level_data ← Part1.LEVELS
                 !! Z.to_nat (Part6.current_level (controller a));
  let a1 :=
    if is_valid
    then unlock_challenge (Part1.final_m level_data)
           (Part1.final_c level_data) (Part1.final_k level_data) a
    else lock_challenge a in
  let c := controller a1 in
  let a2 :=
    set_controller
      (Part6.mkController (Part6.current_level c)
         (Part6.highest_level_completed c)
         (Part6.persistence_calls c
          ++ [Part6.record_attempt (Part6.current_level c)
                Part6.cryptarithmetic is_valid])) a1 in
  Some (set_session_data
          (Part2.record_level_attempt now (Part6.current_level c)
             "cryptarithmetic" is_valid (session_data a2)) a2).

(** [_on_river_complete]: the controller's fields follow
    [Part6._on_river_complete]; the session data, the save file and the
    two panels follow the same calls.  [now] stands for both readings of
    the clock, that of [record_attempt] and that of [save_progress]. *)
Definition _on_river_complete (now : string) (a : App) : App :=
  let c := controller a in
  let a1 :=
    set_session_data
      (Part2.record_level_attempt now (Part6.current_level c)
         "river_crossing" true (session_data a)) a in
  let a2 :=
    if (Part6.highest_level_completed c <=? Part6.current_level c)%Z
    then set_save_file
           (Part2.save_progress now (Part6.current_level c + 1) (save_file a1))
           a1
    else a1 in
  let next :=
    if (Part6.current_level c <? Part1.get_level_count - 1)%Z
    then (Part6.current_level c + 1)%Z else 0%Z in
  let a3 := set_controller (Part6._on_river_complete c) a2 in
  if negb ((0 <=? next)%Z && (next <? Part1.get_level_count)%Z) then a3
  else lock_challenge
         (set_crypto_ui (Part5.load_level next (crypto_ui a3)) a3).

(** [RiverCrossingUI._check_game_status], with the callback
    [_on_river_complete] it calls on a win. *)
Definition _check_game_status (now : string) (a : App) : App :=
  let game_status := Part4.get_game_status (game a) in
  if Part4.status_is_game_over game_status then
    if Part4.status_is_won game_status then _on_river_complete now a
    else _restart_river_challenge a
  else a.

(** [CryptarithmeticUI._on_solve_clicked], with the callback
    [_on_crypto_solution]; [None] stands for an [IndexError]. *)
Definition _on_solve_clicked (now : string) (a : App) : option App :=
  level_data ← Part1.LEVELS
                 !! Z.to_nat (Part5.current_level_index (crypto_ui a));
  let '(s, (is_valid, _)) :=
    Part3.validate_cryptarithmetic (solver a) (Part1.words level_data)
      (Part1.unique_letters level_data) (Part5.current_guess (crypto_ui a)) in
  _on_crypto_solution now is_valid (set_solver s a).

(** [CryptarithmeticUI._show_hints]: the hints shown, and the solver the
    call leaves behind. *)
Definition _show_hints (a : App) : option (App * list Part3.Hint) :=
  level_data ← Part1.LEVELS
                 !! Z.to_nat (Part5.current_level_index (crypto_ui a));
  let '(s, hints) :=
    Part3.get_puzzle_hints (solver a) (Part1.words level_data)
      (Part1.unique_letters level_data) (Part5.current_guess (crypto_ui a)) in
  hints ← hints; Some (set_solver s a, hints).

(** The integer a loaded value counts as ([True] is 1, [False] is 0). *)
Definition as_int (v : Part2.JValue) : option Z :=
  match v with
  | Part2.JInt n => Some n
  | Part2.JBool b => Some (if b then 1 else 0)%Z
  | _ => None
  end.

(** [CrypticCrossingsGame.__init__] on a machine whose save file is
    [file], at time [now]; [None] stands for an exception that escapes
    from [load_progress]. *)
Definition init (now : string) (file : Part2.SaveFile) : option App :=
  match Part2.load_progress file with
  | inl _ => None
  | inr v =>
      loaded ← as_int v;
      let a :=
        mkApp (Part6.mkController 0 loaded [Part6.load_progress])
          Part5.new_ui false
          (Part4.mkGame (Part4.mkGameState 0 0 0 0 Part4.LEFT [] 2 0 0 0
                           false false) [] [])
          Part3.new_solver file (Part2.new_session now) in
      Some (_load_level (Z.min loaded (Part1.get_level_count - 1)) a)
  end.

(** *** Events *)

(** What the player and the timer can do: text arriving in the entry
    field of a letter, the buttons of the two panels, a click on a
    character, and the status check that [_travel_boat] defers by
    [after].  An event is followed whether or not its widget is enabled or
    drawn at the time; message boxes, sounds and drawing are not state of
    the model. *)
Inductive Event :=
| InputChange (letter : ascii) (content : string)
| SolveClicked (now : string)
| HintClicked
| CharacterClick (character_id : string)
| TravelClicked
| RestartClicked
| StatusTimer (now : string).

Definition handle (a : App) (ev : Event) : option App :=
  match ev with
  | InputChange letter content =>
      if bool_decide (letter ∈ Part5.guess_entries (crypto_ui a))
      then Some (set_crypto_ui
                   (Part5.on_input_change letter content (crypto_ui a)) a)
      else Some a
  | SolveClicked now => _on_solve_clicked now a
  | HintClicked => fst <$> _show_hints a
  | CharacterClick character_id => _on_character_click character_id a
  | TravelClicked => _travel_boat a
  | RestartClicked => Some (_restart_river_challenge a)
  | StatusTimer now => Some (_check_game_status now a)
  end.

Fixpoint run (a : App) (events : list Event) : option App :=
  match events with
  | [] => Some a
  | ev :: rest => a' ← handle a ev; run a' rest
  end.

End App.

Import Part4 Part3.

(** ** Vocabulary of the statements *)

(** The five grounds on which [add_to_boat] refuses a boarding. *)
Definition add_refused (g : Game) (cid : string) : Prop :=
  is_game_over (state g) = true
  ∨ get_character g cid = None
  ∨ (∃ ch, get_character g cid = Some ch ∧ location ch ≠ boat_side (state g))
  ∨ (boat_capacity (state g) ≤ Z.of_nat (length (boat_crew (state g))))%Z
  ∨ cid ∈ boat_crew (state g).

(** The messages of a refused boarding. *)
Definition add_error (g : Game) (cid : string) (msg : Message) : Prop :=
  msg = MsgGameOver
  ∨ msg = MsgNotFound cid
  ∨ (∃ loc, msg = MsgWrongSide loc (boat_side (state g)))
  ∨ msg = MsgBoatFull (boat_capacity (state g))
  ∨ msg = MsgAlreadyOnBoat.

(** The conservation law for totals [(m, c)]. *)
Definition conserved (m c : Z) (g : Game) : Prop :=
  (missionaries_left (state g) + missionaries_right (state g)
   + crew_count MISSIONARY g = m)%Z
  ∧ (cannibals_left (state g) + cannibals_right (state g)
     + crew_count CANNIBAL g = c)%Z.

(** The type recorded for an id: [get_character] followed by [.type]. *)
Definition type_of (chars : list Character) (cid : string)
    : option CharacterType :=
  type <$> find (λ ch, bool_decide (id ch = cid)) chars.

(** How many ids of [crew] name a character of type [ty]. *)
Definition count_type (chars : list Character) (ty : CharacterType)
    (crew : list string) : Z :=
  Z.of_nat (length (filter (λ cid, type_of chars cid = Some ty) crew)).

(** The fields of the game that the passenger loop of [travel] and the
    boat loading never touch. *)
Definition same_frame (g g' : Game) : Prop :=
  is_game_over (state g') = is_game_over (state g)
  ∧ is_won (state g') = is_won (state g)
  ∧ boat_side (state g') = boat_side (state g)
  ∧ boat_capacity (state g') = boat_capacity (state g)
  ∧ total_missionaries (state g') = total_missionaries (state g)
  ∧ total_cannibals (state g') = total_cannibals (state g)
  ∧ move_count (state g') = move_count (state g)
  ∧ move_history g' = move_history g
  ∧ (∀ cid, type_of (characters g') cid = type_of (characters g) cid).

(** Every id aboard names a character. *)
Definition crew_known (g : Game) : Prop :=
  ∀ cid, cid ∈ boat_crew (state g) → is_Some (type_of (characters g) cid).

(** 1 when [cid] names a character of type [ty], else 0. *)
Definition one_if (chars : list Character) (ty : CharacterType)
    (cid : string) : Z :=
  if decide (type_of chars cid = Some ty) then 1%Z else 0%Z.

(** *** Cryptarithmetic *)

(** The four constraints on a letter-to-digit assignment. *)
Definition digit_valued (a : Assignment) : Prop :=
  ∀ l d, a !! l = Some d → (0 ≤ d ≤ 9)%Z.

Definition distinct_digits (a : Assignment) : Prop :=
  ∀ l1 l2 d, a !! l1 = Some d → a !! l2 = Some d → l1 = l2.

Definition leading_nonzero (words : list string) (a : Assignment) : Prop :=
  ∀ c rest, String c rest ∈ words → a !! c ≠ Some 0%Z.

Definition sum_holds (words : list string) (a : Assignment) : Prop :=
  ∃ w1 w2 w3 n1 n2 n3,
    words = [w1; w2; w3]
    ∧ _word_to_number w1 a = Return n1
    ∧ _word_to_number w2 a = Return n2
    ∧ _word_to_number w3 a = Return n3
    ∧ (n1 + n2 = n3)%Z.

Definition valid_assignment (words : list string) (letters : list ascii)
    (a : Assignment) : Prop :=
  dom a = list_to_set letters
  ∧ digit_valued a
  ∧ distinct_digits a
  ∧ leading_nonzero words a
  ∧ sum_holds words a.

(** The letters that occur in the words. *)
Definition letters_of (words : list string) : gset ascii :=
  ⋃ ((λ w, list_to_set (list_ascii_of_string w)) <$> words).

(** A puzzle spec: three words and the duplicate-free list of exactly the
    letters that occur in them. *)
Definition puzzle_spec (words : list string) (letters : list ascii) : Prop :=
  length words = 3
  ∧ NoDup letters
  ∧ list_to_set letters = letters_of words.

(** The assignments the search can still reach from [a]: every remaining
    letter receives, in turn, a digit 0-9 that is not in use and is not 0
    for a leading letter. *)
Fixpoint extends (leading : gset ascii) (a : Assignment) (rest : list ascii)
    (u : gset Z) (b : Assignment) : Prop :=
  match rest with
  | [] => b = a
  | l :: rest' =>
      ∃ d, (0 ≤ d ≤ 9)%Z ∧ (d ∉ u) ∧ ¬ (l ∈ leading ∧ d = 0%Z)
           ∧ extends leading (<[l := d]> a) rest' ({[d]} ∪ u) b
  end.

(** What a search over [rest] owes its caller. *)
Definition search_ok (words : list string) (leading : gset ascii)
    (rest : list ascii) (f : Assignment → gset Z → result Search) : Prop :=
  ∀ a u, (∀ l, l ∈ rest → a !! l = None) →
    match f a u with
    | Return (Found b) =>
        extends leading a rest u b ∧ fst (_verify_mathematics words b) = true
    | Return (Exhausted a' u') =>
        a' = a ∧ u' = u
        ∧ ∀ b, extends leading a rest u b →
               fst (_verify_mathematics words b) = false
    | Raise _ => False
    end.

(** The solver's cache is empty or holds the one entry of the puzzle that
    was solved last, a three-word puzzle, with what the search returns. *)
Definition solver_inv (s : Solver) : Prop :=
  solution_cache s = ∅
  ∨ ∃ words letters found,
      length words = 3
      ∧ current_puzzle s = Some (words, letters)
      ∧ _backtrack_solve words (leading_letters_of words) letters ∅ ∅
        = Return found
      ∧ solution_cache s
        = {[ puzzle_key words letters :=
               match found with Found a => Some a | Exhausted _ _ => None end ]}.

(** *** Controller *)

(** The level indices handed to [save_progress], in call order. *)
Definition saves (calls : list Part6.PersistenceCall) : list Z :=
  omap (λ call, match call with
                | Part6.save_progress i => Some i
                | _ => None
                end) calls.

(** The number of [load_progress] calls. *)
Definition loads (calls : list Part6.PersistenceCall) : nat :=
  length (omap (λ call, match call with
                        | Part6.load_progress => Some call
                        | _ => None
                        end) calls).


(** *** Reachable games *)

(** The games a session can be in: [initialize_game m c k] followed by any
    calls of [add_to_boat], [remove_from_boat] and [travel]. *)
Inductive reachable (m c k : Z) : Game → Prop :=
| reachable_init : reachable m c k (initialize_game m c k)
| reachable_step g op g' :
    reachable m c k g → step g op = Return g' → reachable m c k g'.

(** The other bank. *)
Definition opposite (side : Side) : Side :=
  match side with LEFT => RIGHT | RIGHT => LEFT end.

(** The count the state keeps for a type on a bank. *)
Definition bank_count (side : Side) (ty : CharacterType) (st : GameState) : Z :=
  match side, ty with
  | LEFT, MISSIONARY => missionaries_left st
  | LEFT, CANNIBAL => cannibals_left st
  | RIGHT, MISSIONARY => missionaries_right st
  | RIGHT, CANNIBAL => cannibals_right st
  end.

(** The characters of a type that stand on a bank, as the character list
    has them. *)
Definition standing (g : Game) (side : Side) (ty : CharacterType) : Z :=
  Z.of_nat (length (filter (λ ch, type ch = ty)
                           (get_characters_on_side g side))).

(** Bank counts and the character list agree: unique ids, a duplicate-free
    crew whose members stand on the boat's bank, and every count equal to
    the number of characters of that type standing on that bank. *)
Definition consistent (g : Game) : Prop :=
  NoDup (id <$> characters g)
  ∧ NoDup (boat_crew (state g))
  ∧ (∀ cid, cid ∈ boat_crew (state g) →
       ∃ ch, ch ∈ characters g ∧ id ch = cid
             ∧ location ch = boat_side (state g))
  ∧ (∀ side ty, bank_count side ty (state g) = standing g side ty).

(** A character with its location changed. *)
Definition relocate (side : Side) (ch : Character) : Character :=
  mkCharacter (id ch) (type ch) side.

(** The characters of a type on a bank, given the crew. *)
Definition on_bank (chars : list Character) (crew : list string)
    (side : Side) (ty : CharacterType) : nat :=
  length (filter (λ ch, type ch = ty ∧ (location ch = side ∧ id ch ∉ crew))
                 chars).

(** The game after a sequence of calls. *)
Fixpoint run (g : Game) (ops : list Op) : result Game :=
  match ops with
  | [] => Return g
  | op :: rest => g' ← step g op; run g' rest
  end.

(** The base-10 reading of a word under an assignment, most significant
    letter first; a letter without a digit counts as 0. *)
Definition word_value (w : string) (a : Assignment) : Z :=
  fold_left (λ acc c, (10 * acc + default 0 (a !! c))%Z)
            (list_ascii_of_string w) 0%Z.

(** Every letter of the word has a digit 0-9. *)
Definition word_assigned (w : string) (a : Assignment) : Prop :=
  ∀ c, c ∈ list_ascii_of_string w → ∃ d, a !! c = Some d ∧ (0 ≤ d ≤ 9)%Z.

(** A word short enough for [int] to convert its digits. *)
Definition fits (w : string) : Prop :=
  (Z.of_nat (String.length w) ≤ int_max_str_digits)%Z.

Definition words_fit (words : list string) : Prop :=
  ∀ w, w ∈ words → fits w.

(** The equation of a three-word puzzle, read in base 10. *)
Definition adds_up (words : list string) (a : Assignment) : Prop :=
  ∃ w1 w2 w3,
    words = [w1; w2; w3]
    ∧ w1 ≠ EmptyString ∧ w2 ≠ EmptyString ∧ w3 ≠ EmptyString
    ∧ (word_value w1 a + word_value w2 a = word_value w3 a)%Z.

(** A solution of the puzzle: the letters receive pairwise distinct digits
    0-9, no word starts with 0, and the equation holds in base 10. *)
Definition solution (words : list string) (letters : list ascii)
    (a : Assignment) : Prop :=
  dom a = list_to_set letters
  ∧ digit_valued a
  ∧ distinct_digits a
  ∧ leading_nonzero words a
  ∧ adds_up words a.

(** A word of 4301 letters: 4300 times the letter A, then [last]. *)
Definition long_word (last : ascii) : string :=
  string_of_list_ascii (repeat "A"%char 4300 ++ [last]).

(** The letters that carry digit [d]. *)
Definition letters_with (d : Z) (a : Assignment) : gset ascii :=
  dom (filter (λ kv, snd kv = d) a).

(** The order in which the search meets the assignments: by the digit of
    the first letter, then of the second, and so on. *)
Fixpoint lex_le (letters : list ascii) (b b' : Assignment) : Prop :=
  match letters with
  | [] => True
  | l :: rest =>
      (default 0 (b !! l) < default 0 (b' !! l))%Z
      ∨ (b !! l = b' !! l ∧ lex_le rest b b')
  end.

(** A list of digits in increasing order, as [range(10)] is. *)
Fixpoint increasing (digits : list Z) : Prop :=
  match digits with
  | [] => True
  | d :: rest => Forall (Z.lt d) rest ∧ increasing rest
  end.

(** What a search over [rest] finds is the first in that order. *)
Definition search_least (words : list string) (leading : gset ascii)
    (rest : list ascii) (f : Assignment → gset Z → result Search) : Prop :=
  ∀ a u b, (∀ l, l ∈ rest → a !! l = None) →
    f a u = Return (Found b) →
    ∀ b', extends leading a rest u b' →
          fst (_verify_mathematics words b') = true →
          lex_le rest b b'.

(** *** Persistence *)

(** A save file that [save_progress] can write: absent, text that is not
    JSON, or a dictionary that [json.load] reads. *)
Definition usable (file : Part2.SaveFile) : Prop :=
  match file with
  | Part2.Absent | Part2.Garbled => True
  | Part2.Stored (Part2.JDict d) => Part2.readable (Part2.JDict d) = true
  | _ => False
  end.

(** The keys [save_progress] writes. *)
Definition written_keys : list string :=
  ["highest_level_completed"; "last_played"; "session_history"]%string.

(** The entries of the dictionary in the file; none when there is no
    dictionary. *)
Definition entries_of (file : Part2.SaveFile) : gmap string Part2.JValue :=
  match file with
  | Part2.Stored (Part2.JDict d) => d
  | _ => ∅
  end.

(** A session's attempts, recorded one after the other: each call is
    (level, puzzle type, success). *)
Definition record_attempts (now : string)
    (calls : list (Z * string * bool)) (d : Part2.SessionData)
    : Part2.SessionData :=
  fold_left (λ d call, Part2.record_level_attempt now call.1.1 call.1.2
                         call.2 d) calls d.

(** *** The application *)

(** The level the controller is at. *)
Definition level_of (a : App.App) : option Part1.Level :=
  Part1.LEVELS !! Z.to_nat (Part6.current_level (App.controller a)).

(** The level index that follows [i]: the next one, or the first after
    the last. *)
Definition next_level (i : Z) : Z :=
  if (i <? Part1.get_level_count - 1)%Z then (i + 1)%Z else 0%Z.

(** What holds of the application between two events. *)
Definition app_inv (a : App.App) : Prop :=
  let c := App.controller a in
  let ui := App.crypto_ui a in
  (0 ≤ Part6.current_level c < Part1.get_level_count)%Z
  ∧ Part5.current_level_index ui = Part6.current_level c
  ∧ (Part5.guess_entries ui = []
     ∨ ∃ lv, level_of a = Some lv
             ∧ Part5.guess_entries ui = Part1.unique_letters lv)
  ∧ digit_valued (Part5.current_guess ui)
  ∧ distinct_digits (Part5.current_guess ui)
  ∧ dom (Part5.current_guess ui) ⊆ list_to_set (Part5.guess_entries ui)
  ∧ (App.is_unlocked a = true →
     ∃ lv, level_of a = Some lv
           ∧ reachable (Part1.final_m lv) (Part1.final_c lv)
               (Part1.final_k lv) (App.game a))
  ∧ ∃ v, Part2.load_progress (App.save_file a) = inr v
         ∧ App.as_int v
           = Some (Z.min (Part6.highest_level_completed c)
                         Part1.get_max_level_index).

(** Text of ASCII characters.  The model of [on_input_change] follows the
    source on such text: there [str.isdigit] holds of the ten digits only
    and [int] reads them. *)
Definition ascii_text (content : string) : bool :=
  forallb (λ c, (nat_of_ascii c <? 128)%nat) (list_ascii_of_string content).

(** An event whose text, if it has one, is ASCII text. *)
Definition ascii_event (ev : App.Event) : bool :=
  match ev with
  | App.InputChange _ content => ascii_text content
  | _ => true
  end.

(** A session that solves the first puzzle and takes everybody across in
    eleven crossings. *)
Definition first_level_play : list App.Event :=
  [App.InputChange "S" "9"; App.InputChange "E" "5";
   App.InputChange "N" "6"; App.InputChange "D" "7";
   App.InputChange "M" "1"; App.InputChange "O" "0";
   App.InputChange "R" "8"; App.InputChange "Y" "2";
   App.SolveClicked "t1";
   App.CharacterClick "C4"; App.CharacterClick "C5"; App.TravelClicked;
   App.CharacterClick "C4"; App.TravelClicked;
   App.CharacterClick "C4"; App.CharacterClick "C6"; App.TravelClicked;
   App.CharacterClick "C4"; App.TravelClicked;
   App.CharacterClick "M1"; App.CharacterClick "M2"; App.TravelClicked;
   App.CharacterClick "M1"; App.CharacterClick "C5"; App.TravelClicked;
   App.CharacterClick "M1"; App.CharacterClick "M3"; App.TravelClicked;
   App.CharacterClick "C6"; App.TravelClicked;
   App.CharacterClick "C4"; App.CharacterClick "C5"; App.TravelClicked;
   App.CharacterClick "C4"; App.TravelClicked;
   App.CharacterClick "C4"; App.CharacterClick "C6"; App.TravelClicked].

(** The same session up to the last crossing, with the status check that
    each of the first nine crossings schedules; the check of the tenth is
    still pending when the player, less than a second later, is about to
    make the eleventh. *)
Definition before_last_crossing : list App.Event :=
  [App.InputChange "S" "9"; App.InputChange "E" "5";
   App.InputChange "N" "6"; App.InputChange "D" "7";
   App.InputChange "M" "1"; App.InputChange "O" "0";
   App.InputChange "R" "8"; App.InputChange "Y" "2";
   App.SolveClicked "t1";
   App.CharacterClick "C4"; App.CharacterClick "C5"; App.TravelClicked;
   App.StatusTimer "s1";
   App.CharacterClick "C4"; App.TravelClicked; App.StatusTimer "s2";
   App.CharacterClick "C4"; App.CharacterClick "C6"; App.TravelClicked;
   App.StatusTimer "s3";
   App.CharacterClick "C4"; App.TravelClicked; App.StatusTimer "s4";
   App.CharacterClick "M1"; App.CharacterClick "M2"; App.TravelClicked;
   App.StatusTimer "s5";
   App.CharacterClick "M1"; App.CharacterClick "C5"; App.TravelClicked;
   App.StatusTimer "s6";
   App.CharacterClick "M1"; App.CharacterClick "M3"; App.TravelClicked;
   App.StatusTimer "s7";
   App.CharacterClick "C6"; App.TravelClicked; App.StatusTimer "s8";
   App.CharacterClick "C4"; App.CharacterClick "C5"; App.TravelClicked;
   App.StatusTimer "s9";
   App.CharacterClick "C4"; App.TravelClicked;
   App.CharacterClick "C4"; App.CharacterClick "C6"].

(** * Properties of the river engine *)

Section RiverBasics.

Implicit Types (g : Game) (st : GameState) (cid : string)
  (chars : list Character) (crew : list string).

Lemma find_set_location chars cid side cid' :
  find (λ ch, bool_decide (id ch = cid')) (set_location cid side chars)
  = (λ ch, if bool_decide (id ch = cid)
           then mkCharacter (id ch) (type ch) side else ch)
    <$> find (λ ch, bool_decide (id ch = cid')) chars
  ∨ find (λ ch, bool_decide (id ch = cid')) (set_location cid side chars)
    = find (λ ch, bool_decide (id ch = cid')) chars.
Proof.
  induction chars as [|ch rest IH]; simpl; [by right|].
  destruct (bool_decide (id ch = cid)) eqn:Hc; simpl.
  - destruct (bool_decide (id ch = cid')) eqn:Hc'; simpl.
    + left. by rewrite Hc.
    + by right.
  - destruct (bool_decide (id ch = cid')) eqn:Hc'; simpl; [by right|].
    exact IH.
Qed.

Lemma type_of_set_location chars cid side cid' :
  type_of (set_location cid side chars) cid' = type_of chars cid'.
Proof.
  unfold type_of.
  destruct (find_set_location chars cid side cid') as [-> | ->]; [|done].
  destruct (find _ chars) as [ch|]; simpl; [|done].
  by destruct (bool_decide (id ch = cid)).
Qed.

Lemma get_character_move g cid side cid' :
  type <$> get_character (move_character cid side g) cid'
  = type <$> get_character g cid'.
Proof. apply type_of_set_location. Qed.

Lemma find_some_id chars cid ch :
  find (λ ch, bool_decide (id ch = cid)) chars = Some ch → id ch = cid.
Proof.
  intros H. apply find_some in H as [_ H]. by apply bool_decide_eq_true in H.
Qed.

(** Writing back the location a character already has changes nothing. *)
Lemma set_location_same chars cid ch :
  find (λ ch, bool_decide (id ch = cid)) chars = Some ch →
  set_location cid (location ch) chars = chars.
Proof.
  induction chars as [|c rest IH]; simpl; [done|].
  destruct (bool_decide (id c = cid)) eqn:Hc.
  - intros [= <-]. by destruct c.
  - intros H. by rewrite IH.
Qed.

Lemma list_remove_snoc crew cid :
  cid ∉ crew → list_remove cid (crew ++ [cid]) = Some crew.
Proof.
  induction crew as [|x rest IH]; simpl; intros Hn.
  - by rewrite bool_decide_eq_true_2.
  - rewrite bool_decide_eq_false_2 by (intros ->; apply Hn; left).
    rewrite IH; [done|]. intros ?; apply Hn. by right.
Qed.

Lemma list_remove_elem crew cid :
  cid ∈ crew → is_Some (list_remove cid crew).
Proof.
  induction crew as [|x rest IH]; simpl; intros Hin.
  - by apply elem_of_nil in Hin.
  - destruct (bool_decide (x = cid)) eqn:Hx; [by eexists|].
    apply bool_decide_eq_false in Hx.
    apply elem_of_cons in Hin as [->|Hin]; [done|].
    destruct (IH Hin) as [l ->]. by eexists.
Qed.

End RiverBasics.

(** ** Safety predicate *)

(** C3. On non-negative counts the bank predicate [is_safe m c] is false
    exactly when [m > 0] and [c > m]; it is true for [m = 0] and for
    [m > 0], [c <= m]; and a river state is safe ([is_safe_state]) exactly
    when both of its banks satisfy the bank predicate. *)
Theorem is_safe_rule (m c : Z) (Hm : (0 ≤ m)%Z) (Hc : (0 ≤ c)%Z) :
  (Legacy.is_safe m c = false ↔ (0 < m ∧ m < c)%Z)
  ∧ (m = 0%Z → Legacy.is_safe m c = true)
  ∧ ((0 < m)%Z → (c ≤ m)%Z → Legacy.is_safe m c = true)
  ∧ ((0 < m)%Z → (m < c)%Z → Legacy.is_safe m c = false)
  ∧ (∀ m' c' : Z, (0 ≤ m')%Z → (0 ≤ c')%Z →
       is_safe_state m c m' c' = Legacy.is_safe m c && Legacy.is_safe m' c')
  ∧ (∀ g : Game,
       missionaries_left (state g) = m → cannibals_left (state g) = c →
       (0 ≤ missionaries_right (state g))%Z →
       (is_current_state_safe g = true ↔
        Legacy.is_safe m c = true
        ∧ Legacy.is_safe (missionaries_right (state g))
                         (cannibals_right (state g)) = true)).
Proof.
  assert (Hpair : ∀ m' c' : Z, (0 ≤ m')%Z →
    is_safe_state m c m' c' = Legacy.is_safe m c && Legacy.is_safe m' c').
  { intros m' c' Hm'. unfold is_safe_state, Legacy.is_safe.
    destruct (Z.eqb_spec m 0), (Z.eqb_spec m' 0), (Z.ltb_spec 0 m),
      (Z.ltb_spec m c), (Z.ltb_spec 0 m'), (Z.ltb_spec m' c'),
      (Z.leb_spec c m), (Z.leb_spec c' m'); simpl; try reflexivity; lia. }
  assert (Hbank : Legacy.is_safe m c = false ↔ (0 < m ∧ m < c)%Z).
  { unfold Legacy.is_safe.
    destruct (Z.eqb_spec m 0), (Z.leb_spec c m); split;
      try discriminate; try reflexivity; lia. }
  assert (Htrue : ¬ (0 < m ∧ m < c)%Z → Legacy.is_safe m c = true).
  { intros Hn. destruct (Legacy.is_safe m c) eqn:E; [done|].
    exfalso. apply Hn. by apply Hbank. }
  split; [exact Hbank|].
  split; [intros ->; apply Htrue; lia|].
  split; [intros ? ?; apply Htrue; lia|].
  split; [intros ? ?; apply Hbank; lia|].
  split; [intros m' c' Hm' _; by apply Hpair|].
  intros g Hml Hcl Hmr. unfold is_current_state_safe.
  rewrite Hml, Hcl, Hpair by done. apply andb_true_iff.
Qed.

Lemma is_safe_rule_witness :
  Legacy.is_safe 1 3 = false ∧ is_safe_state 1 3 2 2 = false.
Proof.
  pose proof (is_safe_rule 1 3 ltac:(lia) ltac:(lia)) as (_ & _ & _ & H & Hp & _).
  split.
  - apply H; lia.
  - rewrite (Hp 2%Z 2%Z) by lia. rewrite H by lia. reflexivity.
Defined.

(** ** Boat loading *)

Section Loading.

Implicit Types (g : Game) (cid : string) (msg : Message).

(** What the cascade of [can_add_to_boat] has established when it accepts. *)
Lemma can_add_true g cid msg :
  can_add_to_boat g cid = (true, msg) →
  is_game_over (state g) = false
  ∧ (∃ ch, get_character g cid = Some ch
           ∧ location ch = boat_side (state g))
  ∧ (Z.of_nat (length (boat_crew (state g))) < boat_capacity (state g))%Z
  ∧ cid ∉ boat_crew (state g).
Proof.
  unfold can_add_to_boat.
  destruct (is_game_over (state g)); [discriminate|].
  destruct (get_character g cid) as [ch|]; [|discriminate].
  case_bool_decide as Hloc; simpl; [|discriminate].
  destruct (Z.leb_spec (boat_capacity (state g))
              (Z.of_nat (length (boat_crew (state g))))); [discriminate|].
  case_bool_decide as Hin; [discriminate|].
  intros _. eauto 10.
Qed.

Lemma can_add_false g cid msg :
  can_add_to_boat g cid = (false, msg) →
  (is_game_over (state g) = true ∧ msg = MsgGameOver)
  ∨ (is_game_over (state g) = false ∧ get_character g cid = None
     ∧ msg = MsgNotFound cid)
  ∨ (is_game_over (state g) = false
     ∧ ∃ ch, get_character g cid = Some ch
             ∧ ((location ch ≠ boat_side (state g)
                 ∧ msg = MsgWrongSide (location ch) (boat_side (state g)))
                ∨ (location ch = boat_side (state g)
                   ∧ (boat_capacity (state g)
                      ≤ Z.of_nat (length (boat_crew (state g))))%Z
                   ∧ msg = MsgBoatFull (boat_capacity (state g)))
                ∨ (location ch = boat_side (state g)
                   ∧ (Z.of_nat (length (boat_crew (state g)))
                      < boat_capacity (state g))%Z
                   ∧ cid ∈ boat_crew (state g)
                   ∧ msg = MsgAlreadyOnBoat))).
Proof.
  unfold can_add_to_boat.
  destruct (is_game_over (state g)); [intros [= <-]; by left|].
  destruct (get_character g cid) as [ch|];
    [|intros [= <-]; right; by left].
  intros Hmsg. right; right. split; [done|]. exists ch. split; [done|].
  revert Hmsg. case_bool_decide as Hloc; simpl; [|intros [= <-]; by left].
  destruct (Z.leb_spec (boat_capacity (state g))
              (Z.of_nat (length (boat_crew (state g)))));
    [intros [= <-]; right; by left|].
  case_bool_decide as Hin; [|discriminate].
  intros [= <-]. right; right. done.
Qed.

(** The state reached by a successful boarding. *)
Lemma add_to_boat_success g cid g1 msg :
  add_to_boat g cid = Return (g1, (true, msg)) →
  ∃ ch, get_character g cid = Some ch
    ∧ location ch = boat_side (state g)
    ∧ is_game_over (state g) = false
    ∧ (cid ∉ boat_crew (state g))
    ∧ (Z.of_nat (length (boat_crew (state g))) < boat_capacity (state g))%Z
    ∧ msg = MsgAdded cid
    ∧ g1 = mkGame
             (update_side_counts (boat_side (state g)) (type ch) (-1)
                (set_boat_crew (boat_crew (state g) ++ [cid]) (state g)))
             (characters g) (move_history g).
Proof.
  unfold add_to_boat.
  destruct (can_add_to_boat g cid) as [[|] m] eqn:Hcan; simpl;
    [|discriminate].
  apply can_add_true in Hcan as (Hover & (ch & Hch & Hloc) & Hcap & Hin).
  rewrite Hch. intros [= <- <-]. exists ch.
  repeat (split; [done|]).
  unfold move_character, set_state; simpl.
  rewrite <- Hloc.
  unfold get_character in Hch. by rewrite (set_location_same _ _ _ Hch).
Qed.

(** What a successful boarding leaves alone. *)
Lemma add_to_boat_frame g cid g1 msg :
  add_to_boat g cid = Return (g1, (true, msg)) →
  characters g1 = characters g
  ∧ boat_side (state g1) = boat_side (state g)
  ∧ boat_capacity (state g1) = boat_capacity (state g)
  ∧ is_game_over (state g1) = false
  ∧ boat_crew (state g1) = boat_crew (state g) ++ [cid].
Proof.
  intros H. apply add_to_boat_success in H
    as (ch & Hch & Hloc & Hover & Hin & Hcap & -> & ->).
  cbn [state characters]. rewrite <- Hover.
  by destruct (boat_side (state g)) eqn:Hs, (type ch).
Qed.

End Loading.

(** C10. Whenever [add_to_boat g cid] succeeds, the [remove_from_boat]
    that follows succeeds too and gives back the game exactly as it was
    before the boarding: bank counts, boat crew, boat side, the characters
    with their locations, move counter, terminal flags and move history. *)
Theorem add_then_remove_restores (g g1 : Game) (cid : string) (msg : Message)
    (Hadd : add_to_boat g cid = Return (g1, (true, msg))) :
  remove_from_boat g1 cid = Return (g, (true, MsgRemoved cid)).
Proof.
  apply add_to_boat_success in Hadd
    as (ch & Hch & Hloc & Hover & Hin & Hcap & -> & ->).
  unfold remove_from_boat, can_remove_from_boat.
  assert (Hflag : ∀ s t d st, is_game_over (update_side_counts s t d st)
                              = is_game_over st)
    by (by intros [] [] ? ?).
  assert (Hcrew : ∀ s t d st, boat_crew (update_side_counts s t d st)
                              = boat_crew st)
    by (by intros [] [] ? ?).
  assert (Hside : ∀ s t d st, boat_side (update_side_counts s t d st)
                              = boat_side st)
    by (by intros [] [] ? ?).
  cbn [state]. rewrite Hflag, Hcrew, Hside. cbn [set_boat_crew is_game_over boat_crew boat_side].
  rewrite Hover.
  rewrite bool_decide_eq_true_2 by (apply elem_of_app; right; by left).
  cbn [negb]. rewrite list_remove_snoc by done.
  unfold get_character in *. cbn [characters]. rewrite Hch.
  unfold move_character, set_state. cbn [characters state move_history].
  rewrite <- Hloc, (set_location_same _ _ _ Hch).
  do 2 f_equal. destruct g as [st chars hist]; cbn [state characters move_history] in *.
  f_equal. destruct st; cbn in Hloc; subst.
  destruct (location ch), (type ch);
    unfold update_side_counts, set_counts, set_boat_crew; cbn; f_equal; lia.
Qed.

Lemma add_then_remove_restores_witness :
  ∃ g1, add_to_boat (initialize_game 3 3 2) "M1" = Return (g1, (true, MsgAdded "M1"))
        ∧ remove_from_boat g1 "M1"
          = Return (initialize_game 3 3 2, (true, MsgRemoved "M1")).
Proof.
  eexists. split.
  - vm_compute. reflexivity.
  - eapply add_then_remove_restores. vm_compute. reflexivity.
Defined.

Lemma initial_characters_left (m c : Z) (ch : Character) :
  In ch (initial_characters m c) → location ch = LEFT.
Proof.
  unfold initial_characters. intros H.
  apply in_app_or in H as [H|H]; apply in_map_iff in H as (i & <- & _); done.
Qed.

Lemma add_to_boat_total (g : Game) (cid : string) :
  ∃ g' ok msg, add_to_boat g cid = Return (g', (ok, msg))
    ∧ (ok = false ↔ add_refused g cid)
    ∧ (ok = false → g' = g ∧ add_error g cid msg)
    ∧ (ok = true → msg = MsgAdded cid).
Proof.
  unfold add_to_boat.
  destruct (can_add_to_boat g cid) as [[|] m] eqn:Hcan; cbn [negb].
  - pose proof Hcan as Htrue.
    apply can_add_true in Htrue as (Hover & (ch & Hch & Hloc) & Hcap & Hin).
    rewrite Hch. eexists _, true, _. split; [reflexivity|].
    split; [|split; [discriminate|done]].
    split; [discriminate|].
    intros [H|[H|[(ch' & H & Hne)|[H|H]]]]; exfalso.
    + congruence.
    + congruence.
    + rewrite Hch in H. injection H as <-. done.
    + lia.
    + done.
  - exists g, false, m. split; [reflexivity|].
    apply can_add_false in Hcan.
    unfold add_refused, add_error.
    split; [|split; [|discriminate]].
    + split; [intros _|done].
      destruct Hcan as [[H _]|[(_ & H & _)|(_ & ch & H & Hc)]].
      * by left.
      * right; by left.
      * destruct Hc as [[Hc _]|[(_ & Hc & _)|(_ & _ & Hc & _)]].
        -- right; right; left. by exists ch.
        -- right; right; right; by left.
        -- right; right; right; by right.
    + intros _. split; [done|].
      destruct Hcan as [[_ ->]|[(_ & _ & ->)|(_ & ch & H & Hc)]].
      * by left.
      * right; by left.
      * destruct Hc as [[_ ->]|[(_ & _ & ->)|(_ & _ & _ & ->)]].
        -- right; right; left. by eexists.
        -- right; right; right; by left.
        -- right; right; right; by right.
Qed.

(** A full boat of capacity 2 turns away every character waiting on its
    bank; the capacity test comes before the already-aboard test. *)
Lemma full_boat_refuses (g : Game) (cid : string) (ch : Character) :
  is_game_over (state g) = false →
  get_character g cid = Some ch →
  location ch = boat_side (state g) →
  (boat_capacity (state g) ≤ Z.of_nat (length (boat_crew (state g))))%Z →
  add_to_boat g cid = Return (g, (false, MsgBoatFull (boat_capacity (state g)))).
Proof.
  intros Hover Hch Hloc Hcap. unfold add_to_boat, can_add_to_boat.
  rewrite Hover, Hch, Hloc, bool_decide_eq_true_2 by done. cbn [negb].
  destruct (Z.leb_spec (boat_capacity (state g))
              (Z.of_nat (length (boat_crew (state g))))); [done|lia].
Qed.

(** C5. [add_to_boat] always returns; it fails exactly on one of the five
    grounds of [add_refused] (game over, unknown id, character on the other
    bank, boat at capacity, already aboard), with the matching message, and
    a failure leaves the whole game (state, characters, history) as it was.
    Safety plays no part: boarding "M1" in the (2,3,2) game succeeds although
    it leaves the left bank unsafe.  With capacity 2 and two characters
    aboard, a third boarding of any character of the game is refused with
    the capacity message and the crew keeps its two members. *)
Theorem add_to_boat_failure :
  (∀ (g : Game) (cid : string),
     ∃ g' ok msg, add_to_boat g cid = Return (g', (ok, msg))
       ∧ (ok = false ↔ add_refused g cid)
       ∧ (ok = false → g' = g ∧ add_error g cid msg))
  ∧ (∃ g', add_to_boat (initialize_game 2 3 2) "M1"
           = Return (g', (true, MsgAdded "M1"))
           ∧ is_current_state_safe g' = false)
  ∧ (∀ (m c : Z) (id1 id2 id3 : string) (g1 g2 : Game) (msg1 msg2 : Message),
       add_to_boat (initialize_game m c 2) id1 = Return (g1, (true, msg1)) →
       add_to_boat g1 id2 = Return (g2, (true, msg2)) →
       is_Some (get_character g2 id3) →
       add_to_boat g2 id3 = Return (g2, (false, MsgBoatFull 2))
       ∧ boat_crew (state g2) = [id1; id2]).
Proof.
  split; [|split].
  - intros g cid.
    destruct (add_to_boat_total g cid) as (g' & ok & msg & H1 & H2 & H3 & _).
    eauto 10.
  - eexists. split; vm_compute; reflexivity.
  - intros m c id1 id2 id3 g1 g2 msg1 msg2 H1 H2 [ch Hch].
    apply add_to_boat_frame in H1 as (C1 & S1 & K1 & O1 & W1).
    apply add_to_boat_frame in H2 as (C2 & S2 & K2 & O2 & W2).
    cbn in C1, S1, K1, W1.
    assert (Hcrew : boat_crew (state g2) = [id1; id2]) by (by rewrite W2, W1).
    split; [|exact Hcrew].
    assert (Hcap : boat_capacity (state g2) = 2%Z) by (by rewrite K2, K1).
    rewrite <- Hcap at 1.
    apply (full_boat_refuses g2 id3 ch); [done|done| |].
    + unfold get_character in Hch. apply find_some in Hch as [Hin _].
      rewrite C2, C1 in Hin.
      apply initial_characters_left in Hin. by rewrite Hin, S2, S1.
    + rewrite Hcap, Hcrew. simpl. lia.
Qed.

Lemma add_to_boat_failure_witness :
  add_to_boat (initialize_game 3 3 2) "M9" =
    Return (initialize_game 3 3 2, (false, MsgNotFound "M9"))
  ∧ ∃ g2, add_to_boat g2 "C4" = Return (g2, (false, MsgBoatFull 2))
          ∧ boat_crew (state g2) = ["M1"; "M2"].
Proof.
  destruct add_to_boat_failure as (_ & _ & H).
  split; [vm_compute; reflexivity|].
  eexists.
  eapply (H 3%Z 3%Z "M1" "M2" "C4").
  - vm_compute. reflexivity.
  - vm_compute. reflexivity.
  - vm_compute. eexists. reflexivity.
Defined.

(** ** Crossing *)

Section Crossing.

Implicit Types (g : Game) (cid : string) (crew : list string).

Lemma same_frame_refl g : same_frame g g.
Proof. by repeat split. Qed.

Lemma same_frame_trans g1 g2 g3 :
  same_frame g1 g2 → same_frame g2 g3 → same_frame g1 g3.
Proof.
  unfold same_frame.
  intros (A1 & A2 & A3 & A4 & A5 & A6 & A7 & A8 & A9)
         (B1 & B2 & B3 & B4 & B5 & B6 & B7 & B8 & B9).
  repeat split; first [congruence | intros c; by rewrite B9].
Qed.

(** One turn of the passenger loop. *)
Lemma land_one_frame g cid side ty :
  same_frame g
    (set_state (update_side_counts side ty 1
                  (state (move_character cid side g)))
               (move_character cid side g))
  ∧ boat_crew (update_side_counts side ty 1 (state g)) = boat_crew (state g).
Proof.
  split; [|by destruct side, ty].
  unfold same_frame, set_state, move_character; cbn [state characters move_history].
  repeat split; try by destruct side, ty.
  intros c. apply type_of_set_location.
Qed.

(** The passenger loop leaves flags, crew, capacity, totals, counter,
    history and the characters' types alone. *)
Lemma land_passengers_frame side crew g g2 :
  land_passengers side crew g = Return g2 →
  same_frame g g2 ∧ boat_crew (state g2) = boat_crew (state g).
Proof.
  revert g. induction crew as [|cid rest IH]; intros g; simpl.
  - intros [= <-]. split; [apply same_frame_refl|done].
  - destruct (get_character g cid) as [ch|]; [|discriminate].
    intros H. apply IH in H as [Hf Hc].
    destruct (land_one_frame g cid side (type ch)) as [Hf1 Hc1].
    split; [by eapply same_frame_trans|].
    rewrite Hc. exact Hc1.
Qed.

(** A successful crossing, step by step. *)
Lemma travel_success g g' msg :
  travel g = Return (g', (true, msg)) →
  is_game_over (state g) = false
  ∧ boat_crew (state g) ≠ []
  ∧ ∃ g2,
      land_passengers
        (match boat_side (state g) with LEFT => RIGHT | RIGHT => LEFT end)
        (boat_crew (state g))
        (set_state (set_boat_side
           (match boat_side (state g) with LEFT => RIGHT | RIGHT => LEFT end)
           (state g)) g) = Return g2
      ∧ ∃ hist,
          g' = _check_game_status
                 (mkGame (set_move_count (move_count (state g2) + 1)
                            (set_boat_crew [] (state g2)))
                         (characters g2) hist).
Proof.
  unfold travel, can_travel.
  destruct (is_game_over (state g)); [discriminate|].
  destruct (boat_crew (state g)) as [|c0 crew0] eqn:Hcrew; [discriminate|].
  rewrite <- Hcrew.
  destruct (Z.eqb_spec (Z.of_nat (length (boat_crew (state g)))) 0);
    [discriminate|].
  destruct (Z.ltb_spec (boat_capacity (state g))
              (Z.of_nat (length (boat_crew (state g))))); [discriminate|].
  cbn [negb]. cbn [set_state state set_boat_side boat_crew].
  match goal with |- context [land_passengers ?s ?c ?g0] =>
    destruct (land_passengers s c g0) as [g2|e] eqn:Hland end;
    [|discriminate].
  cbn. intros [= <- <-].
  split; [done|]. split; [by rewrite Hcrew|].
  exists g2. split; [done|]. eexists. reflexivity.
Qed.

Lemma travel_failure g g' msg :
  travel g = Return (g', (false, msg)) → g' = g.
Proof.
  unfold travel. destruct (can_travel g) as [[|] m]; cbn [negb].
  - destruct (land_passengers _ _ _); [|discriminate]. cbn. discriminate.
  - by intros [= <-].
Qed.

(** The three outcomes of [_check_game_status] on a game still running. *)
Lemma check_game_status_cases g :
  is_game_over (state g) = false →
  let g' := _check_game_status g in
  is_current_state_safe g' = is_current_state_safe g
  ∧ missionaries_left (state g') = missionaries_left (state g)
  ∧ cannibals_left (state g') = cannibals_left (state g)
  ∧ boat_crew (state g') = boat_crew (state g)
  ∧ (is_current_state_safe g = false →
     is_game_over (state g') = true ∧ is_won (state g') = false)
  ∧ (is_current_state_safe g = true →
     missionaries_left (state g) = 0%Z → cannibals_left (state g) = 0%Z →
     boat_crew (state g) = [] →
     is_game_over (state g') = true ∧ is_won (state g') = true)
  ∧ (is_current_state_safe g = true →
     ¬ (missionaries_left (state g) = 0%Z ∧ cannibals_left (state g) = 0%Z
        ∧ boat_crew (state g) = []) →
     is_game_over (state g') = false).
Proof.
  intros Hover g'. subst g'. unfold _check_game_status.
  assert (Hs : ∀ a b, is_current_state_safe
                        (set_state (set_flags a b (state g)) g)
                      = is_current_state_safe g) by reflexivity.
  destruct (is_current_state_safe g) eqn:Hsafe; cbn [negb].
  - destruct (Z.eqb_spec (missionaries_left (state g)) 0) as [Hm|Hm],
             (Z.eqb_spec (cannibals_left (state g)) 0) as [Hc|Hc],
             (boat_crew (state g)) as [|x l] eqn:Hb;
      cbn [andb length Z.of_nat Z.eqb];
      rewrite ?Hs, ?Hsafe; cbn [state set_state set_flags missionaries_left
        cannibals_left boat_crew is_game_over is_won];
      rewrite ?Hb; repeat split; try done; try tauto; try (intros; tauto).
  - rewrite Hs. cbn. repeat split; done.
Qed.

End Crossing.

(** C2. Every successful [travel] ends with the terminal evaluation: an
    unsafe resulting state is Lost (game over, not won), even when the left
    bank is empty; a safe one with both left-bank counts zero and an empty
    boat is Won; any other stays Active.  Nothing else raises the flags:
    boarding, unloading and a refused crossing keep them, and
    [initialize_game] and [restart_game] start with both flags down. *)
Theorem terminal_evaluation :
  (∀ (g g' : Game) (msg : Message),
     travel g = Return (g', (true, msg)) →
     (is_current_state_safe g' = false →
      is_game_over (state g') = true ∧ is_won (state g') = false)
     ∧ (is_current_state_safe g' = true →
        missionaries_left (state g') = 0%Z →
        cannibals_left (state g') = 0%Z →
        boat_crew (state g') = [] →
        is_game_over (state g') = true ∧ is_won (state g') = true)
     ∧ (is_current_state_safe g' = true →
        ¬ (missionaries_left (state g') = 0%Z
           ∧ cannibals_left (state g') = 0%Z
           ∧ boat_crew (state g') = []) →
        is_game_over (state g') = false))
  ∧ (∀ (g g' : Game) (cid : string) (r : bool * Message),
       add_to_boat g cid = Return (g', r) ∨ remove_from_boat g cid = Return (g', r) →
       is_game_over (state g') = is_game_over (state g)
       ∧ is_won (state g') = is_won (state g))
  ∧ (∀ (g g' : Game) (msg : Message),
       travel g = Return (g', (false, msg)) → g' = g)
  ∧ (∀ (m c k : Z) (g : Game),
       is_game_over (state (initialize_game m c k)) = false
       ∧ is_won (state (initialize_game m c k)) = false
       ∧ is_game_over (state (restart_game g)) = false
       ∧ is_won (state (restart_game g)) = false).
Proof.
  split; [|split; [|split]].
  - intros g g' msg Htravel.
    apply travel_success in Htravel as (Hover & _ & g2 & Hland & hist & ->).
    apply land_passengers_frame in Hland as [(Hov2 & _) _].
    cbn [state set_state set_boat_side is_game_over] in Hov2.
    match goal with |- context [_check_game_status ?g0] =>
      pose proof (check_game_status_cases g0) as Hcases end.
    cbn zeta in Hcases. cbn [state is_game_over set_move_count set_boat_crew] in Hcases.
    rewrite Hov2 in Hcases.
    destruct (Hcases Hover) as (Es & Em & Ec & Eb & Hlost & Hwon & Hact).
    rewrite Es, Em, Ec, Eb. auto.
  - intros g g' cid r [H|H].
    + destruct r as [[|] msg].
      * apply add_to_boat_success in H as (ch & _ & _ & _ & _ & _ & _ & ->).
        by destruct (boat_side (state g)), (type ch).
      * destruct (add_to_boat_total g cid) as (g0 & ok & m0 & E & _ & Hs & _).
        rewrite E in H. injection H as <- -> _. by destruct (Hs eq_refl) as [-> _].
    + revert H. unfold remove_from_boat.
      destruct (can_remove_from_boat g cid) as [[|] m0]; cbn [negb];
        [|by intros [= <- <-]].
      destruct (list_remove cid (boat_crew (state g))); [|discriminate].
      destruct (get_character g cid) as [ch|]; [|discriminate].
      intros [= <- <-]. by destruct (boat_side (state g)), (type ch).
  - apply travel_failure.
  - done.
Qed.

Lemma terminal_evaluation_witness :
  ∃ g g',
    travel g = Return (g', (true, MsgTraveled RIGHT))
    ∧ missionaries_left (state g') = 0%Z
    ∧ cannibals_left (state g') = 0%Z
    ∧ is_game_over (state g') = true ∧ is_won (state g') = false.
Proof.
  destruct terminal_evaluation as (H & _).
  set (g := mkGame (mkGameState 0 0 0 0 LEFT ["M1"; "C2"; "C3"] 3 1 2 0 false false)
              (initial_characters 1 2) []).
  destruct (H g _ _ ltac:(vm_compute; reflexivity)) as (Hlost & _).
  eexists g, _. split; [vm_compute; reflexivity|].
  split; [reflexivity|]. split; [reflexivity|].
  apply Hlost. vm_compute. reflexivity.
Defined.

(** ** Conservation *)

Section Conservation.

Implicit Types (g : Game) (cid : string) (crew : list string)
  (chars : list Character) (ty : CharacterType).

Lemma crew_count_eq ty g :
  crew_count ty g = count_type (characters g) ty (boat_crew (state g)).
Proof. reflexivity. Qed.

Lemma count_type_nil chars ty : count_type chars ty [] = 0%Z.
Proof. reflexivity. Qed.

Lemma count_type_cons chars ty cid crew :
  count_type chars ty (cid :: crew)
  = (one_if chars ty cid + count_type chars ty crew)%Z.
Proof.
  unfold count_type, one_if. rewrite filter_cons.
  destruct (decide (type_of chars cid = Some ty)); simpl; lia.
Qed.

Lemma count_type_snoc chars ty crew cid :
  count_type chars ty (crew ++ [cid])
  = (count_type chars ty crew + one_if chars ty cid)%Z.
Proof.
  induction crew as [|x rest IH]; simpl.
  - rewrite count_type_cons, !count_type_nil. lia.
  - rewrite !count_type_cons, IH. lia.
Qed.

Lemma count_type_remove chars ty crew crew' cid :
  list_remove cid crew = Some crew' →
  count_type chars ty crew
  = (count_type chars ty crew' + one_if chars ty cid)%Z.
Proof.
  revert crew'. induction crew as [|x rest IH]; intros crew'; simpl;
    [discriminate|].
  case_bool_decide as Hx.
  - intros [= <-]. subst x. rewrite count_type_cons. lia.
  - destruct (list_remove cid rest) as [r|]; [|discriminate].
    intros [= <-]. rewrite !count_type_cons, (IH r eq_refl). lia.
Qed.

Lemma count_type_ext chars chars' ty crew :
  (∀ cid, type_of chars' cid = type_of chars cid) →
  count_type chars' ty crew = count_type chars ty crew.
Proof.
  intros Hext. induction crew as [|x rest IH]; [done|].
  rewrite !count_type_cons, IH. unfold one_if. by rewrite Hext.
Qed.

Lemma one_if_types chars cid ty0 :
  type_of chars cid = Some ty0 →
  one_if chars MISSIONARY cid
  = (match ty0 with MISSIONARY => 1 | CANNIBAL => 0 end)%Z
  ∧ one_if chars CANNIBAL cid
    = (match ty0 with MISSIONARY => 0 | CANNIBAL => 1 end)%Z.
Proof.
  intros H. unfold one_if. rewrite H.
  destruct ty0; split; by repeat case_decide.
Qed.

Lemma list_remove_subset crew crew' cid x :
  list_remove cid crew = Some crew' → x ∈ crew' → x ∈ crew.
Proof.
  revert crew'. induction crew as [|y rest IH]; intros crew'; simpl;
    [discriminate|].
  case_bool_decide.
  - intros [= <-] ?. by right.
  - destruct (list_remove cid rest) as [r|]; [|discriminate].
    intros [= <-] [->|Hin]%elem_of_cons; [by left|].
    right. by eapply IH.
Qed.

(** The passenger loop returns when every passenger is known, and adds the
    passengers of each type to the bank totals. *)
Lemma land_passengers_counts side crew g :
  (∀ cid, cid ∈ crew → is_Some (type_of (characters g) cid)) →
  ∃ g2, land_passengers side crew g = Return g2
    ∧ (missionaries_left (state g2) + missionaries_right (state g2)
       = missionaries_left (state g) + missionaries_right (state g)
         + count_type (characters g) MISSIONARY crew)%Z
    ∧ (cannibals_left (state g2) + cannibals_right (state g2)
       = cannibals_left (state g) + cannibals_right (state g)
         + count_type (characters g) CANNIBAL crew)%Z.
Proof.
  revert g. induction crew as [|cid rest IH]; intros g Hknown; simpl.
  - exists g. rewrite !count_type_nil. split; [done|]. lia.
  - destruct (Hknown cid) as [ty0 Hty]; [by left|].
    pose proof Hty as Hty'. unfold type_of in Hty'. unfold get_character.
    destruct (find _ (characters g)) as [ch|] eqn:Hfind; [|discriminate].
    injection Hty' as Hty'.
    match goal with |- context [land_passengers side rest ?g0] =>
      set (g1 := g0) end.
    assert (Hext : ∀ c, type_of (characters g1) c = type_of (characters g) c)
      by (intros c; apply type_of_set_location).
    destruct (IH g1) as (g2 & Hland & Hm & Hc).
    { intros c Hin. rewrite Hext. apply Hknown. by right. }
    exists g2. split; [done|].
    rewrite Hm, Hc, !(count_type_ext _ _ _ _ Hext), !count_type_cons.
    destruct (one_if_types _ _ _ Hty) as [-> ->].
    subst g1. rewrite Hty'.
    destruct side, ty0; cbn; lia.
Qed.

(** Each call returns and keeps the conservation law. *)
Lemma step_conserved (m c : Z) g (op : Op) :
  conserved m c g → crew_known g →
  ∃ g', step g op = Return g' ∧ conserved m c g' ∧ crew_known g'.
Proof.
  intros [Hm Hc] Hknown. destruct op as [cid|cid|]; cbn [step].
  - (* add_to_boat *)
    destruct (add_to_boat_total g cid) as (g' & [|] & msg & E & _ & Hfail & _).
    + rewrite E. exists g'. split; [done|].
      apply add_to_boat_success in E
        as (ch & Hch & _ & _ & _ & _ & _ & ->).
      assert (Hty : type_of (characters g) cid = Some (type ch))
        by (unfold type_of; unfold get_character in Hch; by rewrite Hch).
      assert (Hcrew : ∀ s t d st, boat_crew (update_side_counts s t d st)
                                  = boat_crew st) by (by intros [] [] ? ?).
      split.
      * unfold conserved in *. rewrite !crew_count_eq in *.
        cbn [state characters]. rewrite Hcrew. cbn [set_boat_crew boat_crew].
        rewrite !count_type_snoc.
        destruct (one_if_types _ _ _ Hty) as [-> ->].
        destruct (boat_side (state g)), (type ch); cbn; lia.
      * intros x. cbn [state characters]. rewrite Hcrew.
        cbn [set_boat_crew boat_crew].
        intros [Hin|Hx]%elem_of_app; [by apply Hknown|].
        apply list_elem_of_singleton in Hx as ->. by rewrite Hty.
    + rewrite E. destruct (Hfail eq_refl) as [-> _]. by exists g.
  - (* remove_from_boat *)
    unfold remove_from_boat, can_remove_from_boat.
    destruct (is_game_over (state g)); [by exists g|].
    case_bool_decide as Hin; cbn [negb]; [|by exists g].
    destruct (list_remove_elem _ _ Hin) as [crew' Hrem]. rewrite Hrem.
    destruct (Hknown cid Hin) as [ty0 Hty].
    pose proof Hty as Hty'. unfold type_of in Hty'. unfold get_character.
    destruct (find _ (characters g)) as [ch|] eqn:Hfind; [|discriminate].
    injection Hty' as Hty'. cbn [mbind result_bind fst].
    eexists. split; [reflexivity|].
    assert (Hcrew : ∀ s t d st, boat_crew (update_side_counts s t d st)
                                = boat_crew st) by (by intros [] [] ? ?).
    assert (Hext : ∀ x s, type_of (set_location cid s (characters g)) x
                          = type_of (characters g) x)
      by (intros; apply type_of_set_location).
    split.
    * unfold conserved in *. rewrite !crew_count_eq in *.
      rewrite (count_type_remove _ MISSIONARY _ _ _ Hrem) in Hm.
      rewrite (count_type_remove _ CANNIBAL _ _ _ Hrem) in Hc.
      destruct (one_if_types _ _ _ Hty) as [Em Ec]. rewrite Em in Hm.
      rewrite Ec in Hc.
      cbn [state characters set_state move_character]. rewrite Hcrew.
      cbn [set_boat_crew boat_crew].
      rewrite !(count_type_ext _ _ _ _ (λ x, Hext x _)), Hty'.
      destruct (boat_side (state g)), ty0; cbn; lia.
    * intros x. cbn [state characters set_state move_character].
      rewrite Hcrew. cbn [set_boat_crew boat_crew]. intros Hx.
      rewrite Hext. apply Hknown. by eapply list_remove_subset.
  - (* travel *)
    unfold travel, can_travel.
    destruct (is_game_over (state g)); [by exists g|].
    destruct (Z.eqb_spec (Z.of_nat (length (boat_crew (state g)))) 0);
      [by exists g|].
    destruct (Z.ltb_spec (boat_capacity (state g))
                (Z.of_nat (length (boat_crew (state g))))); [by exists g|].
    cbn [negb]. cbn [set_state state set_boat_side boat_crew].
    match goal with |- context [land_passengers ?s ?l ?g0] =>
      destruct (land_passengers_counts s l g0) as (g2 & Hland & Em & Ec);
      [exact Hknown|rewrite Hland] end.
    cbn [mbind result_bind fst]. eexists. split; [reflexivity|].
    cbn [state characters set_state set_boat_side missionaries_left
         missionaries_right cannibals_left cannibals_right] in Em, Ec.
    assert (Hchk : ∀ g0, conserved m c g0 → crew_known g0 →
              conserved m c (_check_game_status g0)
              ∧ crew_known (_check_game_status g0)).
    { intros g0 H0 K0. unfold _check_game_status.
      destruct (negb _); [done|]. by destruct (_ && _). }
    apply Hchk.
    * unfold conserved in *. rewrite !crew_count_eq in *.
      cbn [state characters set_move_count set_boat_crew missionaries_left
           missionaries_right cannibals_left cannibals_right boat_crew].
      rewrite !count_type_nil. split; lia.
    * intros x Hx. cbn in Hx. by apply elem_of_nil in Hx.
Qed.

Lemma initialize_game_conserved (m c k : Z) :
  conserved m c (initialize_game m c k) ∧ crew_known (initialize_game m c k).
Proof.
  split.
  - unfold conserved, crew_count. cbn. split; lia.
  - intros x Hx. cbn in Hx. by apply elem_of_nil in Hx.
Qed.

Lemma trace_conserved (m c : Z) g (ops : list Op) :
  conserved m c g → crew_known g →
  ∃ tr, trace g ops = Return tr
    ∧ length tr = S (length ops)
    ∧ Forall (conserved m c) tr.
Proof.
  revert g. induction ops as [|op rest IH]; intros g Hc Hk; cbn [trace].
  - exists [g]. split; [done|]. split; [done|]. by constructor.
  - destruct (step_conserved m c g op Hc Hk) as (g' & -> & Hc' & Hk').
    cbn [mbind result_bind].
    destruct (IH g' Hc' Hk') as (tr & -> & Hlen & Hall).
    exists (g :: tr). split; [done|]. split; [cbn; by rewrite Hlen|].
    by constructor.
Qed.

End Conservation.

(** C1. Starting from [initialize_game m c k], any finite sequence of
    [add_to_boat], [remove_from_boat] and [travel] calls runs without an
    exception, and in every state it passes through (terminal ones
    included) the missionaries on the two banks plus the missionary ids in
    the boat crew number [m], and likewise the cannibals number [c]. *)
Theorem conservation (m c k : Z) (ops : list Op) :
  ∃ tr, trace (initialize_game m c k) ops = Return tr
    ∧ length tr = S (length ops)
    ∧ Forall (conserved m c) tr.
Proof.
  destruct (initialize_game_conserved m c k) as [Hc Hk].
  by apply trace_conserved.
Qed.

(** The classical eleven crossings of the (3, 3, 2) game end in a win:
    both left-bank counts are zero, the boat is empty, eleven moves are
    recorded. *)
Example classical_solution_wins :
  let ops :=
    [AddToBoat "C4"; AddToBoat "C5"; Travel;
     AddToBoat "C4"; Travel;
     AddToBoat "C4"; AddToBoat "C6"; Travel;
     AddToBoat "C4"; Travel;
     AddToBoat "M1"; AddToBoat "M2"; Travel;
     AddToBoat "M1"; AddToBoat "C5"; Travel;
     AddToBoat "M1"; AddToBoat "M3"; Travel;
     AddToBoat "C6"; Travel;
     AddToBoat "C4"; AddToBoat "C5"; Travel;
     AddToBoat "C4"; Travel;
     AddToBoat "C4"; AddToBoat "C6"; Travel] in
  ∃ tr g, trace (initialize_game 3 3 2) ops = Return tr
    ∧ last tr = Some g
    ∧ state g = mkGameState 0 0 3 3 RIGHT [] 2 3 3 11 true true
    ∧ length (move_history g) = 11
    ∧ Forall (λ g', is_game_over (state g') = false) (removelast tr).
Proof.
  eexists _, _. split; [vm_compute; reflexivity|].
  split; [reflexivity|]. split; [reflexivity|]. split; [reflexivity|].
  repeat constructor.
Qed.

(** * Properties of the cryptarithmetic engine *)

Section Validator.

Implicit Types (a : Assignment) (words : list string)
  (letters : list ascii) (c : ascii).

Lemma size_list_to_set_le (l : list Z) :
  size (list_to_set l : gset Z) ≤ length l.
Proof.
  induction l as [|x l IH].
  - change (size (∅ : gset Z) ≤ 0). by rewrite size_empty.
  - rewrite list_to_set_cons, size_union_alt, size_singleton.
    assert (Hsub : list_to_set l ∖ {[x]} ⊆ (list_to_set l : gset Z))
      by (intros y [? _]%elem_of_difference; done).
    pose proof (subseteq_size _ _ Hsub).
    cbn [length]. lia.
Qed.

(** Rule 2 compares [len(set(digits))] with [len(digits)]: they agree
    exactly when no digit occurs twice. *)
Lemma size_list_to_set_NoDup (l : list Z) :
  size (list_to_set l : gset Z) = length l ↔ NoDup l.
Proof.
  split; [|apply size_list_to_set].
  induction l as [|x l IH]; intros Hsize; [constructor|].
  rewrite list_to_set_cons in Hsize. cbn [length] in Hsize.
  destruct (decide (x ∈ l)) as [Hin|Hin].
  - exfalso.
    assert (E : ({[x]} ∪ list_to_set l : gset Z) = list_to_set l).
    { apply subseteq_union_1_L, singleton_subseteq_l.
      by apply elem_of_list_to_set. }
    rewrite E in Hsize. pose proof (size_list_to_set_le l). lia.
  - rewrite size_union, size_singleton in Hsize by set_solver.
    constructor; [done|]. apply IH. lia.
Qed.

Lemma distinct_digits_NoDup a :
  distinct_digits a ↔ NoDup (map_to_list a).*2.
Proof.
  split.
  - intros Hd. apply NoDup_fmap_2_strong; [|apply NoDup_map_to_list].
    intros [l1 d1] [l2 d2] H1%elem_of_map_to_list H2%elem_of_map_to_list.
    simpl. intros <-. f_equal. by eapply Hd.
  - intros Hnd l1 l2 d H1 H2.
    apply elem_of_map_to_list in H1, H2.
    pose proof (NoDup_map_to_list a) as Hl.
    revert H1 H2 Hnd Hl. generalize (map_to_list a) as l.
    induction l as [|[k v] l IH]; [by intros ?%elem_of_nil|].
    rewrite fmap_cons, !NoDup_cons, !elem_of_cons. simpl.
    intros [E1|H1] [E2|H2] [Hv Hnd] [Hk Hl].
    + congruence.
    + injection E1 as <- <-. exfalso. apply Hv.
      by apply (list_elem_of_fmap_2 snd l (l2, d)).
    + injection E2 as <- <-. exfalso. apply Hv.
      by apply (list_elem_of_fmap_2 snd l (l1, d)).
    + by apply IH.
Qed.

(** Rule 2 passes exactly on assignments with pairwise distinct digits. *)
Lemma rule2_passes a :
  bool_decide (size (list_to_set (map_to_list a).*2 : gset Z)
               ≠ length (map_to_list a).*2) = false
  ↔ distinct_digits a.
Proof.
  rewrite distinct_digits_NoDup, <- size_list_to_set_NoDup.
  rewrite bool_decide_eq_false. split; [apply dec_stable|auto].
Qed.

(** Rule 3 names the first word whose leading letter is given 0. *)
Lemma find_leading_zero_Some words a c :
  find_leading_zero words a = Some c →
  a !! c = Some 0%Z ∧ ∃ rest, String c rest ∈ words.
Proof.
  induction words as [|[|c0 r] ws IH]; simpl; [done| |].
  - intros H. destruct (IH H) as (? & rest & ?).
    split; [done|]. exists rest. by right.
  - case_bool_decide as Hz.
    + intros [= <-]. split; [done|]. exists r. by left.
    + intros H. destruct (IH H) as (? & rest & ?).
      split; [done|]. exists rest. by right.
Qed.

Lemma find_leading_zero_None words a :
  find_leading_zero words a = None ↔ leading_nonzero words a.
Proof.
  unfold leading_nonzero. induction words as [|[|c0 r] ws IH]; simpl.
  - split; [intros _ c rest ?%elem_of_nil|]; done.
  - rewrite IH. split; intros H c rest.
    + intros [?|?]%elem_of_cons; [done|]. by eapply H.
    + intros ?. eapply H. by right.
  - case_bool_decide as Hz.
    + split; [done|]. intros H. exfalso. apply (H c0 r); [by left|done].
    + rewrite IH. split; intros H c rest.
      * intros [[= -> ->]|?]%elem_of_cons; [done|]. by eapply H.
      * intros ?. eapply H. by right.
Qed.

Lemma find_leading_zero_hit words a c rest :
  String c rest ∈ words → a !! c = Some 0%Z →
  is_Some (find_leading_zero words a).
Proof.
  intros Hin Hz.
  destruct (find_leading_zero words a) eqn:E; [by eexists|].
  apply find_leading_zero_None in E. by destruct (E c rest Hin).
Qed.

(** Rule 1 reports the missing letters whenever the two lengths differ
    and a letter is missing. *)
Lemma check_all_assigned_missing letters a :
  size a ≠ length letters →
  (∃ l, l ∈ letters ∧ a !! l = None) →
  check_all_assigned letters a
  = Some (MissingAssignments (list_to_set letters ∖ dom a)).
Proof.
  intros Hsize (l & Hin & Hl). unfold check_all_assigned.
  rewrite bool_decide_eq_true_2 by done.
  rewrite bool_decide_eq_true_2; [done|].
  apply not_elem_of_dom in Hl. set_solver.
Qed.

(** When every key of the assignment is one of the puzzle's letters, a
    missing letter makes the two lengths differ. *)
Lemma missing_letter_sizes letters a :
  dom a ⊆ list_to_set letters →
  (∃ l, l ∈ letters ∧ a !! l = None) →
  size a ≠ length letters.
Proof.
  intros Hsub (l & Hin & Hl) Hsize.
  apply not_elem_of_dom in Hl.
  assert (Hlt : size (dom a) < size (list_to_set letters : gset ascii)).
  { apply subset_size. split; [done|]. intros H. apply Hl, H.
    by apply elem_of_list_to_set. }
  rewrite size_dom in Hlt.
  assert (size (list_to_set letters : gset ascii) ≤ length letters).
  { clear. induction letters as [|x l IH].
    - change (size (∅ : gset ascii) ≤ 0). by rewrite size_empty.
    - rewrite list_to_set_cons, size_union_alt, size_singleton.
      assert (Hsub : list_to_set l ∖ {[x]} ⊆ (list_to_set l : gset ascii))
        by (intros y [? _]%elem_of_difference; done).
      pose proof (subseteq_size _ _ Hsub).
      cbn [length]. lia. }
  lia.
Qed.

End Validator.

(** Completeness is reported first whenever the number of entries differs
    from the number of letters, in particular for every assignment whose
    keys are all letters of the puzzle. *)
Lemma missing_reported_first (s : Solver) (words : list string)
    (letters : list ascii) (a : Assignment) :
  dom a ⊆ list_to_set letters →
  (∃ l, l ∈ letters ∧ a !! l = None) →
  snd (validate_cryptarithmetic s words letters a)
  = (false, MissingAssignments (list_to_set letters ∖ dom a)).
Proof.
  intros Hsub Hmiss. unfold validate_cryptarithmetic, validate_input. simpl.
  rewrite check_all_assigned_missing; [done| |done].
  by apply missing_letter_sizes.
Qed.

(** C6, at the input where the code departs from it.  For the puzzle
    A + B = AB with letters A, B, the assignment A=1, Z=1 leaves B without
    a digit, yet it has as many entries as there are letters: the guard
    [len(guess_map) != len(letters)] skips the completeness check and the
    validator answers with the duplicate-digit failure of rule 2. *)
Theorem missing_letter_unreported :
  let a : Assignment := {[ "A"%char := 1%Z; "Z"%char := 1%Z ]} in
  a !! "B"%char = None
  ∧ check_all_assigned ["A"; "B"]%char a = None
  ∧ snd (validate_cryptarithmetic new_solver ["A"; "B"; "AB"]%string
           ["A"; "B"]%char a)
    = (false, DuplicateDigits {[ 1%Z := {[ "A"%char; "Z"%char ]} ]}).
Proof. vm_compute. repeat split; reflexivity. Qed.

(** C7 as stated fails: for SEND + MORE = MONEY the assignment that only
    maps the leading letter M to 0 is answered with the missing-letters
    failure of rule 1, not with the leading-zero failure. *)
Lemma leading_zero_not_always_reported :
  let a : Assignment := {[ "M"%char := 0%Z ]} in
  a !! "M"%char = Some 0%Z
  ∧ snd (validate_cryptarithmetic new_solver ["SEND"; "MORE"; "MONEY"]%string
           ["S"; "E"; "N"; "D"; "M"; "O"; "R"; "Y"]%char a)
    = (false, MissingAssignments
                (list_to_set ["S"; "E"; "N"; "D"; "O"; "R"; "Y"]%char))
  ∧ snd (validate_cryptarithmetic new_solver ["SEND"; "MORE"; "MONEY"]%string
           ["S"; "E"; "N"; "D"; "M"; "O"; "R"; "Y"]%char a)
    ≠ (false, LeadingZero "M"%char).
Proof. vm_compute. repeat split; try reflexivity. discriminate. Qed.

(** C7, amended.  For an assignment that passes the completeness check
    (rule 1) and whose digits are pairwise distinct (rule 2), if the first
    letter of some word maps to 0 the validator returns the leading-zero
    failure for that letter, whatever the arithmetic. *)
Theorem leading_zero_rejected (s : Solver) (words : list string)
    (letters : list ascii) (a : Assignment) (c : ascii) (rest : string)
    (Hrule1 : check_all_assigned letters a = None)
    (Hrule2 : distinct_digits a)
    (Hword : String c rest ∈ words)
    (Hzero : a !! c = Some 0%Z) :
  snd (validate_cryptarithmetic s words letters a) = (false, LeadingZero c).
Proof.
  unfold validate_cryptarithmetic, validate_input. simpl.
  rewrite Hrule1. apply rule2_passes in Hrule2. rewrite Hrule2.
  destruct (find_leading_zero_hit words a c rest Hword Hzero) as [c' Hc'].
  rewrite Hc'. apply find_leading_zero_Some in Hc' as [Hz' _].
  apply rule2_passes in Hrule2. by rewrite (Hrule2 c c' 0%Z Hzero Hz').
Qed.

Lemma leading_zero_rejected_witness :
  let a : Assignment :=
    {[ "A"%char := 0%Z; "B"%char := 1%Z; "C"%char := 2%Z; "D"%char := 3%Z ]} in
  _verify_mathematics ["AB"; "C"; "D"]%string a = (true, Correct 1 2 3)
  ∧ snd (validate_cryptarithmetic new_solver ["AB"; "C"; "D"]%string
           ["A"; "B"; "C"; "D"]%char a)
    = (false, LeadingZero "A"%char).
Proof.
  split; [vm_compute; reflexivity|].
  apply (leading_zero_rejected _ _ _ _ "A"%char "B"%string).
  - vm_compute. reflexivity.
  - apply rule2_passes. vm_compute. reflexivity.
  - by left.
  - vm_compute. reflexivity.
Defined.

(** ** The backtracking search *)

Section Search.

Variable words : list string.
Variable leading : gset ascii.

Implicit Types (a b : Assignment) (u : gset Z) (rest : list ascii).

Local Abbreviation verify b := (fst (_verify_mathematics words b)).

(** One turn of the digit loop. *)
Lemma try_digits_cons letter recurse d ds a u :
  try_digits letter leading recurse (d :: ds) a u
  = if bool_decide (d ∈ u) then try_digits letter leading recurse ds a u
    else if bool_decide (letter ∈ leading) && bool_decide (d = 0%Z)
    then try_digits letter leading recurse ds a u
    else match recurse (<[letter := d]> a) ({[d]} ∪ u) with
         | Raise e => Raise e
         | Return (Found solution) => Return (Found solution)
         | Return (Exhausted a' u') =>
             match a' !! letter with
             | None => Raise KeyError
             | Some _ =>
                 if bool_decide (d ∈ u')
                 then try_digits letter leading recurse ds
                        (delete letter a') (u' ∖ {[d]})
                 else Raise KeyError
             end
         end.
Proof. reflexivity. Qed.

Lemma backtrack_solve_cons letter rest a u :
  _backtrack_solve words leading (letter :: rest) a u
  = try_digits letter leading (_backtrack_solve words leading rest)
      range10 a u.
Proof. reflexivity. Qed.

(** The digit loop for one letter, given a sound search below it. *)
Lemma try_digits_ok letter rest recurse :
  letter ∉ rest →
  search_ok words leading rest recurse →
  ∀ digits a u,
    (∀ d, d ∈ digits → (0 ≤ d ≤ 9)%Z) →
    a !! letter = None →
    (∀ l, l ∈ rest → a !! l = None) →
    match try_digits letter leading recurse digits a u with
    | Return (Found b) =>
        extends leading a (letter :: rest) u b ∧ verify b = true
    | Return (Exhausted a' u') =>
        a' = a ∧ u' = u
        ∧ ∀ d b, d ∈ digits → d ∉ u → ¬ (letter ∈ leading ∧ d = 0%Z) →
            extends leading (<[letter := d]> a) rest ({[d]} ∪ u) b →
            verify b = false
    | Raise _ => False
    end.
Proof.
  intros Hfresh Hrec digits.
  induction digits as [|d ds IH]; intros a u Hrange Ha Hrest.
  - cbn. repeat split. intros d b Hd. by apply elem_of_nil in Hd.
  - rewrite try_digits_cons.
    assert (Hds : ∀ d', d' ∈ ds → (0 ≤ d' ≤ 9)%Z)
      by (intros; apply Hrange; by right).
    assert (Hskip : ∀ P : Prop,
      (∀ b, d ∉ u → ¬ (letter ∈ leading ∧ d = 0%Z) →
            extends leading (<[letter := d]> a) rest ({[d]} ∪ u) b →
            verify b = false) →
      match try_digits letter leading recurse ds a u with
      | Return (Found b) =>
          extends leading a (letter :: rest) u b ∧ verify b = true
      | Return (Exhausted a' u') =>
          a' = a ∧ u' = u
          ∧ ∀ d0 b, d0 ∈ d :: ds → d0 ∉ u →
              ¬ (letter ∈ leading ∧ d0 = 0%Z) →
              extends leading (<[letter := d0]> a) rest ({[d0]} ∪ u) b →
              verify b = false
      | Raise _ => False
      end).
    { intros _ Hd. specialize (IH a u Hds Ha Hrest).
      destruct (try_digits letter leading recurse ds a u) as [[b|a' u']|e];
        [done| |done].
      destruct IH as (-> & -> & IH). repeat split.
      intros d0 b [->|Hin]%elem_of_cons; [apply Hd|by apply IH]. }
    case_bool_decide as Hused; [apply (Hskip True); by intros|].
    destruct (bool_decide (letter ∈ leading) && bool_decide (d = 0%Z))
      eqn:Hlead.
    { apply (Hskip True). intros b _ Hn. exfalso. apply Hn.
      apply andb_prop in Hlead as [H1 H2].
      split; [by apply bool_decide_eq_true in H1
             |by apply bool_decide_eq_true in H2]. }
    assert (Hnl : ¬ (letter ∈ leading ∧ d = 0%Z)).
    { intros [H1 H2]. apply andb_false_iff in Hlead as [H|H];
        apply bool_decide_eq_false in H; done. }
    specialize (Hrec (<[letter := d]> a) ({[d]} ∪ u)).
    destruct (recurse (<[letter := d]> a) ({[d]} ∪ u)) as [[b|a' u']|e].
    + destruct Hrec as [Hext Hver].
      { intros l Hl. rewrite lookup_insert_ne; [by apply Hrest|].
        intros ->. done. }
      split; [|done]. exists d. repeat split; try done;
        apply Hrange; by left.
    + destruct Hrec as (-> & -> & Hnone).
      { intros l Hl. rewrite lookup_insert_ne; [by apply Hrest|].
        intros ->. done. }
      rewrite lookup_insert_eq.
      rewrite bool_decide_eq_true_2
        by (by apply elem_of_union_l, elem_of_singleton).
      rewrite delete_insert_id by done.
      replace (({[d]} ∪ u) ∖ {[d]}) with u.
      2:{ apply set_eq. intros y.
          rewrite elem_of_difference, elem_of_union, !elem_of_singleton.
          split; [intros ?; split; [by right|by intros ->]
                 |intros [[?|?] ?]; done]. }
      apply (Hskip True). intros b _ _. apply Hnone.
    + apply Hrec. intros l Hl. rewrite lookup_insert_ne; [by apply Hrest|].
      intros ->. done.
Qed.

(** The search explores every reachable assignment, restores its
    arguments when it gives up, and never raises on duplicate-free
    letters. *)
Lemma backtrack_solve_ok rest :
  NoDup rest →
  search_ok words leading rest (_backtrack_solve words leading rest).
Proof.
  induction rest as [|letter rest IH]; intros Hnd a u Hfree.
  - cbn [_backtrack_solve]. destruct (verify a) eqn:Hv; [done|].
    repeat split. by intros b ->.
  - rewrite backtrack_solve_cons.
    apply NoDup_cons in Hnd as [Hfresh Hnd].
    pose proof (try_digits_ok letter rest _ Hfresh (IH Hnd) range10 a u) as H.
    destruct (try_digits letter leading _ range10 a u) as [[b|a' u']|e].
    + apply H.
      * intros d Hd. apply elem_of_seqZ in Hd. lia.
      * apply Hfree. by left.
      * intros l Hl. apply Hfree. by right.
    + destruct H as (-> & -> & Hnone).
      * intros d Hd. apply elem_of_seqZ in Hd. lia.
      * apply Hfree. by left.
      * intros l Hl. apply Hfree. by right.
      * repeat split. intros b (d & Hd & Hu & Hl & Hext).
        apply (Hnone d b); try done. apply elem_of_seqZ. lia.
    + apply H.
      * intros d Hd. apply elem_of_seqZ in Hd. lia.
      * apply Hfree. by left.
      * intros l Hl. apply Hfree. by right.
Qed.

(** What every reachable assignment looks like. *)
Lemma extends_sound rest : ∀ a u b,
  NoDup rest →
  (∀ l, l ∈ rest → a !! l = None) →
  extends leading a rest u b →
  dom b = dom a ∪ list_to_set rest
  ∧ (∀ l, l ∉ rest → b !! l = a !! l)
  ∧ (∀ l, l ∈ rest →
       ∃ d, b !! l = Some d ∧ (0 ≤ d ≤ 9)%Z ∧ (d ∉ u)
            ∧ ¬ (l ∈ leading ∧ d = 0%Z))
  ∧ (∀ l1 l2, l1 ∈ rest → l2 ∈ rest → b !! l1 = b !! l2 → l1 = l2).
Proof.
  induction rest as [|l rest IH]; intros a u b Hnd Hfree; cbn [extends].
  - intros ->. split; [|split; [done|split]].
    + rewrite list_to_set_nil. by rewrite (right_id_L ∅ (∪)).
    + intros l Hl. by apply elem_of_nil in Hl.
    + intros l1 l2 Hl. by apply elem_of_nil in Hl.
  - intros (d & Hd & Hu & Hl & Hext).
    apply NoDup_cons in Hnd as [Hfresh Hnd].
    assert (Hfree' : ∀ l', l' ∈ rest → <[l := d]> a !! l' = None).
    { intros l' Hl'. rewrite lookup_insert_ne; [apply Hfree; by right|].
      by intros ->. }
    destruct (IH _ _ _ Hnd Hfree' Hext) as (Hdom & Hout & Hin & Hinj).
    assert (Hbl : b !! l = Some d).
    { rewrite Hout by done. apply lookup_insert_eq. }
    split; [|split; [|split]].
    + rewrite Hdom, dom_insert_L, list_to_set_cons.
      apply set_eq. intros y. rewrite !elem_of_union. tauto.
    + intros l' Hl'. apply not_elem_of_cons in Hl' as [Hne Hl'].
      rewrite Hout by done. by apply lookup_insert_ne.
    + intros l' [->|Hl']%elem_of_cons.
      { exists d. by repeat (split; [done|]). }
      destruct (Hin l' Hl') as (d' & Hb' & Hd' & Hu' & Hn').
      exists d'. split; [done|]. split; [done|]. split; [|done].
      intros ?. apply Hu'. by apply elem_of_union_r.
    + assert (Hne : ∀ l', l' ∈ rest → b !! l ≠ b !! l').
      { intros l' Hl'. rewrite Hbl.
        destruct (Hin l' Hl') as (d' & -> & _ & Hu' & _).
        intros [= ->]. apply Hu'. apply elem_of_union_l.
        by apply elem_of_singleton. }
      intros l1 l2 [->|H1]%elem_of_cons [->|H2]%elem_of_cons; try done.
      * intros E. by destruct (Hne l2 H2).
      * intros E. by destruct (Hne l1 H1).
      * by apply Hinj.
Qed.

(** Every assignment of distinct admissible digits to the remaining
    letters is reachable. *)
Lemma extends_complete rest : ∀ a u b,
  NoDup rest →
  (∀ l, l ∈ rest → a !! l = None) →
  a ⊆ b →
  dom b = dom a ∪ list_to_set rest →
  (∀ l, l ∈ rest →
     ∃ d, b !! l = Some d ∧ (0 ≤ d ≤ 9)%Z ∧ (d ∉ u)
          ∧ ¬ (l ∈ leading ∧ d = 0%Z)) →
  (∀ l1 l2, l1 ∈ rest → l2 ∈ rest → b !! l1 = b !! l2 → l1 = l2) →
  extends leading a rest u b.
Proof.
  induction rest as [|l rest IH]; intros a u b Hnd Hfree Hsub Hdom Hin Hinj;
    cbn [extends].
  - symmetry. apply subseteq_dom_eq; [done|].
    rewrite Hdom, list_to_set_nil. by rewrite (right_id_L ∅ (∪)).
  - apply NoDup_cons in Hnd as [Hfresh Hnd].
    destruct (Hin l) as (d & Hbl & Hd & Hu & Hl); [by left|].
    exists d. split; [done|]. split; [done|]. split; [done|].
    apply IH; try done.
    + intros l' Hl'. rewrite lookup_insert_ne; [apply Hfree; by right|].
      by intros ->.
    + apply insert_subseteq_l; done.
    + rewrite Hdom, dom_insert_L, list_to_set_cons.
      apply set_eq. intros y. rewrite !elem_of_union. tauto.
    + intros l' Hl'. destruct (Hin l') as (d' & Hb' & Hd' & Hu' & Hn');
        [by right|].
      exists d'. split; [done|]. split; [done|]. split; [|done].
      apply not_elem_of_union. split; [|done].
      intros E%elem_of_singleton. subst d'. apply Hfresh.
      rewrite (Hinj l l'); [done|by left|by right|congruence].
    + intros l1 l2 H1 H2. apply Hinj; by right.
Qed.

End Search.

(** ** From the search to the four constraints *)

Section Solver.

Implicit Types (a b : Assignment) (words : list string)
  (letters : list ascii) (s : Solver).

Lemma verify_sum_holds words a :
  fst (_verify_mathematics words a) = true ↔ sum_holds words a.
Proof.
  unfold sum_holds, _verify_mathematics.
  destruct words as [|w1 [|w2 [|w3 [|w4 ws]]]];
    try (split; [discriminate|intros (?&?&?&?&?&?&?&_); discriminate]).
  destruct (_word_to_number w1 a) as [n1|e1] eqn:E1; cbn [mbind result_bind].
  2:{ split; [by destruct e1|]. intros (?&?&?&?&?&?&[= <- <- <-]&?&_).
      congruence. }
  destruct (_word_to_number w2 a) as [n2|e2] eqn:E2; cbn [mbind result_bind].
  2:{ split; [by destruct e2|]. intros (?&?&?&?&?&?&[= <- <- <-]&_&?&_).
      congruence. }
  destruct (_word_to_number w3 a) as [n3|e3] eqn:E3; cbn [mbind result_bind].
  2:{ split; [by destruct e3|]. intros (?&?&?&?&?&?&[= <- <- <-]&_&_&?&_).
      congruence. }
  case_bool_decide as Hsum; cbn [fst].
  - split; [intros _|done]. by exists w1, w2, w3, n1, n2, n3.
  - destruct (Z.abs (n1 + n2) <? int_str_bound)%Z; cbn [fst];
      (split; [discriminate|]);
      intros (?&?&?&?&?&?&[= <- <- <-]&?&?&?&?); congruence.
Qed.

Lemma build_number_str_keys w a acc str c :
  build_number_str w a acc = Return str →
  c ∈ list_ascii_of_string w → is_Some (a !! c).
Proof.
  revert acc. induction w as [|c0 w IH]; intros acc; simpl.
  - intros _ Hc. by apply elem_of_nil in Hc.
  - destruct (a !! c0) as [d|] eqn:Hc0; [|discriminate].
    intros Hb [->|Hc]%elem_of_cons; [by eexists|]. by eapply IH.
Qed.

(** A word converts only if each of its letters has a digit. *)
Lemma word_to_number_keys w a n c :
  _word_to_number w a = Return n →
  c ∈ list_ascii_of_string w → is_Some (a !! c).
Proof.
  unfold _word_to_number. destruct w as [|c0 w]; [discriminate|].
  destruct (build_number_str (String c0 w) a "") as [str|] eqn:E;
    [|discriminate].
  intros _. by eapply build_number_str_keys.
Qed.

Lemma sum_holds_keys words a w c :
  sum_holds words a → w ∈ words → c ∈ list_ascii_of_string w →
  is_Some (a !! c).
Proof.
  intros (w1 & w2 & w3 & n1 & n2 & n3 & -> & H1 & H2 & H3 & _) Hw Hc.
  apply elem_of_cons in Hw as [->|Hw];
    [exact (word_to_number_keys _ _ _ _ H1 Hc)|].
  apply elem_of_cons in Hw as [->|Hw];
    [exact (word_to_number_keys _ _ _ _ H2 Hc)|].
  apply list_elem_of_singleton in Hw as ->.
  exact (word_to_number_keys _ _ _ _ H3 Hc).
Qed.

Lemma leading_letters_of_spec words c :
  c ∈ leading_letters_of words ↔ ∃ rest, String c rest ∈ words.
Proof.
  unfold leading_letters_of.
  assert (H : ∀ (acc : gset ascii),
    c ∈ fold_left (λ (acc : gset ascii) word,
                     match word with
                     | String c _ => {[c]} ∪ acc
                     | EmptyString => acc
                     end) words acc
    ↔ c ∈ acc ∨ ∃ rest, String c rest ∈ words).
  { induction words as [|[|c0 r] ws IH]; intros acc; cbn [fold_left].
    - split; [by left|]. intros [?|[rest Hin]]; [done|].
      by apply elem_of_nil in Hin.
    - rewrite IH. split; intros [?|[rest Hin]]; try by left.
      + right. exists rest. by right.
      + apply elem_of_cons in Hin as [?|Hin]; [done|]. right. by exists rest.
    - rewrite IH. split; intros [Hc|[rest Hin]].
      + apply elem_of_union in Hc as [->%elem_of_singleton|Hc]; [|by left].
        right. exists r. by left.
      + right. exists rest. by right.
      + left. by apply elem_of_union_r.
      + apply elem_of_cons in Hin as [[= -> ->]|Hin].
        * left. apply elem_of_union_l. by apply elem_of_singleton.
        * right. by exists rest. }
  rewrite H. split; [intros [Hc|?]; [by apply not_elem_of_empty in Hc|done]
                    |by right].
Qed.

(** The assignments the search reaches from the empty one are those that
    meet the first three constraints. *)
Lemma extends_top words letters b :
  NoDup letters →
  extends (leading_letters_of words) ∅ letters ∅ b
  ↔ dom b = list_to_set letters ∧ digit_valued b ∧ distinct_digits b
    ∧ leading_nonzero words b.
Proof.
  intros Hnd. split.
  - intros Hext.
    destruct (extends_sound (leading_letters_of words) letters ∅ ∅ b Hnd)
      as (Hdom & Hout & Hin & Hinj);
      [by intros; apply lookup_empty|done|].
    rewrite dom_empty_L, (left_id_L ∅ (∪)) in Hdom.
    assert (Hkey : ∀ l d, b !! l = Some d → l ∈ letters).
    { intros l d Hl. apply (elem_of_list_to_set (C:=gset ascii)).
      rewrite <- Hdom. apply elem_of_dom. by eexists. }
    split; [done|]. split; [|split].
    + intros l d Hl. destruct (Hin l (Hkey _ _ Hl)) as (d' & Hl' & ? & _).
      congruence.
    + intros l1 l2 d H1 H2. apply Hinj; [by eapply Hkey..|congruence].
    + intros c rest Hc Hz.
      destruct (Hin c (Hkey _ _ Hz)) as (d' & Hl' & _ & _ & Hn).
      apply Hn. split; [|congruence].
      apply leading_letters_of_spec. by exists rest.
  - intros (Hdom & Hdig & Hdist & Hlead).
    apply extends_complete; try done.
    + apply map_empty_subseteq.
    + by rewrite dom_empty_L, (left_id_L ∅ (∪)).
    + intros l Hl.
      assert (is_Some (b !! l)) as [d Hd].
      { apply elem_of_dom. rewrite Hdom. by apply elem_of_list_to_set. }
      exists d. split; [done|]. split; [by eapply Hdig|].
      split; [apply not_elem_of_empty|].
      intros [Hc ->]. apply leading_letters_of_spec in Hc as [rest Hc].
      by apply (Hlead l rest).
    + intros l1 l2 Hl1 Hl2 E.
      assert (is_Some (b !! l1)) as [d Hd].
      { apply elem_of_dom. rewrite Hdom. by apply elem_of_list_to_set. }
      apply (Hdist l1 l2 d); congruence.
Qed.

(** When the validator says yes. *)
Lemma validate_accepts s words letters a :
  snd (validate_cryptarithmetic s words letters a) = (true, SolutionCorrect)
  ↔ check_all_assigned letters a = None ∧ distinct_digits a
    ∧ leading_nonzero words a ∧ sum_holds words a.
Proof.
  unfold validate_cryptarithmetic, validate_input. simpl.
  rewrite <- rule2_passes, <- find_leading_zero_None, <- verify_sum_holds.
  destruct (check_all_assigned letters a) as [f|];
    [split; [discriminate|intros [? _]; discriminate]|].
  destruct (bool_decide (size _ ≠ _));
    [split; [discriminate|intros (_ & ? & _); discriminate]|].
  destruct (find_leading_zero words a);
    [split; [discriminate|intros (_ & _ & ? & _); discriminate]|].
  destruct (_verify_mathematics words a) as [[|] m]; simpl.
  - by split.
  - split; [discriminate|]. intros (_ & _ & _ & ?). discriminate.
Qed.

Lemma validate_fst_false s words letters a :
  snd (validate_cryptarithmetic s words letters a) ≠ (true, SolutionCorrect) →
  fst (snd (validate_cryptarithmetic s words letters a)) = false.
Proof.
  unfold validate_cryptarithmetic, validate_input. simpl.
  destruct (check_all_assigned letters a); [done|].
  destruct (bool_decide (size _ ≠ _)); [done|].
  destruct (find_leading_zero words a); [done|].
  by destruct (_verify_mathematics words a) as [[|] m].
Qed.

Lemma size_list_to_set_letters letters :
  NoDup letters → size (list_to_set letters : gset ascii) = length letters.
Proof. apply size_list_to_set. Qed.

(** For a puzzle spec, an accepted assignment is defined exactly on the
    puzzle's letters. *)
Lemma accepted_dom words letters a :
  puzzle_spec words letters →
  check_all_assigned letters a = None → sum_holds words a →
  dom a = list_to_set letters.
Proof.
  intros (_ & Hnd & Hlet) Hrule1 Hsum.
  assert (Hsub : (list_to_set letters : gset ascii) ⊆ dom a).
  { intros c Hc. rewrite Hlet in Hc. unfold letters_of in Hc.
    apply elem_of_union_list in Hc as (X & HX & Hc).
    apply list_elem_of_fmap in HX as (w & -> & Hw).
    apply elem_of_list_to_set in Hc.
    apply elem_of_dom. by eapply sum_holds_keys. }
  unfold check_all_assigned in Hrule1.
  case_bool_decide as Hsize.
  - case_bool_decide as Hmiss; [discriminate|].
    case_bool_decide as Hextra; [discriminate|].
    try apply dec_stable in Hextra. apply set_eq. intros c. split; [|apply Hsub].
    intros Hc. destruct (decide (c ∈ (list_to_set letters : gset ascii)));
      [done|].
    exfalso. assert (c ∈ dom a ∖ list_to_set letters) as Hin
      by (by apply elem_of_difference).
    rewrite Hextra in Hin. by apply not_elem_of_empty in Hin.
  - try apply dec_stable in Hsize. symmetry.
    apply set_subseteq_size_eq; [done|].
    rewrite size_dom, Hsize, size_list_to_set_letters; done.
Qed.

Lemma valid_is_accepted s words letters a :
  NoDup letters →
  valid_assignment words letters a →
  snd (validate_cryptarithmetic s words letters a) = (true, SolutionCorrect).
Proof.
  intros Hnd (Hdom & Hdig & Hdist & Hlead & Hsum).
  apply validate_accepts. repeat (split; [|done]).
  unfold check_all_assigned.
  rewrite bool_decide_eq_false_2; [done|]. intros H. apply H.
  by rewrite <- size_dom, Hdom, size_list_to_set_letters.
Qed.

(** What the search started by [solve_puzzle] returns. *)
Lemma search_correct words letters :
  NoDup letters →
  ∃ found,
    _backtrack_solve words (leading_letters_of words) letters ∅ ∅
    = Return found
    ∧ match found with
      | Found a => valid_assignment words letters a
      | Exhausted _ _ => ∀ a, ¬ valid_assignment words letters a
      end.
Proof.
  intros Hnd.
  pose proof (backtrack_solve_ok words (leading_letters_of words) letters
                Hnd ∅ ∅) as H.
  destruct (_backtrack_solve words (leading_letters_of words) letters ∅ ∅)
    as [[b|a' u']|e].
  - destruct H as [Hext Hver]; [by intros; apply lookup_empty|].
    exists (Found b). split; [done|].
    apply extends_top in Hext as (? & ? & ? & ?); [|done].
    apply verify_sum_holds in Hver. by repeat (split; [done|]).
  - destruct H as (_ & _ & Hnone); [by intros; apply lookup_empty|].
    exists (Exhausted a' u'). split; [done|].
    intros a (Hdom & Hdig & Hdist & Hlead & Hsum).
    apply verify_sum_holds in Hsum. rewrite Hnone in Hsum; [done|].
    by apply extends_top.
  - destruct H. by intros; apply lookup_empty.
Qed.

Lemma puzzle_key_inj words letters words' letters' :
  length words = length words' →
  puzzle_key words letters = puzzle_key words' letters' →
  words = words' ∧ letters = letters'.
Proof.
  unfold puzzle_key. intros Hlen [-> Hl]%app_inj_1; [|done].
  split; [done|].
  revert letters' Hl. induction letters as [|c l IH]; intros [|c' l'];
    simpl; try done.
  intros [= -> Hl]. f_equal. by apply IH.
Qed.

End Solver.

(** [solve_puzzle] on a three-word puzzle with duplicate-free letters:
    it returns what the search computes, from the cache when the entry is
    there (the solver is then untouched) and otherwise after running the
    search, which leaves the new entry alone in the cache. *)
Lemma solve_puzzle_cases (s : Solver) (words : list string)
    (letters : list ascii) :
  solver_inv s → length words = 3 → NoDup letters →
  ∃ found,
    _backtrack_solve words (leading_letters_of words) letters ∅ ∅ = Return found
    ∧ let r := match found with Found a => Some a | Exhausted _ _ => None end in
      (is_Some (solution_cache s !! puzzle_key words letters) →
       solve_puzzle s words letters = Return (s, r))
      ∧ (solution_cache s !! puzzle_key words letters = None →
         solve_puzzle s words letters
         = Return (mkSolver (Some (words, letters))
                            {[ puzzle_key words letters := r ]}, r)).
Proof.
  intros Hinv Hlen Hnd.
  destruct (search_correct words letters Hnd) as (found & Hsearch & _).
  exists found. split; [done|]. cbn zeta. unfold solve_puzzle. split.
  - intros [cached Hhit]. rewrite Hhit.
    destruct Hinv as [Hempty|(w & l & f & Hw & _ & Hf & Hcache)].
    + rewrite Hempty, lookup_empty in Hhit. discriminate.
    + rewrite Hcache in Hhit.
      apply lookup_singleton_Some in Hhit as [Hkey <-].
      apply puzzle_key_inj in Hkey as [-> ->]; [|congruence].
      rewrite Hsearch in Hf. by injection Hf as <-.
  - intros ->. rewrite Hsearch. cbn [mbind result_bind set_puzzle
      current_puzzle solution_cache]. by rewrite insert_empty.
Qed.

(** The solution recorded with each level of [part1_game_data] passes the
    validator; for the first level the sum is 9567 + 1085 = 10652. *)
Example level_solutions_accepted :
  Forall (λ lv, snd (validate_cryptarithmetic new_solver (Part1.words lv)
                       (Part1.unique_letters lv)
                       (list_to_map (Part1.solution lv)))
                = (true, SolutionCorrect)
                ∧ puzzle_spec (Part1.words lv) (Part1.unique_letters lv))
         Part1.LEVELS
  ∧ _verify_mathematics ["SEND"; "MORE"; "MONEY"]%string
      (list_to_map [("S", 9); ("E", 5); ("N", 6); ("D", 7);
                    ("M", 1); ("O", 0); ("R", 8); ("Y", 2)]%char%Z)
    = (true, Correct 9567 1085 10652).
Proof.
  split; [|vm_compute; reflexivity].
  repeat constructor; try (vm_compute; reflexivity);
    apply (bool_decide_unpack _); vm_compute; reflexivity.
Qed.

(** A freshly built solver, and one that has just been handed a puzzle,
    have an empty cache. *)
Lemma solver_inv_fresh (s : Solver) (words : list string)
    (letters : list ascii) :
  solver_inv new_solver ∧ solver_inv (set_puzzle s words letters).
Proof. split; by left. Qed.

(** C8.  The cache does not survive a query of another puzzle.  Solve
    A + A = B, then C + C = D, then A + A = B again: the second query has
    emptied the cache ([set_puzzle] resets it) before storing its own
    entry, so the third query finds no entry for its key and runs the
    search again; it returns the same assignment, and leaves a solver that
    differs from the one it found. *)
Lemma cache_lost_after_other_puzzle :
  ∃ s1 s2 s3 r r',
    solve_puzzle new_solver ["A"; "A"; "B"]%string ["A"; "B"]%char
    = Return (s1, r)
    ∧ solution_cache s1 !! puzzle_key ["A"; "A"; "B"]%string ["A"; "B"]%char
      = Some r
    ∧ solve_puzzle s1 ["C"; "C"; "D"]%string ["C"; "D"]%char = Return (s2, r')
    ∧ solution_cache s2 !! puzzle_key ["A"; "A"; "B"]%string ["A"; "B"]%char
      = None
    ∧ solve_puzzle s2 ["A"; "A"; "B"]%string ["A"; "B"]%char = Return (s3, r)
    ∧ s3 ≠ s2.
Proof.
  eexists _, _, _, _, _.
  split; [vm_compute; reflexivity|].
  split; [vm_compute; reflexivity|].
  split; [vm_compute; reflexivity|].
  split; [vm_compute; reflexivity|].
  split; [vm_compute; reflexivity|].
  intros E. apply (f_equal current_puzzle) in E. vm_compute in E. discriminate.
Qed.

(** Nor does it survive a validation or a request for hints on the very
    puzzle it holds: both load the puzzle with [set_puzzle], which empties
    the cache, and the next query runs the search again. *)
Lemma cache_lost_after_validation :
  ∃ s1 r s2 v s3 h,
    solve_puzzle new_solver ["A"; "A"; "B"]%string ["A"; "B"]%char
    = Return (s1, r)
    ∧ solution_cache s1 !! puzzle_key ["A"; "A"; "B"]%string ["A"; "B"]%char
      = Some r
    ∧ validate_cryptarithmetic s1 ["A"; "A"; "B"]%string ["A"; "B"]%char
        {[ "A"%char := 1%Z; "B"%char := 2%Z ]} = (s2, v)
    ∧ solution_cache s2 = ∅
    ∧ solve_puzzle s2 ["A"; "A"; "B"]%string ["A"; "B"]%char = Return (s3, r)
    ∧ s3 ≠ s2
    ∧ get_puzzle_hints s1 ["A"; "A"; "B"]%string ["A"; "B"]%char
        {[ "A"%char := 1%Z; "B"%char := 2%Z ]} = (s2, h).
Proof.
  eexists _, _, _, _, _, _.
  split; [vm_compute; reflexivity|].
  split; [vm_compute; reflexivity|].
  split; [vm_compute; reflexivity|].
  split; [vm_compute; reflexivity|].
  split; [vm_compute; reflexivity|].
  split; [|vm_compute; reflexivity].
  intros E. apply (f_equal solution_cache) in E. vm_compute in E.
  discriminate.
Qed.

(** What the cache does keep.  [solve_puzzle] stores its result under the
    key of (words, unique_letters), and a repeated query right after it is
    answered from that entry: same result, solver untouched, no search.
    The cache holds one puzzle only: a query of another puzzle replaces
    the entry by its own, after which the first puzzle is searched again,
    with the same result. *)
Theorem solve_puzzle_cache (s : Solver) (words : list string)
    (letters : list ascii)
    (Hinv : solver_inv s) (Hlen : length words = 3) (Hnd : NoDup letters) :
  ∃ s1 r,
    solve_puzzle s words letters = Return (s1, r)
    ∧ solution_cache s1 !! puzzle_key words letters = Some r
    ∧ solve_puzzle s1 words letters = Return (s1, r)
    ∧ ∀ words' letters',
        length words' = 3 → NoDup letters' →
        puzzle_key words' letters' ≠ puzzle_key words letters →
        ∃ s2 r' s3,
          solve_puzzle s1 words' letters' = Return (s2, r')
          ∧ solution_cache s2 = {[ puzzle_key words' letters' := r' ]}
          ∧ solution_cache s2 !! puzzle_key words letters = None
          ∧ solve_puzzle s2 words letters = Return (s3, r)
          ∧ s3 ≠ s2.
Proof.
  destruct (solve_puzzle_cases s words letters Hinv Hlen Hnd)
    as (found & Hsearch & Hhit & Hmiss). cbn zeta in Hhit, Hmiss.
  set (r := match found with Found a => Some a | Exhausted _ _ => None end) in *.
  assert (Hfirst : ∃ s1, solve_puzzle s words letters = Return (s1, r)
            ∧ solver_inv s1
            ∧ solution_cache s1 !! puzzle_key words letters = Some r
            ∧ (∀ k, k ≠ puzzle_key words letters →
                    solution_cache s1 !! k = None)).
  { destruct (solution_cache s !! puzzle_key words letters) as [c|] eqn:Hc.
    - exists s. pose proof (Hhit ltac:(by eexists)) as E.
      split; [done|]. split; [done|].
      destruct Hinv as [Hempty|(w & l & f & Hw & _ & Hf & Hcache)].
      + rewrite Hempty, lookup_empty in Hc. discriminate.
      + rewrite Hcache in Hc |- *.
        apply lookup_singleton_Some in Hc as [Hkey <-].
        pose proof Hkey as Hkey'.
        apply puzzle_key_inj in Hkey' as [-> ->]; [|congruence].
        rewrite Hsearch in Hf. injection Hf as <-.
        split; [apply lookup_singleton_eq|].
        intros k Hk. by apply lookup_singleton_ne.
    - eexists. split; [by apply Hmiss|]. cbn [solution_cache].
      split; [right; exists words, letters, found; by repeat split|].
      split; [apply lookup_singleton_eq|].
      intros k Hk. by apply lookup_singleton_ne. }
  destruct Hfirst as (s1 & Hs1 & Hinv1 & Hin1 & Hout1).
  exists s1, r. split; [done|]. split; [done|].
  destruct (solve_puzzle_cases s1 words letters Hinv1 Hlen Hnd)
    as (found1 & Hsearch1 & Hhit1 & _). cbn zeta in Hhit1.
  rewrite Hsearch in Hsearch1. injection Hsearch1 as <-.
  split; [apply Hhit1; by eexists|].
  intros words' letters' Hlen' Hnd' Hkey.
  destruct (solve_puzzle_cases s1 words' letters' Hinv1 Hlen' Hnd')
    as (found' & Hsearch' & _ & Hmiss'). cbn zeta in Hmiss'.
  set (r' := match found' with Found a => Some a | Exhausted _ _ => None end) in *.
  specialize (Hmiss' (Hout1 _ Hkey)).
  set (s2 := mkSolver (Some (words', letters'))
               {[ puzzle_key words' letters' := r' ]}) in *.
  assert (Hinv2 : solver_inv s2)
    by (right; exists words', letters', found'; by repeat split).
  assert (Hgone : solution_cache s2 !! puzzle_key words letters = None)
    by (by apply lookup_singleton_ne).
  destruct (solve_puzzle_cases s2 words letters Hinv2 Hlen Hnd)
    as (found2 & Hsearch2 & _ & Hmiss2). cbn zeta in Hmiss2.
  rewrite Hsearch in Hsearch2. injection Hsearch2 as <-.
  eexists s2, r', _. split; [done|]. split; [done|]. split; [done|].
  split; [by apply Hmiss2|].
  intros E.
  apply (f_equal (λ s, solution_cache s !! puzzle_key words letters)) in E.
  subst s2. cbn [solution_cache] in E.
  rewrite lookup_singleton_eq, lookup_singleton_ne in E by done.
  discriminate.
Qed.

Lemma solve_puzzle_cache_witness :
  ∃ s1 r,
    solve_puzzle new_solver ["A"; "A"; "B"]%string ["A"; "B"]%char
    = Return (s1, r)
    ∧ solve_puzzle s1 ["A"; "A"; "B"]%string ["A"; "B"]%char = Return (s1, r).
Proof.
  destruct (solve_puzzle_cache new_solver ["A"; "A"; "B"]%string
              ["A"; "B"]%char) as (s1 & r & H1 & _ & H2 & _).
  - by left.
  - reflexivity.
  - apply (bool_decide_unpack _). vm_compute. reflexivity.
  - by exists s1, r.
Defined.

(** * The level controller *)

(** The controller's own steps.  [__init__] calls [load_progress] once and
    starts at level [min(loaded, last)] (level 0 when that is negative).
    Each call of [_on_river_complete] at a level of the game moves to the
    next level, the first one after the last; it calls [save_progress]
    once, with the new index [current_level + 1], when that index exceeds
    the field [highest_level_completed], and not at all otherwise; and it
    never calls [load_progress] again. *)
Theorem level_progression :
  (∀ loaded : Z,
     Part6.persistence_calls (Part6.init loaded) = [Part6.load_progress]
     ∧ Part6.highest_level_completed (Part6.init loaded) = loaded
     ∧ Part6.current_level (Part6.init loaded)
       = (if (0 <=? loaded)%Z then Z.min loaded (Part1.get_level_count - 1)
          else 0)%Z)
  ∧ (∀ c : Part6.Controller,
       (0 ≤ Part6.current_level c < Part1.get_level_count)%Z →
       let c' := Part6._on_river_complete c in
       Part6.current_level c'
       = ((Part6.current_level c + 1) mod Part1.get_level_count)%Z
       ∧ saves (Part6.persistence_calls c')
         = saves (Part6.persistence_calls c)
           ++ (if (Part6.highest_level_completed c
                   <? Part6.current_level c + 1)%Z
               then [(Part6.current_level c + 1)%Z] else [])
       ∧ Part6.highest_level_completed c'
         = Z.max (Part6.highest_level_completed c) (Part6.current_level c + 1)
       ∧ loads (Part6.persistence_calls c') = loads (Part6.persistence_calls c))
  ∧ (∀ (loaded : Z) (wins : nat),
       (0 ≤ Part6.current_level (Part6.session loaded wins)
        < Part1.get_level_count)%Z
       ∧ loads (Part6.persistence_calls (Part6.session loaded wins)) = 1
       ∧ length (saves (Part6.persistence_calls (Part6.session loaded wins)))
         ≤ wins).
Proof.
  assert (Hinit : ∀ loaded : Z,
     Part6.persistence_calls (Part6.init loaded) = [Part6.load_progress]
     ∧ Part6.highest_level_completed (Part6.init loaded) = loaded
     ∧ Part6.current_level (Part6.init loaded)
       = (if (0 <=? loaded)%Z then Z.min loaded (Part1.get_level_count - 1)
          else 0)%Z).
  { intros loaded. unfold Part6.init, Part6._load_level.
    change Part1.get_level_count with 3%Z.
    cbn [Part6.highest_level_completed].
    destruct (Z.leb_spec 0 loaded), (Z.leb_spec 0 (Z.min loaded (3 - 1))),
      (Z.ltb_spec (Z.min loaded (3 - 1)) 3); cbn; repeat split; lia. }
  assert (Hwin : ∀ c : Part6.Controller,
       (0 ≤ Part6.current_level c < Part1.get_level_count)%Z →
       let c' := Part6._on_river_complete c in
       Part6.current_level c'
       = ((Part6.current_level c + 1) mod Part1.get_level_count)%Z
       ∧ saves (Part6.persistence_calls c')
         = saves (Part6.persistence_calls c)
           ++ (if (Part6.highest_level_completed c
                   <? Part6.current_level c + 1)%Z
               then [(Part6.current_level c + 1)%Z] else [])
       ∧ Part6.highest_level_completed c'
         = Z.max (Part6.highest_level_completed c) (Part6.current_level c + 1)
       ∧ loads (Part6.persistence_calls c') = loads (Part6.persistence_calls c)).
  { intros [cur high calls].
    cbn [Part6.current_level Part6.highest_level_completed
         Part6.persistence_calls]. intros Hcur.
    unfold Part6._on_river_complete.
    cbn [Part6.current_level Part6.highest_level_completed
         Part6.persistence_calls].
    assert (Hload : ∀ i c0, (0 ≤ i < Part1.get_level_count)%Z →
              Part6._load_level i c0
              = Part6.mkController i (Part6.highest_level_completed c0)
                  (Part6.persistence_calls c0)).
    { intros i c0 Hi. unfold Part6._load_level.
      destruct (Z.leb_spec 0 i), (Z.ltb_spec i Part1.get_level_count);
        cbn [andb negb]; [done|lia..]. }
    assert (Hnext : ∀ c0, Part6.current_level c0 = cur →
              (if (Part6.current_level c0 <? Part1.get_level_count - 1)%Z
               then Part6._load_level (Part6.current_level c0 + 1) c0
               else Part6._load_level 0 c0)
              = Part6.mkController ((cur + 1) mod Part1.get_level_count)
                  (Part6.highest_level_completed c0)
                  (Part6.persistence_calls c0)).
    { intros c0 Hc0. rewrite Hc0. clear Hc0.
      change Part1.get_level_count with 3%Z in *.
      destruct (Z.ltb_spec cur (3 - 1)).
      - rewrite Hload by lia. by rewrite Z.mod_small by lia.
      - rewrite Hload by lia. replace cur with 2%Z by lia. reflexivity. }
    destruct (Z.leb_spec high cur), (Z.ltb_spec high (cur + 1)); try lia;
      rewrite Hnext by reflexivity;
      cbn [Part6.current_level Part6.highest_level_completed
           Part6.persistence_calls];
      unfold saves, loads; rewrite ?omap_app; cbn [omap list_omap];
      rewrite ?app_nil_r; (split; [reflexivity|]); (split; [reflexivity|]);
      (split; [lia|reflexivity]). }
  split; [exact Hinit|]. split; [exact Hwin|].
  intros loaded wins. induction wins as [|n IH]; cbn [Part6.session].
  - destruct (Hinit loaded) as (Hcalls & _ & Hcur). rewrite Hcalls, Hcur.
    change Part1.get_level_count with 3%Z.
    split; [destruct (Z.leb_spec 0 loaded); lia|]. by cbn.
  - destruct IH as (Hcur & Hloads & Hsaves).
    destruct (Hwin _ Hcur) as (Ecur & Esaves & _ & Eloads). cbn zeta in *.
    rewrite Ecur, Esaves, Eloads, length_app.
    change Part1.get_level_count with 3%Z in *.
    split; [apply Z.mod_pos_bound; lia|]. split; [done|].
    destruct (_ <? _)%Z; cbn [length]; lia.
Qed.

Lemma level_progression_witness :
  Part6.current_level (Part6._on_river_complete (Part6.session 0 2)) = 0%Z
  ∧ saves (Part6.persistence_calls (Part6._on_river_complete (Part6.session 0 2)))
    = [1%Z; 2%Z; 3%Z]
  ∧ saves (Part6.persistence_calls (Part6.session 0 4)) = [1%Z; 2%Z; 3%Z].
Proof.
  destruct level_progression as (_ & Hwin & _).
  destruct (Hwin (Part6.session 0 2)) as (Hcur & Hsaves & _).
  - vm_compute. split; [discriminate|reflexivity].
  - cbn zeta in *. split; [rewrite Hcur; reflexivity|].
    split; [rewrite Hsaves; reflexivity|reflexivity].
Defined.

(** * Further properties of the river engine *)

Section RiverSteps.

Implicit Types (g : Game) (cid : string) (crew : list string).

Lemma update_side_counts_frame side ty d st :
  boat_side (update_side_counts side ty d st) = boat_side st
  ∧ boat_crew (update_side_counts side ty d st) = boat_crew st
  ∧ boat_capacity (update_side_counts side ty d st) = boat_capacity st
  ∧ total_missionaries (update_side_counts side ty d st) = total_missionaries st
  ∧ total_cannibals (update_side_counts side ty d st) = total_cannibals st
  ∧ move_count (update_side_counts side ty d st) = move_count st
  ∧ is_game_over (update_side_counts side ty d st) = is_game_over st
  ∧ is_won (update_side_counts side ty d st) = is_won st.
Proof. by destruct side, ty. Qed.

Lemma update_side_counts_bank side ty d st side' ty' :
  bank_count side' ty' (update_side_counts side ty d st)
  = (bank_count side' ty' st
     + if decide (side' = side ∧ ty' = ty) then d else 0)%Z.
Proof.
  destruct side, ty, side', ty'; cbn; case_decide as H;
    first [lia | by destruct H | exfalso; by apply H].
Qed.

(** What a successful unloading does. *)
Lemma remove_from_boat_success g cid g1 msg :
  remove_from_boat g cid = Return (g1, (true, msg)) →
  ∃ ch crew',
    is_game_over (state g) = false
    ∧ cid ∈ boat_crew (state g)
    ∧ get_character g cid = Some ch
    ∧ list_remove cid (boat_crew (state g)) = Some crew'
    ∧ msg = MsgRemoved cid
    ∧ g1 = mkGame
             (update_side_counts (boat_side (state g)) (type ch) 1
                (set_boat_crew crew' (state g)))
             (set_location cid (boat_side (state g)) (characters g))
             (move_history g).
Proof.
  unfold remove_from_boat, can_remove_from_boat.
  destruct (is_game_over (state g)); [discriminate|].
  case_bool_decide as Hin; cbn [negb]; [|discriminate].
  destruct (list_remove cid (boat_crew (state g))) as [crew'|]; [|discriminate].
  destruct (get_character g cid) as [ch|]; [|discriminate].
  intros [= <- <-]. by exists ch, crew'.
Qed.

(** The passenger loop, bank by bank. *)
Lemma land_passengers_bank side crew g g2 :
  land_passengers side crew g = Return g2 →
  ∀ side' ty,
    bank_count side' ty (state g2)
    = (bank_count side' ty (state g)
       + if decide (side' = side) then count_type (characters g) ty crew
         else 0)%Z.
Proof.
  revert g. induction crew as [|cid rest IH]; intros g; cbn [land_passengers].
  - intros [= <-] side' ty. rewrite count_type_nil. case_decide; lia.
  - destruct (get_character g cid) as [ch|] eqn:Hch; [|discriminate].
    intros H side' ty. rewrite (IH _ H side' ty).
    cbn [state set_state move_character characters].
    rewrite update_side_counts_bank, count_type_cons.
    rewrite (count_type_ext (characters g)
               (set_location cid side (characters g)))
      by (intros; apply type_of_set_location).
    assert (Hty : type_of (characters g) cid = Some (type ch))
      by (unfold type_of; unfold get_character in Hch; by rewrite Hch).
    destruct (one_if_types _ _ _ Hty) as [Em Ec].
    destruct ty; rewrite ?Em, ?Ec; destruct (type ch);
      repeat case_decide; first [lia | exfalso; intuition congruence].
Qed.

(** A successful crossing, with the record it files. *)
Lemma travel_success_record g g' msg :
  travel g = Return (g', (true, msg)) →
  is_game_over (state g) = false
  ∧ boat_crew (state g) ≠ []
  ∧ (Z.of_nat (length (boat_crew (state g))) ≤ boat_capacity (state g))%Z
  ∧ msg = MsgTraveled (opposite (boat_side (state g)))
  ∧ ∃ g2,
      land_passengers (opposite (boat_side (state g))) (boat_crew (state g))
        (set_state (set_boat_side (opposite (boat_side (state g))) (state g)) g)
      = Return g2
      ∧ let g4 := mkGame (set_move_count (move_count (state g2) + 1)
                            (set_boat_crew [] (state g2)))
                         (characters g2) (move_history g2) in
        g' = _check_game_status
               (mkGame (state g4) (characters g4)
                  (move_history g4
                   ++ [mkMoveRecord (move_count (state g) + 1)
                         (boat_side (state g)) (boat_crew (state g))
                         (_get_state_snapshot g)
                         (opposite (boat_side (state g)))
                         (_get_state_snapshot g4)])).
Proof.
  unfold travel, can_travel, opposite.
  destruct (is_game_over (state g)); [discriminate|].
  destruct (boat_crew (state g)) as [|c0 crew0] eqn:Hcrew; [discriminate|].
  rewrite <- Hcrew.
  destruct (Z.eqb_spec (Z.of_nat (length (boat_crew (state g)))) 0);
    [discriminate|].
  destruct (Z.ltb_spec (boat_capacity (state g))
              (Z.of_nat (length (boat_crew (state g))))); [discriminate|].
  cbn [negb]. cbn [set_state state set_boat_side boat_crew].
  match goal with |- context [land_passengers ?s ?c ?g0] =>
    destruct (land_passengers s c g0) as [g2|e] eqn:Hland end;
    [|discriminate].
  cbn [mbind result_bind]. intros [= <- <-].
  split; [done|]. split; [by rewrite Hcrew|]. split; [lia|]. split; [done|].
  exists g2. split; [done|]. reflexivity.
Qed.

(** The shape of every step: it changes nothing, boards one character,
    unloads one, or crosses. *)
Lemma step_cases g op g' :
  step g op = Return g' →
  g' = g
  ∨ (∃ cid msg, add_to_boat g cid = Return (g', (true, msg)))
  ∨ (∃ cid msg, remove_from_boat g cid = Return (g', (true, msg)))
  ∨ (∃ msg, travel g = Return (g', (true, msg))).
Proof.
  destruct op as [cid|cid|]; cbn [step].
  - destruct (add_to_boat g cid) as [[g1 [[|] msg]]|e] eqn:E;
      cbn [mbind result_bind fst]; [| |discriminate].
    + intros [= <-]. right; left. by exists cid, msg.
    + intros [= <-]. left.
      destruct (add_to_boat_total g cid) as (g0 & ok & m0 & E' & _ & Hs & _).
      rewrite E in E'. injection E' as -> <- <-. by destruct (Hs eq_refl).
  - destruct (remove_from_boat g cid) as [[g1 [[|] msg]]|e] eqn:E;
      cbn [mbind result_bind fst]; [| |discriminate].
    + intros [= <-]. right; right; left. by exists cid, msg.
    + intros [= <-]. left. revert E.
      unfold remove_from_boat.
      destruct (can_remove_from_boat g cid) as [[|] m0]; cbn [negb];
        [|by intros [= <-]].
      destruct (list_remove _ _); [|discriminate].
      destruct (get_character g cid); discriminate.
  - destruct (travel g) as [[g1 [[|] msg]]|e] eqn:E;
      cbn [mbind result_bind fst]; [| |discriminate].
    + intros [= <-]. right; right; right. by exists msg.
    + intros [= <-]. left. by eapply travel_failure.
Qed.

End RiverSteps.

Section RiverInvariants.

Implicit Types (g : Game) (cid : string) (crew : list string).

Variables m c k : Z.

(** Any step that changes the game starts from a game still running. *)
Lemma step_changes_running g op g' :
  step g op = Return g' → g' ≠ g → is_game_over (state g) = false.
Proof.
  intros Hstep Hne. apply step_cases in Hstep as [->|[H|[H|H]]]; [done|..].
  - destruct H as (cid & msg & H).
    by apply add_to_boat_success in H as (? & _ & _ & ? & _).
  - destruct H as (cid & msg & H).
    by apply remove_from_boat_success in H as (? & ? & ? & _).
  - destruct H as (msg & H). by apply travel_success in H as (? & _).
Qed.

(** Totals and capacity are fixed at initialisation. *)
Lemma reachable_parameters g :
  reachable m c k g →
  total_missionaries (state g) = m
  ∧ total_cannibals (state g) = c
  ∧ boat_capacity (state g) = k.
Proof.
  induction 1 as [|g op g' _ IH Hstep]; [done|].
  destruct IH as (Hm & Hc & Hk).
  apply step_cases in Hstep as [->|[H|[H|H]]]; [done|..].
  - destruct H as (cid & msg & H).
    apply add_to_boat_success in H as (ch & _ & _ & _ & _ & _ & _ & ->).
    cbn [state].
    destruct (update_side_counts_frame (boat_side (state g)) (type ch) (-1)
                (set_boat_crew (boat_crew (state g) ++ [cid]) (state g)))
      as (_ & _ & -> & -> & -> & _). done.
  - destruct H as (cid & msg & H).
    apply remove_from_boat_success in H as (ch & crew' & _ & _ & _ & _ & _ & ->).
    cbn [state].
    destruct (update_side_counts_frame (boat_side (state g)) (type ch) 1
                (set_boat_crew crew' (state g)))
      as (_ & _ & -> & -> & -> & _). done.
  - destruct H as (msg & H).
    apply travel_success in H as (_ & _ & g2 & Hland & hist & ->).
    apply land_passengers_frame in Hland as [(_ & _ & _ & E1 & E2 & E3 & _) _].
    cbn [state set_state set_boat_side boat_capacity total_missionaries
         total_cannibals] in E1, E2, E3.
    unfold _check_game_status. destruct (negb _); [by cbn; rewrite E1, E2, E3|].
    destruct (_ && _); by cbn; rewrite E1, E2, E3.
Qed.

Lemma reachable_conserved g :
  reachable m c k g → conserved m c g ∧ crew_known g.
Proof.
  induction 1 as [|g op g' _ [IHc IHk] Hstep];
    [apply initialize_game_conserved|].
  destruct (step_conserved m c g op IHc IHk) as (g1 & E & ? & ?).
  rewrite E in Hstep. by injection Hstep as <-.
Qed.

(** The crew never outgrows the boat. *)
Lemma reachable_capacity g :
  reachable m c k g →
  boat_crew (state g) = []
  ∨ (Z.of_nat (length (boat_crew (state g))) ≤ boat_capacity (state g))%Z.
Proof.
  induction 1 as [|g op g' _ IH Hstep]; [by left|].
  apply step_cases in Hstep as [->|[H|[H|H]]]; [done|..].
  - destruct H as (cid & msg & H).
    pose proof H as Hcap.
    apply add_to_boat_success in Hcap as (_ & _ & _ & _ & _ & Hcap & _).
    apply add_to_boat_frame in H as (_ & _ & -> & _ & ->).
    right. rewrite length_app. cbn [length]. lia.
  - destruct H as (cid & msg & H).
    apply remove_from_boat_success in H as (ch & crew' & _ & _ & _ & Hrem & _ & ->).
    cbn [state].
    destruct (update_side_counts_frame (boat_side (state g)) (type ch) 1
                (set_boat_crew crew' (state g))) as (_ & -> & -> & _).
    cbn [set_boat_crew boat_crew boat_capacity].
    destruct IH as [E|IH]; [rewrite E in Hrem; discriminate|].
    right. assert (length crew' ≤ length (boat_crew (state g))); [|lia].
    clear -Hrem. revert crew' Hrem.
    induction (boat_crew (state g)) as [|x l IHl]; intros crew'; cbn;
      [discriminate|].
    case_bool_decide; [intros [= <-]; lia|].
    destruct (list_remove cid l) as [r|]; [|discriminate].
    intros [= <-]. cbn. specialize (IHl r eq_refl). lia.
  - destruct H as (msg & H).
    apply travel_success in H as (_ & _ & g2 & _ & hist & ->).
    left. unfold _check_game_status.
    destruct (negb _); [done|]. by destruct (_ && _).
Qed.

End RiverInvariants.

(** ** Counts and characters *)

Section Counting.

Context {A : Type}.
Implicit Types (l : list A) (P Q R : A → Prop).

Lemma length_filter_iff P Q `{∀ x, Decision (P x)} `{∀ x, Decision (Q x)} l :
  (∀ x, x ∈ l → (P x ↔ Q x)) →
  length (filter P l) = length (filter Q l).
Proof.
  induction l as [|x l IH]; intros Hiff; [done|].
  rewrite !filter_cons.
  assert (Hx : P x ↔ Q x) by (apply Hiff; by left).
  assert (IH' : length (filter P l) = length (filter Q l))
    by (apply IH; intros y Hy; apply Hiff; by right).
  destruct (decide (P x)), (decide (Q x)); cbn [length]; tauto || lia.
Qed.

Lemma length_filter_none P `{∀ x, Decision (P x)} l :
  (∀ x, x ∈ l → ¬ P x) → length (filter P l) = 0.
Proof.
  induction l as [|x l IH]; intros Hn; [done|].
  rewrite filter_cons_False by (apply Hn; by left).
  apply IH. intros y Hy. apply Hn. by right.
Qed.

Lemma length_filter_split P R `{∀ x, Decision (P x)} `{∀ x, Decision (R x)} l :
  length (filter P l)
  = length (filter (λ x, P x ∧ R x) l) + length (filter (λ x, P x ∧ ¬ R x) l).
Proof.
  induction l as [|x l IH]; [done|].
  rewrite !filter_cons.
  destruct (decide (P x)), (decide (R x));
    repeat case_decide; cbn [length]; tauto || lia.
Qed.

Lemma length_filter_partition P `{∀ x, Decision (P x)} l :
  length (filter P l) + length (filter (λ x, ¬ P x) l) = length l.
Proof.
  induction l as [|x l IH]; [done|]. rewrite !filter_cons.
  destruct (decide (P x)), (decide (¬ P x)); cbn; first [tauto | lia].
Qed.

Lemma length_filter_fmap {B} (f : B → A) P `{∀ x, Decision (P x)}
    (k : list B) :
  length (filter P (f <$> k)) = length (filter (λ y, P (f y)) k).
Proof.
  induction k as [|y k IH]; [done|].
  rewrite fmap_cons, !filter_cons. destruct (decide (P (f y))); cbn [length];
    by rewrite IH.
Qed.

End Counting.

Section Characters.

Implicit Types (g : Game) (cid : string) (crew : list string)
  (chars : list Character) (ch : Character).

(** With unique ids a character is known by its id. *)
Lemma unique_id chars ch ch' :
  NoDup (id <$> chars) → ch ∈ chars → ch' ∈ chars → id ch = id ch' → ch = ch'.
Proof.
  induction chars as [|x l IH]; [by intros _ ?%elem_of_nil|].
  rewrite fmap_cons, NoDup_cons, !elem_of_cons.
  intros [Hx Hnd] [->|H1] [->|H2] E; [done| | |by apply IH].
  - exfalso. apply Hx. rewrite E. by apply list_elem_of_fmap_2.
  - exfalso. apply Hx. rewrite <- E. by apply list_elem_of_fmap_2.
Qed.

Lemma find_by_id chars cid ch :
  find (λ ch, bool_decide (id ch = cid)) chars = Some ch →
  ch ∈ chars ∧ id ch = cid.
Proof.
  intros H. apply find_some in H as [Hin E].
  split; [by apply list_elem_of_In|by apply bool_decide_eq_true in E].
Qed.

Lemma find_by_id_unique chars cid ch :
  NoDup (id <$> chars) → ch ∈ chars → id ch = cid →
  find (λ ch, bool_decide (id ch = cid)) chars = Some ch.
Proof.
  intros Hnd Hin E.
  destruct (find _ chars) as [ch'|] eqn:Hf.
  - apply find_by_id in Hf as [Hin' E']. f_equal.
    apply (unique_id chars); congruence || done.
  - exfalso. apply list_elem_of_In in Hin.
    pose proof (find_none _ _ Hf _ Hin) as Hb. cbn in Hb.
    by apply bool_decide_eq_false in Hb.
Qed.

(** One character carries a given id. *)
Lemma count_by_id chars ch (Q : Character → Prop) `{∀ x, Decision (Q x)} :
  NoDup (id <$> chars) → ch ∈ chars →
  length (filter (λ x, Q x ∧ id x = id ch) chars)
  = if decide (Q ch) then 1 else 0.
Proof.
  induction chars as [|x l IH]; [by intros _ ?%elem_of_nil|].
  rewrite fmap_cons, NoDup_cons, elem_of_cons, filter_cons.
  intros [Hx Hnd] [->|Hin].
  - assert (E : length (filter (λ y, Q y ∧ id y = id x) l) = 0).
    { apply length_filter_none. intros y Hy [_ E]. apply Hx. rewrite <- E.
      by apply list_elem_of_fmap_2. }
    destruct (decide (Q x)), (decide (Q x ∧ id x = id x)); cbn [length];
      tauto || lia.
  - rewrite decide_False; [by apply IH|].
    intros [_ E]. apply Hx. rewrite E. by apply list_elem_of_fmap_2.
Qed.

(** With unique ids [set_location] touches the one character of that id. *)
Lemma set_location_fmap chars cid side :
  NoDup (id <$> chars) →
  set_location cid side chars
  = (λ ch, if decide (id ch = cid) then relocate side ch else ch) <$> chars.
Proof.
  induction chars as [|x l IH]; [done|].
  rewrite fmap_cons, NoDup_cons. intros [Hx Hnd]. cbn [set_location].
  rewrite fmap_cons. case_bool_decide as E.
  - rewrite decide_True by done. unfold relocate. f_equal.
    rewrite <- (list_fmap_id l) at 1. apply list_fmap_ext.
    intros i y Hy. rewrite decide_False; [done|].
    intros E'. apply Hx. rewrite E, <- E'.
    apply list_elem_of_fmap_2. by eapply list_elem_of_lookup_2.
  - rewrite decide_False by done. f_equal. by apply IH.
Qed.

Lemma set_location_ids chars cid side :
  id <$> set_location cid side chars = id <$> chars.
Proof.
  induction chars as [|x l IH]; [done|]. cbn [set_location].
  case_bool_decide; rewrite !fmap_cons; [done|]. by rewrite IH.
Qed.

(** The crew ids of a type, counted on the character list. *)
Lemma count_crew_type chars crew ty :
  NoDup (id <$> chars) → NoDup crew →
  (∀ cid, cid ∈ crew → ∃ ch, ch ∈ chars ∧ id ch = cid) →
  Z.of_nat (length (filter (λ ch, type ch = ty ∧ id ch ∈ crew) chars))
  = count_type chars ty crew.
Proof.
  intros Hids. induction crew as [|cid rest IH]; intros Hnd Hknown.
  - rewrite count_type_nil, length_filter_none; [done|].
    intros x _ [_ ?%elem_of_nil]. done.
  - apply NoDup_cons in Hnd as [Hfresh Hnd].
    destruct (Hknown cid) as (ch & Hin & E); [by left|].
    rewrite count_type_cons, <- IH by (done || intros; apply Hknown; by right).
    rewrite (length_filter_split _ (λ x, id x = id ch) chars).
    rewrite (length_filter_iff _ (λ x, type x = ty ∧ id x = id ch) chars),
      (count_by_id chars ch (λ x, type x = ty)) by
      (done || intros x _; rewrite elem_of_cons; subst cid; tauto).
    rewrite (length_filter_iff (λ x, (type x = ty ∧ id x ∈ cid :: rest)
                                     ∧ id x ≠ id ch)
               (λ x, type x = ty ∧ id x ∈ rest) chars).
    2:{ intros x _. rewrite elem_of_cons. subst cid. split.
        - intros [[? [?|?]] ?]; done.
        - intros [? Hr]. split; [split; [done|by right]|].
          intros E. apply Hfresh. by rewrite <- E. }
    unfold one_if, type_of.
    rewrite (find_by_id_unique chars cid ch) by done. cbn [fmap option_fmap option_map].
    destruct (decide (type ch = ty)), (decide (Some (type ch) = Some ty));
      try lia; congruence.
Qed.

End Characters.

(** Closes the case analyses on "is this the bank and the type that
    changed": arithmetic, or two descriptions of the same bank that
    disagree. *)
Ltac bank_cases :=
  repeat case_decide;
  first [ lia
        | exfalso; destruct_and?;
          match goal with H : ¬ _ |- _ => apply H; repeat split; congruence end ].

Section Consistency.

Implicit Types (g : Game) (cid : string) (crew : list string)
  (chars : list Character) (ch : Character).

Lemma standing_on_bank g side ty :
  standing g side ty
  = Z.of_nat (on_bank (characters g) (boat_crew (state g)) side ty).
Proof.
  unfold standing, get_characters_on_side, on_bank.
  by rewrite list_filter_filter.
Qed.

Lemma on_bank_add chars crew cid ch side ty :
  NoDup (id <$> chars) → ch ∈ chars → id ch = cid → cid ∉ crew →
  on_bank chars crew side ty
  = on_bank chars (crew ++ [cid]) side ty
    + (if decide (type ch = ty ∧ location ch = side) then 1 else 0).
Proof.
  intros Hids Hin E Hfresh. unfold on_bank.
  rewrite (length_filter_split _ (λ x, id x = id ch) chars).
  rewrite (count_by_id chars ch
             (λ x, type x = ty ∧ location x = side ∧ id x ∉ crew)) by done.
  rewrite (length_filter_iff
             (λ x, (type x = ty ∧ location x = side ∧ id x ∉ crew)
                   ∧ id x ≠ id ch)
             (λ x, type x = ty ∧ location x = side ∧ id x ∉ crew ++ [cid])
             chars).
  2:{ intros x _. rewrite not_elem_of_app, not_elem_of_cons. subst cid.
      split; [intros [(?&?&?) ?]|intros (?&?&?&?&?)]; repeat split; try done.
      apply not_elem_of_nil. }
  rewrite Nat.add_comm. f_equal.
  subst cid. repeat case_decide; tauto || lia.
Qed.

Lemma list_remove_NoDup crew crew' cid :
  NoDup crew → list_remove cid crew = Some crew' →
  NoDup crew' ∧ (cid ∉ crew') ∧ ∀ x, x ∈ crew ↔ x = cid ∨ x ∈ crew'.
Proof.
  revert crew'. induction crew as [|y l IH]; intros crew'; cbn [list_remove];
    [discriminate|].
  rewrite NoDup_cons. intros [Hy Hnd]. case_bool_decide as E.
  - intros [= <-]. subst y. split; [done|]. split; [done|].
    intros x. by rewrite elem_of_cons.
  - destruct (list_remove cid l) as [r|]; [|discriminate].
    intros [= <-]. destruct (IH r Hnd eq_refl) as (Hr & Hc & Hx).
    split; [|split].
    + apply NoDup_cons. split; [|done]. intros Hin. apply Hy, Hx. by right.
    + apply not_elem_of_cons. split; [congruence|done].
    + intros x. rewrite !elem_of_cons, Hx. tauto.
Qed.

Lemma on_bank_remove chars crew crew' cid ch side ty :
  NoDup (id <$> chars) → ch ∈ chars → id ch = cid →
  NoDup crew → list_remove cid crew = Some crew' →
  on_bank chars crew' side ty
  = on_bank chars crew side ty
    + (if decide (type ch = ty ∧ location ch = side) then 1 else 0).
Proof.
  intros Hids Hin E Hnd Hrem.
  destruct (list_remove_NoDup _ _ _ Hnd Hrem) as (_ & Hout & Hx).
  unfold on_bank.
  rewrite (length_filter_split
             (λ x, type x = ty ∧ location x = side ∧ id x ∉ crew')
             (λ x, id x = id ch) chars).
  rewrite (count_by_id chars ch
             (λ x, type x = ty ∧ location x = side ∧ id x ∉ crew')) by done.
  rewrite (length_filter_iff
             (λ x, (type x = ty ∧ location x = side ∧ id x ∉ crew')
                   ∧ id x ≠ id ch)
             (λ x, type x = ty ∧ location x = side ∧ id x ∉ crew) chars).
  2:{ intros x _. rewrite (Hx (id x)). subst cid. tauto. }
  rewrite Nat.add_comm. f_equal. subst cid. repeat case_decide; tauto || lia.
Qed.

(** The characters after the passenger loop. *)
Lemma land_passengers_chars side crew g g2 :
  NoDup (id <$> characters g) →
  land_passengers side crew g = Return g2 →
  characters g2
  = (λ ch, if decide (id ch ∈ crew) then relocate side ch else ch)
    <$> characters g.
Proof.
  revert g. induction crew as [|cid rest IH]; intros g Hids;
    cbn [land_passengers].
  - intros [= <-]. rewrite <- (list_fmap_id (characters g)) at 1.
    apply list_fmap_ext. intros i x _. rewrite decide_False; [done|].
    apply not_elem_of_nil.
  - destruct (get_character g cid) as [ch|]; [|discriminate].
    intros H. apply IH in H.
    2:{ cbn [characters set_state move_character].
        by rewrite set_location_ids. }
    rewrite H. cbn [characters set_state move_character].
    rewrite set_location_fmap, <- list_fmap_compose by done.
    apply list_fmap_ext. intros i x _. cbn.
    destruct (decide (id x = cid)) as [E|E].
    + rewrite (decide_True (P := id x ∈ cid :: rest)) by (subst; by left).
      cbn. by case_decide.
    + destruct (decide (id x ∈ rest)) as [Hr|Hr].
      * by rewrite (decide_True (P := id x ∈ cid :: rest)) by (by right).
      * rewrite (decide_False (P := id x ∈ cid :: rest)); [done|].
        intros [?|?]%elem_of_cons; done.
Qed.

Lemma length_filter_const {A} (C : Prop) `{Decision C} (l : list A) :
  length (filter (λ _, C) l) = if decide C then length l else 0.
Proof.
  induction l as [|x l IH]; [by case_decide|].
  rewrite filter_cons. destruct (decide C); cbn [length]; by rewrite ?IH.
Qed.

Lemma initial_ids_NoDup (m c : Z) : NoDup (id <$> initial_characters m c).
Proof.
  unfold initial_characters.
  change (@map Z Character) with (@fmap list _ Z Character).
  rewrite fmap_app, <- !list_fmap_compose.
  apply NoDup_app. split; [|split].
  - apply NoDup_fmap_2_strong; [|apply NoDup_seqZ].
    intros x y _ _. cbn. intros [= E]. by apply (inj pretty).
  - intros s (x & -> & _)%list_elem_of_fmap (y & E & _)%list_elem_of_fmap.
    cbn in E. discriminate.
  - apply NoDup_fmap_2_strong; [|apply NoDup_seqZ].
    intros x y _ _. cbn. intros [= E]. by apply (inj pretty).
Qed.

Lemma initialize_game_consistent (m c k : Z) :
  (0 ≤ m)%Z → (0 ≤ c)%Z → consistent (initialize_game m c k).
Proof.
  intros Hm Hc. split; [apply initial_ids_NoDup|].
  split; [constructor|]. split; [by intros cid ?%elem_of_nil|].
  intros side ty. rewrite standing_on_bank. unfold on_bank.
  cbn [initialize_game state characters boat_crew].
  unfold initial_characters.
  change (@map Z Character) with (@fmap list _ Z Character).
  rewrite filter_app, length_app, !length_filter_fmap. cbn [type location id].
  rewrite (length_filter_iff _ (λ _, MISSIONARY = ty ∧ LEFT = side)
             (seqZ 1 m)),
          (length_filter_iff _ (λ _, CANNIBAL = ty ∧ LEFT = side)
             (seqZ (1 + 0 `max` m) c));
    try (intros x _; split; [tauto|];
         intros [? ?]; repeat split; try done; apply not_elem_of_nil).
  rewrite !length_filter_const, !length_seqZ.
  destruct side, ty; cbn [bank_count missionaries_left cannibals_left
    missionaries_right cannibals_right];
    repeat case_decide; first [lia | exfalso; intuition congruence].
Qed.

Lemma bank_count_set_boat_crew side ty crew st :
  bank_count side ty (set_boat_crew crew st) = bank_count side ty st.
Proof. by destruct side, ty. Qed.

Lemma consistent_check g :
  consistent g → consistent (_check_game_status g).
Proof.
  unfold _check_game_status. destruct (negb _); [done|]. by destruct (_ && _).
Qed.

Lemma add_to_boat_consistent g cid g' msg :
  consistent g → add_to_boat g cid = Return (g', (true, msg)) → consistent g'.
Proof.
  intros (Hids & Hnd & Hcrew & Hcount) H.
  apply add_to_boat_success in H
    as (ch & Hch & Hloc & _ & Hfresh & _ & _ & ->).
  unfold get_character in Hch. pose proof (find_by_id _ _ _ Hch) as [Hin Hid].
  destruct (update_side_counts_frame (boat_side (state g)) (type ch) (-1)
              (set_boat_crew (boat_crew (state g) ++ [cid]) (state g)))
    as (Eside & Ecrew & _).
  unfold consistent. cbn [state characters]. rewrite Eside, Ecrew.
  cbn [set_boat_crew boat_crew boat_side].
  split; [done|]. split; [|split].
  - apply NoDup_app. split; [done|]. split; [|apply NoDup_singleton].
    intros x Hx Hx'. apply list_elem_of_singleton in Hx' as ->. done.
  - intros x [Hx|Hx]%elem_of_app; [by apply Hcrew|].
    apply list_elem_of_singleton in Hx as ->. by exists ch.
  - intros side ty. rewrite standing_on_bank. cbn [state characters].
    rewrite Ecrew. cbn [set_boat_crew boat_crew].
    rewrite update_side_counts_bank, bank_count_set_boat_crew, Hcount,
      standing_on_bank.
    rewrite (on_bank_add _ _ cid ch side ty) by done.
    bank_cases.
Qed.

Lemma remove_from_boat_consistent g cid g' msg :
  consistent g → remove_from_boat g cid = Return (g', (true, msg)) →
  consistent g'.
Proof.
  intros (Hids & Hnd & Hcrew & Hcount) H.
  apply remove_from_boat_success in H
    as (ch & crew' & _ & Hin & Hch & Hrem & _ & ->).
  unfold get_character in Hch. pose proof (find_by_id _ _ _ Hch) as [Hch_in Hid].
  destruct (Hcrew cid Hin) as (ch0 & Hin0 & Hid0 & Hloc0).
  assert (ch0 = ch) as -> by (apply (unique_id (characters g)); congruence || done).
  rewrite <- Hloc0, (set_location_same _ _ _ Hch), Hloc0.
  destruct (list_remove_NoDup _ _ _ Hnd Hrem) as (Hnd' & Hout & Hx).
  destruct (update_side_counts_frame (boat_side (state g)) (type ch) 1
              (set_boat_crew crew' (state g))) as (Eside & Ecrew & _).
  unfold consistent. cbn [state characters]. rewrite Eside, Ecrew.
  cbn [set_boat_crew boat_crew boat_side].
  split; [done|]. split; [done|]. split.
  - intros x Hx'. apply Hcrew, Hx. by right.
  - intros side ty. rewrite standing_on_bank. cbn [state characters].
    rewrite Ecrew. cbn [set_boat_crew boat_crew].
    rewrite update_side_counts_bank, bank_count_set_boat_crew, Hcount,
      standing_on_bank.
    rewrite (on_bank_remove _ _ crew' cid ch side ty Hids Hch_in Hid Hnd Hrem).
    bank_cases.
Qed.

Lemma travel_consistent g g' msg :
  consistent g → travel g = Return (g', (true, msg)) → consistent g'.
Proof.
  intros (Hids & Hnd & Hcrew & Hcount) H.
  apply travel_success_record in H as (_ & _ & _ & _ & g2 & Hland & ->).
  cbn zeta. apply consistent_check.
  pose proof (λ H, land_passengers_chars _ _ _ _ H Hland) as Hchars.
  specialize (Hchars Hids).
  pose proof (land_passengers_bank _ _ _ _ Hland) as Hbank.
  cbn [characters set_state state] in Hchars, Hbank.
  unfold consistent. cbn [state characters move_history set_move_count
    set_boat_crew boat_crew boat_side].
  split; [|split; [constructor|split; [by intros x ?%elem_of_nil|]]].
  - rewrite Hchars, <- list_fmap_compose.
    rewrite (list_fmap_ext _ id (characters g)); [done|].
    intros i x _. cbn. by case_decide.
  - intros side ty. rewrite standing_on_bank.
    cbn [state characters set_move_count set_boat_crew boat_crew].
    change (bank_count side ty (set_move_count _ (set_boat_crew [] (state g2))))
      with (bank_count side ty (state g2)).
    rewrite Hbank.
    change (bank_count side ty (set_boat_side _ (state g)))
      with (bank_count side ty (state g)).
    rewrite Hcount, standing_on_bank, Hchars.
    set (new := opposite (boat_side (state g))).
    set (crew := boat_crew (state g)).
    set (chars := characters g).
    assert (Hnew : new ≠ boat_side (state g))
      by (subst new; by destruct (boat_side (state g))).
    assert (Hknown : ∀ cid, cid ∈ crew → ∃ ch, ch ∈ chars ∧ id ch = cid).
    { intros x Hx. destruct (Hcrew x Hx) as (ch & ? & ? & _). by exists ch. }
    assert (Hafter :
      on_bank ((λ ch, if decide (id ch ∈ crew) then relocate new ch else ch)
               <$> chars) [] side ty
      = length (filter (λ x, type x = ty
                             ∧ (if decide (id x ∈ crew) then new
                                else location x) = side) chars)).
    { unfold on_bank. rewrite length_filter_fmap.
      apply length_filter_iff. intros x _.
      case_decide; cbn; split; intros (? & ? & ?) || intros (? & ?);
        repeat split; try done; apply not_elem_of_nil. }
    rewrite Hafter. clear Hafter.
    destruct (decide (side = new)) as [->|Hside].
    + rewrite <- (count_crew_type chars crew ty Hids Hnd Hknown).
      rewrite <- Nat2Z.inj_add. f_equal.
      rewrite (length_filter_split
                 (λ x, type x = ty
                       ∧ (if decide (id x ∈ crew) then new else location x)
                         = new)
                 (λ x, id x ∈ crew) chars).
      rewrite Nat.add_comm. unfold on_bank. f_equal.
      * apply length_filter_iff. intros x _.
        case_decide as Hd; split; intros Hp; destruct_and?; repeat split; done.
      * apply length_filter_iff. intros x _.
        case_decide as Hd; split; intros Hp; destruct_and?; repeat split; done.
    + rewrite Z.add_0_r. f_equal. unfold on_bank.
      apply length_filter_iff. intros x Hx.
      case_decide as Hin.
      * split; [intros (_ & _ & ?); done|].
        intros (_ & E). destruct (Hcrew _ Hin) as (ch & Hch & Hid & Hloc).
        congruence.
      * split; intros Hp; destruct_and?; repeat split; done.
Qed.

Lemma step_consistent g op g' :
  consistent g → step g op = Return g' → consistent g'.
Proof.
  intros Hc Hstep. apply step_cases in Hstep as [->|[H|[H|H]]]; [done|..].
  - destruct H as (cid & msg & H). by eapply add_to_boat_consistent.
  - destruct H as (cid & msg & H). by eapply remove_from_boat_consistent.
  - destruct H as (msg & H). by eapply travel_consistent.
Qed.

Lemma reachable_consistent (m c k : Z) g :
  (0 ≤ m)%Z → (0 ≤ c)%Z → reachable m c k g → consistent g.
Proof.
  intros Hm Hc. induction 1 as [|g op g' _ IH Hstep];
    [by apply initialize_game_consistent|by eapply step_consistent].
Qed.

End Consistency.

(** ** The river engine, operation by operation *)

Section RiverOutcomes.

Implicit Types (g : Game) (cid : string) (crew : list string).

Lemma set_location_get chars cid side ch :
  find (λ ch, bool_decide (id ch = cid)) chars = Some ch →
  find (λ ch, bool_decide (id ch = cid)) (set_location cid side chars)
  = Some (mkCharacter (id ch) (type ch) side).
Proof.
  induction chars as [|x l IH]; cbn [find set_location]; [done|].
  destruct (bool_decide (id x = cid)) eqn:E.
  - intros [= <-]. cbn [find]. cbn. by rewrite E.
  - intros H. cbn [find]. rewrite E. by apply IH.
Qed.

(** Only the first character with the id is touched. *)
Lemma set_location_split chars cid side ch :
  find (λ ch, bool_decide (id ch = cid)) chars = Some ch →
  ∃ pre post,
    chars = pre ++ ch :: post
    ∧ (∀ x, x ∈ pre → id x ≠ cid)
    ∧ set_location cid side chars
      = pre ++ mkCharacter (id ch) (type ch) side :: post.
Proof.
  induction chars as [|x l IH]; cbn [find set_location]; [done|].
  case_bool_decide as E.
  - intros [= <-]. exists [], l. split; [done|]. split; [|done].
    intros y Hy. by apply elem_of_nil in Hy.
  - intros H. destruct (IH H) as (pre & post & -> & Hpre & ->).
    exists (x :: pre), post. split; [done|]. split; [|done].
    intros y [->|Hy]%elem_of_cons; [done|by apply Hpre].
Qed.

Lemma land_passengers_raise side crew g e :
  land_passengers side crew g = Raise e →
  e = AttributeError
  ∧ ∃ cid, cid ∈ crew ∧ type_of (characters g) cid = None.
Proof.
  revert g. induction crew as [|cid rest IH]; intros g; cbn [land_passengers];
    [discriminate|].
  destruct (get_character g cid) as [ch|] eqn:Hch.
  - intros H. apply IH in H as (-> & x & Hx & Hty). split; [done|].
    exists x. split; [by right|].
    cbn [characters set_state move_character] in Hty.
    by rewrite type_of_set_location in Hty.
  - intros [= <-]. split; [done|]. exists cid. split; [by left|].
    unfold type_of. unfold get_character in Hch. by rewrite Hch.
Qed.


Lemma add_to_boat_same_frame g cid g' msg :
  add_to_boat g cid = Return (g', (true, msg)) → same_frame g g'.
Proof.
  intros H. apply add_to_boat_success in H
    as (ch & _ & _ & _ & _ & _ & _ & ->).
  destruct (update_side_counts_frame (boat_side (state g)) (type ch) (-1)
              (set_boat_crew (boat_crew (state g) ++ [cid]) (state g)))
    as (E1 & E2 & E3 & E4 & E5 & E6 & E7 & E8).
  unfold same_frame. cbn [state characters move_history].
  rewrite E1, E3, E4, E5, E6, E7, E8. by repeat split.
Qed.

Lemma remove_from_boat_same_frame g cid g' msg :
  remove_from_boat g cid = Return (g', (true, msg)) → same_frame g g'.
Proof.
  intros H. apply remove_from_boat_success in H
    as (ch & crew' & _ & _ & _ & _ & _ & ->).
  destruct (update_side_counts_frame (boat_side (state g)) (type ch) 1
              (set_boat_crew crew' (state g)))
    as (E1 & E2 & E3 & E4 & E5 & E6 & E7 & E8).
  unfold same_frame. cbn [state characters move_history].
  rewrite E1, E3, E4, E5, E6, E7, E8. repeat split.
  intros x. apply type_of_set_location.
Qed.

(** What a successful crossing changes. *)
Lemma travel_success_effects g g' msg :
  travel g = Return (g', (true, msg)) →
  is_game_over (state g) = false
  ∧ boat_crew (state g) ≠ []
  ∧ (Z.of_nat (length (boat_crew (state g))) ≤ boat_capacity (state g))%Z
  ∧ msg = MsgTraveled (opposite (boat_side (state g)))
  ∧ boat_side (state g') = opposite (boat_side (state g))
  ∧ boat_crew (state g') = []
  ∧ move_count (state g') = (move_count (state g) + 1)%Z
  ∧ boat_capacity (state g') = boat_capacity (state g)
  ∧ (∀ side ty,
       bank_count side ty (state g')
       = (bank_count side ty (state g)
          + if decide (side = opposite (boat_side (state g)))
            then count_type (characters g) ty (boat_crew (state g))
            else 0)%Z)
  ∧ ∃ r, move_history g' = move_history g ++ [r]
      ∧ move_number r = (move_count (state g) + 1)%Z
      ∧ from_side r = boat_side (state g)
      ∧ to_side r = opposite (boat_side (state g))
      ∧ passengers r = boat_crew (state g)
      ∧ state_before r = _get_state_snapshot g
      ∧ snap_boat_crew_count (state_after r) = 0%Z
      ∧ snap_boat_side (state_after r) = opposite (boat_side (state g)).
Proof.
  intros E.
  apply travel_success_record in E
    as (Hover & Hcrew & Hcap & -> & g2 & Hland & ->).
  pose proof (land_passengers_bank _ _ _ _ Hland) as Hbank.
  apply land_passengers_frame in Hland
    as [(F1 & F2 & F3 & F4 & F5 & F6 & F7 & F8 & F9) Fcrew].
  cbn [state set_state set_boat_side characters move_history is_game_over
       is_won boat_side boat_capacity total_missionaries total_cannibals
       move_count boat_crew] in *.
  cbn zeta.
  match goal with |- context [_check_game_status ?g0] =>
    set (g5 := g0);
    assert (Hchk : state (_check_game_status g5)
                   = state g5
                   ∨ ∃ a b, state (_check_game_status g5)
                            = set_flags a b (state g5));
    [unfold _check_game_status; destruct (negb _);
       [right; by eexists _, _|];
     destruct (_ && _); [right; by eexists _, _|by left]|];
    assert (Hhist : move_history (_check_game_status g5) = move_history g5);
    [unfold _check_game_status; destruct (negb _); [done|];
     by destruct (_ && _)|]
  end.
  repeat (split; [done|]).
  split.
  { destruct Hchk as [->|(a & b & ->)]; subst g5; cbn; done. }
  split.
  { destruct Hchk as [->|(a & b & ->)]; subst g5; cbn; done. }
  split.
  { destruct Hchk as [->|(a & b & ->)]; subst g5; cbn; by rewrite F7. }
  split.
  { destruct Hchk as [->|(a & b & ->)]; subst g5; cbn; done. }
  split.
  { intros side ty.
    transitivity (bank_count side ty (state g2));
      [destruct Hchk as [->|(a & b & ->)]; subst g5; by destruct side, ty|].
    rewrite (Hbank side ty). by destruct side, ty. }
  rewrite Hhist. subst g5. cbn [move_history]. rewrite F8.
  eexists. split; [reflexivity|]. cbn. repeat split; by rewrite ?F3.
Qed.

End RiverOutcomes.

(** X9. What [remove_from_boat] does.  It refuses, leaving the game as it is,
    exactly when the game is over or the id is not aboard.  Otherwise the
    first occurrence of the id leaves the crew, the first character with
    that id is placed on the boat's bank, that bank's count for the
    character's type grows by one and nothing else changes: every other
    character keeps its place in the list and its location, and the
    flags, the boat's bank, the capacity, the totals, the move counter
    and the history stay as they are.  It raises ([None] has no
    [location]) only when the id is aboard but names no character. *)
Theorem remove_from_boat_outcome (g : Game) (cid : string) :
  match remove_from_boat g cid with
  | Return (g', (false, msg)) =>
      g' = g
      ∧ ((is_game_over (state g) = true ∧ msg = MsgGameOver)
         ∨ (is_game_over (state g) = false ∧ (cid ∉ boat_crew (state g))
            ∧ msg = MsgNotOnBoat))
  | Return (g', (true, msg)) =>
      is_game_over (state g) = false
      ∧ cid ∈ boat_crew (state g)
      ∧ msg = MsgRemoved cid
      ∧ list_remove cid (boat_crew (state g)) = Some (boat_crew (state g'))
      ∧ same_frame g g'
      ∧ ∃ ch pre post,
          get_character g cid = Some ch
          ∧ characters g = pre ++ ch :: post
          ∧ (∀ x, x ∈ pre → id x ≠ cid)
          ∧ characters g'
            = pre ++ mkCharacter cid (type ch) (boat_side (state g)) :: post
          ∧ get_character g' cid
            = Some (mkCharacter cid (type ch) (boat_side (state g)))
          ∧ ∀ side ty,
              bank_count side ty (state g')
              = (bank_count side ty (state g)
                 + if decide (side = boat_side (state g) ∧ ty = type ch)
                   then 1 else 0)%Z
  | Raise e =>
      e = AttributeError
      ∧ is_game_over (state g) = false
      ∧ cid ∈ boat_crew (state g)
      ∧ get_character g cid = None
  end.
Proof.
  destruct (remove_from_boat g cid) as [[g' [[|] msg]]|e] eqn:E.
  - pose proof (remove_from_boat_same_frame _ _ _ _ E) as Hframe.
    apply remove_from_boat_success in E
      as (ch & crew' & Hover & Hin & Hch & Hrem & -> & ->).
    destruct (update_side_counts_frame (boat_side (state g)) (type ch) 1
                (set_boat_crew crew' (state g)))
      as (E1 & E2 & E3 & E4 & E5 & E6 & E7 & E8).
    split; [done|]. split; [done|]. split; [done|].
    cbn [state]. rewrite E2. split; [done|]. split.
    + exact Hframe.
    + assert (Hid : id ch = cid) by (by apply find_by_id in Hch as [_ ?]).
      destruct (set_location_split (characters g) cid (boat_side (state g))
                  ch Hch) as (pre & post & Hchars & Hpre & Hset).
      exists ch, pre, post. split; [done|]. split; [done|].
      split; [done|]. split; [|split].
      * cbn [characters]. by rewrite Hset, Hid.
      * unfold get_character in *. cbn [characters].
        rewrite (set_location_get _ _ _ _ Hch). by rewrite Hid.
      * intros side ty. by rewrite update_side_counts_bank,
          bank_count_set_boat_crew.
  - revert E. unfold remove_from_boat, can_remove_from_boat.
    destruct (is_game_over (state g)) eqn:Hover;
      [intros [= <- <-]; split; [done|]; by left|].
    case_bool_decide as Hin; cbn [negb].
    + destruct (list_remove _ _); [|discriminate].
      destruct (get_character g cid); discriminate.
    + intros [= <- <-]. split; [done|]. by right.
  - revert E. unfold remove_from_boat, can_remove_from_boat.
    destruct (is_game_over (state g)) eqn:Hover; [discriminate|].
    case_bool_decide as Hin; cbn [negb]; [|discriminate].
    destruct (list_remove_elem _ _ Hin) as [crew' ->].
    destruct (get_character g cid); [discriminate|]. by intros [= <-].
Qed.

(** X10. What [travel] does.  It refuses, leaving the game as it is, exactly
    when the game is over, the boat is empty or the crew exceeds the
    capacity.  Otherwise the boat changes bank, the crew is emptied, each
    passenger is added to the new bank's count, the move counter grows by
    one and one record is appended to the history: numbered with the new
    counter, with the old crew as passengers, the snapshot before, and an
    empty boat in the snapshot after.  It raises only when a crew id names
    no character. *)
Theorem travel_outcome (g : Game) :
  match travel g with
  | Return (g', (false, msg)) =>
      g' = g
      ∧ ((is_game_over (state g) = true ∧ msg = MsgGameOver)
         ∨ (is_game_over (state g) = false ∧ boat_crew (state g) = []
            ∧ msg = MsgEmptyBoat)
         ∨ (is_game_over (state g) = false ∧ boat_crew (state g) ≠ []
            ∧ (boat_capacity (state g)
               < Z.of_nat (length (boat_crew (state g))))%Z
            ∧ msg = MsgTooMany (boat_capacity (state g))))
  | Return (g', (true, msg)) =>
      is_game_over (state g) = false
      ∧ boat_crew (state g) ≠ []
      ∧ (Z.of_nat (length (boat_crew (state g))) ≤ boat_capacity (state g))%Z
      ∧ msg = MsgTraveled (opposite (boat_side (state g)))
      ∧ boat_side (state g') = opposite (boat_side (state g))
      ∧ boat_crew (state g') = []
      ∧ move_count (state g') = (move_count (state g) + 1)%Z
      ∧ boat_capacity (state g') = boat_capacity (state g)
      ∧ (∀ side ty,
           bank_count side ty (state g')
           = (bank_count side ty (state g)
              + if decide (side = opposite (boat_side (state g)))
                then count_type (characters g) ty (boat_crew (state g))
                else 0)%Z)
      ∧ ∃ r, move_history g' = move_history g ++ [r]
          ∧ move_number r = (move_count (state g) + 1)%Z
          ∧ from_side r = boat_side (state g)
          ∧ to_side r = opposite (boat_side (state g))
          ∧ passengers r = boat_crew (state g)
          ∧ state_before r = _get_state_snapshot g
          ∧ snap_boat_crew_count (state_after r) = 0%Z
          ∧ snap_boat_side (state_after r) = opposite (boat_side (state g))
  | Raise e =>
      e = AttributeError
      ∧ ∃ cid, cid ∈ boat_crew (state g) ∧ get_character g cid = None
  end.
Proof.
  destruct (travel g) as [[g' [[|] msg]]|e] eqn:E.
  - exact (travel_success_effects _ _ _ E).
  - pose proof (travel_failure _ _ _ E) as ->. split; [done|].
    revert E. unfold travel, can_travel.
    destruct (is_game_over (state g)) eqn:Hover;
      [intros [= <-]; by left|].
    destruct (Z.eqb_spec (Z.of_nat (length (boat_crew (state g)))) 0) as [H0|H0].
    { intros [= <-]. right; left. split; [done|]. split; [|done].
      destruct (boat_crew (state g)); [done|]. cbn in H0. lia. }
    destruct (Z.ltb_spec (boat_capacity (state g))
                (Z.of_nat (length (boat_crew (state g))))).
    + intros [= <-]. right; right. repeat split; try done.
      intros Hnil. rewrite Hnil in H0. done.
    + cbn [negb]. destruct (land_passengers _ _ _); discriminate.
  - revert E. unfold travel, can_travel.
    destruct (is_game_over (state g)); [discriminate|].
    destruct (Z.eqb_spec (Z.of_nat (length (boat_crew (state g)))) 0);
      [discriminate|].
    destruct (Z.ltb_spec (boat_capacity (state g))
                (Z.of_nat (length (boat_crew (state g))))); [discriminate|].
    cbn [negb]. cbn [set_state state set_boat_side boat_crew].
    match goal with |- context [land_passengers ?s ?c ?g0] =>
      destruct (land_passengers s c g0) as [g2|e'] eqn:Hland end;
      [discriminate|].
    intros [= <-]. apply land_passengers_raise in Hland as (-> & x & Hx & Hty).
    split; [done|]. exists x. split; [done|].
    unfold type_of in Hty. cbn [characters set_state] in Hty.
    unfold get_character. by destruct (find _ (characters g)).
Qed.

(** ** What holds in every game a session can reach *)

Section RiverSessions.

Implicit Types (g : Game) (cid : string) (crew : list string).

Lemma game_over_step g op :
  is_game_over (state g) = true → step g op = Return g.
Proof.
  intros Hover. destruct op as [cid|cid|]; cbn [step].
  - unfold add_to_boat, can_add_to_boat. by rewrite Hover.
  - unfold remove_from_boat, can_remove_from_boat. by rewrite Hover.
  - unfold travel, can_travel. by rewrite Hover.
Qed.

(** A step changes nothing, loads or unloads within the frame, or crosses. *)
Lemma step_kinds g op g' :
  step g op = Return g' →
  g' = g
  ∨ (is_game_over (state g) = false ∧ same_frame g g')
  ∨ (∃ msg, travel g = Return (g', (true, msg))).
Proof.
  intros Hstep. apply step_cases in Hstep as [->|[H|[H|H]]]; [by left|..].
  - destruct H as (cid & msg & H). right; left. split.
    + by apply add_to_boat_success in H as (? & _ & _ & ? & _).
    + by eapply add_to_boat_same_frame.
  - destruct H as (cid & msg & H). right; left. split.
    + by apply remove_from_boat_success in H as (? & ? & ? & _).
    + by eapply remove_from_boat_same_frame.
  - by right; right.
Qed.

Lemma check_game_status_flags g :
  is_game_over (state g) = false →
  is_won (state g) = false →
  let g' := _check_game_status g in
  (is_won (state g') = true →
     is_game_over (state g') = true
     ∧ is_current_state_safe g' = true
     ∧ missionaries_left (state g') = 0%Z
     ∧ cannibals_left (state g') = 0%Z
     ∧ boat_crew (state g') = [])
  ∧ (is_game_over (state g') = true → is_won (state g') = false →
     is_current_state_safe g' = false)
  ∧ (is_game_over (state g') = false → is_won (state g') = false).
Proof.
  intros Hover Hwon. unfold _check_game_status.
  destruct (is_current_state_safe g) eqn:Hsafe; cbn [negb].
  - destruct (Z.eqb_spec (missionaries_left (state g)) 0) as [Hm|Hm];
      cbn [andb]; [|by rewrite Hover, Hwon].
    destruct (Z.eqb_spec (cannibals_left (state g)) 0) as [Hc|Hc];
      cbn [andb]; [|by rewrite Hover, Hwon].
    destruct (Z.eqb_spec (Z.of_nat (length (boat_crew (state g)))) 0)
      as [Hb|Hb]; [|by rewrite Hover, Hwon].
    cbn. split; [|done]. intros _. repeat split; try done.
    destruct (boat_crew (state g)); [done|]. cbn in Hb. lia.
  - cbn. split; [done|]. split; [|done]. intros _ _.
    revert Hsafe. unfold is_current_state_safe. by cbn.
Qed.

Variables m c k : Z.

(** The terminal flags say what they mean. *)
Lemma reachable_flags g :
  reachable m c k g →
  (is_won (state g) = true →
     is_game_over (state g) = true
     ∧ is_current_state_safe g = true
     ∧ missionaries_left (state g) = 0%Z
     ∧ cannibals_left (state g) = 0%Z
     ∧ boat_crew (state g) = [])
  ∧ (is_game_over (state g) = true → is_won (state g) = false →
     is_current_state_safe g = false)
  ∧ (is_game_over (state g) = false → is_won (state g) = false).
Proof.
  induction 1 as [|g op g' Hreach IH Hstep]; [by cbn|].
  destruct (is_game_over (state g)) eqn:Hover.
  { rewrite game_over_step in Hstep by done. injection Hstep as <-.
    by rewrite Hover. }
  destruct IH as (_ & _ & IH). specialize (IH eq_refl).
  apply step_kinds in Hstep as [->|[[_ H]|[msg H]]].
  - by rewrite Hover, IH.
  - destruct H as (Ho & Hw & _). rewrite Ho, Hw, Hover, IH. done.
  - apply travel_success in H as (_ & _ & g2 & Hland & hist & ->).
    apply land_passengers_frame in Hland as [(F1 & F2 & _) _].
    cbn [state set_state set_boat_side is_game_over is_won] in F1, F2.
    apply check_game_status_flags; cbn; congruence.
Qed.

(** The move counter, the boat's bank and the history go together. *)
Lemma reachable_history g :
  reachable m c k g →
  move_count (state g) = Z.of_nat (length (move_history g))
  ∧ boat_side (state g)
    = (if Nat.even (length (move_history g)) then LEFT else RIGHT)
  ∧ ∀ (i : nat) r, move_history g !! i = Some r →
      move_number r = (Z.of_nat i + 1)%Z
      ∧ from_side r = (if Nat.even i then LEFT else RIGHT)
      ∧ to_side r = opposite (from_side r)
      ∧ passengers r ≠ []
      ∧ (Z.of_nat (length (passengers r)) ≤ k)%Z
      ∧ snap_boat_side (state_before r) = from_side r
      ∧ snap_boat_crew_count (state_before r)
        = Z.of_nat (length (passengers r))
      ∧ snap_boat_side (state_after r) = to_side r
      ∧ snap_boat_crew_count (state_after r) = 0%Z.
Proof.
  induction 1 as [|g op g' Hreach IH Hstep].
  { split; [done|]. split; [done|]. intros i r Hi. by cbn in Hi. }
  pose proof (reachable_parameters m c k g Hreach) as (_ & _ & Hk).
  destruct IH as (Hcount & Hside & Hrec).
  apply step_kinds in Hstep as [->|[[_ H]|[msg H]]]; [done|..].
  - destruct H as (_ & _ & Hs & _ & _ & _ & Hm & Hh & _).
    by rewrite Hs, Hm, Hh.
  - apply travel_success_effects in H
      as (_ & Hne & Hcap & _ & Hs & _ & Hm & _ & _ & r & Hh & R1 & R2 & R3
          & R4 & R5 & R6 & R7).
    rewrite Hh, length_app, Hm, Hs, Hside. cbn [length].
    replace (length (move_history g) + 1)%nat
      with (S (length (move_history g))) by lia.
    split; [lia|]. split.
    { rewrite Nat.even_succ, <- Nat.negb_even.
      by destruct (Nat.even (length (move_history g))). }
    intros i r' Hi. apply lookup_app_Some in Hi as [Hi|[Hlen Hi]];
      [by apply Hrec|].
    apply list_lookup_singleton_Some in Hi as [Hi <-].
    assert (i = length (move_history g)) as -> by lia.
    rewrite R1, R2, R3, R4, R5, R6, R7, Hcount, Hside, Hk in *.
    by repeat split.
Qed.

End RiverSessions.

Section RiverRoster.

Implicit Types (g : Game) (cid : string) (crew : list string)
  (chars : list Character).

Lemma relocate_set_location s cid side chars :
  relocate s <$> set_location cid side chars = relocate s <$> chars.
Proof.
  induction chars as [|ch rest IH]; [done|]. cbn [set_location].
  case_bool_decide; [done|]. by rewrite !fmap_cons, IH.
Qed.

Lemma land_passengers_roster s side crew g g2 :
  land_passengers side crew g = Return g2 →
  relocate s <$> characters g2 = relocate s <$> characters g.
Proof.
  revert g. induction crew as [|cid rest IH]; intros g; cbn [land_passengers].
  - by intros [= <-].
  - destruct (get_character g cid); [|discriminate].
    intros H. rewrite (IH _ H). cbn [characters set_state move_character].
    apply relocate_set_location.
Qed.

(** The characters stay the ones [initialize_game] made; only their
    locations change. *)
Lemma reachable_roster (m c k : Z) g :
  reachable m c k g →
  relocate LEFT <$> characters g = initial_characters m c.
Proof.
  induction 1 as [|g op g' _ IH Hstep].
  - cbn [initialize_game characters]. unfold initial_characters.
    rewrite fmap_app, <- !list_fmap_compose. done.
  - rewrite <- IH.
    apply step_cases in Hstep as [->|[H|[H|H]]]; [done|..].
    + destruct H as (cid & msg & H).
      by apply add_to_boat_frame in H as (-> & _).
    + destruct H as (cid & msg & H).
      apply remove_from_boat_success in H as (ch & crew' & _ & _ & _ & _ & _ & ->).
      cbn [characters]. apply relocate_set_location.
    + destruct H as (msg & H).
      apply travel_success in H as (_ & _ & g2 & Hland & hist & ->).
      apply (land_passengers_roster LEFT) in Hland.
      cbn [characters set_state] in Hland. rewrite <- Hland.
      unfold _check_game_status. destruct (negb _); [done|].
      by destruct (_ && _).
Qed.

Lemma initial_characters_length (m c : Z) :
  Z.of_nat (length (initial_characters m c)) = (Z.max 0 m + Z.max 0 c)%Z.
Proof.
  unfold initial_characters.
  rewrite length_app, !length_map, !length_seqZ. lia.
Qed.

Lemma count_type_total chars crew :
  (∀ cid, cid ∈ crew → is_Some (type_of chars cid)) →
  (count_type chars MISSIONARY crew + count_type chars CANNIBAL crew)%Z
  = Z.of_nat (length crew).
Proof.
  induction crew as [|cid rest IH]; intros Hknown; [done|].
  rewrite !count_type_cons.
  destruct (Hknown cid) as [ty Hty]; [by left|].
  destruct (one_if_types _ _ _ Hty) as [-> ->].
  cbn [length]. rewrite Nat2Z.inj_succ, <- IH
    by (intros x Hx; apply Hknown; by right).
  destruct ty; lia.
Qed.

Lemma count_type_nonneg chars ty crew : (0 ≤ count_type chars ty crew)%Z.
Proof. unfold count_type. lia. Qed.

Lemma standing_nonneg g side ty : (0 ≤ standing g side ty)%Z.
Proof. unfold standing. lia. Qed.

End RiverRoster.

Section RiverRuns.

Implicit Types (g : Game) (ops : list Op).

Lemma run_reachable (m c k : Z) g ops g' :
  reachable m c k g → run g ops = Return g' → reachable m c k g'.
Proof.
  revert g. induction ops as [|op rest IH]; intros g Hreach; cbn [run].
  - by intros [= <-].
  - destruct (step g op) as [g1|e] eqn:Hstep; [|discriminate].
    cbn [mbind result_bind]. apply IH. by eapply reachable_step.
Qed.

Lemma run_snoc g ops op g1 :
  run g ops = Return g1 → run g (ops ++ [op]) = step g1 op.
Proof.
  revert g. induction ops as [|o rest IH]; intros g; cbn [run app].
  - intros [= <-]. by destruct (step g op).
  - destruct (step g o) as [g2|e]; [|discriminate]. cbn [mbind result_bind].
    apply IH.
Qed.

Lemma reachable_run (m c k : Z) g :
  reachable m c k g → ∃ ops, run (initialize_game m c k) ops = Return g.
Proof.
  induction 1 as [|g op g' _ [ops IH] Hstep]; [by exists []|].
  exists (ops ++ [op]). by rewrite (run_snoc _ _ _ _ IH).
Qed.

End RiverRuns.

(** X1. In every game reached from [initialize_game m c k] with
    non-negative [m] and [c], the four bank counts kept in the state are
    the numbers of characters of that type that [get_characters_on_side]
    finds on that bank; the ids are unique, the crew has no duplicates and
    stands on the boat's bank; so each count lies between 0 and the total
    of its type. *)
Theorem bank_counts_match_characters (m c k : Z) (g : Game)
    (Hm : (0 ≤ m)%Z) (Hc : (0 ≤ c)%Z) (Hreach : reachable m c k g) :
  consistent g
  ∧ ∀ side ty,
      bank_count side ty (state g) = standing g side ty
      ∧ (0 ≤ bank_count side ty (state g)
         ≤ match ty with MISSIONARY => m | CANNIBAL => c end)%Z.
Proof.
  pose proof (reachable_consistent m c k g Hm Hc Hreach) as Hcons.
  split; [done|]. destruct Hcons as (_ & _ & _ & Hbank).
  destruct (reachable_conserved m c k g Hreach) as [[Em Ec] _].
  rewrite !crew_count_eq in *.
  pose proof (count_type_nonneg (characters g) MISSIONARY (boat_crew (state g))).
  pose proof (count_type_nonneg (characters g) CANNIBAL (boat_crew (state g))).
  pose proof (λ s t, eq_ind_r (λ z, (0 ≤ z)%Z) (standing_nonneg g s t)
                       (Hbank s t)) as Hpos.
  pose proof (Hpos LEFT MISSIONARY). pose proof (Hpos LEFT CANNIBAL).
  pose proof (Hpos RIGHT MISSIONARY). pose proof (Hpos RIGHT CANNIBAL).
  intros side ty. split; [apply Hbank|].
  destruct side, ty; cbn [bank_count] in *; lia.
Qed.

Lemma bank_counts_match_characters_witness :
  ∃ g, run (initialize_game 3 3 2) [AddToBoat "M1"; AddToBoat "C4"; Travel;
                                    AddToBoat "M1"] = Return g
       ∧ consistent g
       ∧ ∀ side ty,
           bank_count side ty (state g) = standing g side ty
           ∧ (0 ≤ bank_count side ty (state g)
              ≤ match ty with MISSIONARY => 3 | CANNIBAL => 3 end)%Z.
Proof.
  eexists. split; [vm_compute; reflexivity|].
  apply (bank_counts_match_characters 3 3 2); [lia|lia|].
  eapply (run_reachable 3 3 2 _ [AddToBoat "M1"; AddToBoat "C4"; Travel;
                                 AddToBoat "M1"]);
    [apply reachable_init|vm_compute; reflexivity].
Defined.

(** X2. The roster never changes: in every reachable game the characters
    are those made by [initialize_game], up to their locations.  The three
    groups shown to the player, [get_characters_on_side] for the two banks
    and [get_characters_on_boat], split the characters between them; the
    boat group has one character per crew id and all of them are located on
    the boat's bank. *)
Theorem roster_partition (m c k : Z) (g : Game)
    (Hm : (0 ≤ m)%Z) (Hc : (0 ≤ c)%Z) (Hreach : reachable m c k g) :
  relocate LEFT <$> characters g = initial_characters m c
  ∧ Z.of_nat (length (characters g)) = (m + c)%Z
  ∧ length (get_characters_on_boat g) = length (boat_crew (state g))
  ∧ length (get_characters_on_side g LEFT)
    + length (get_characters_on_side g RIGHT)
    + length (get_characters_on_boat g) = length (characters g)
  ∧ ∀ ch, ch ∈ get_characters_on_boat g → location ch = boat_side (state g).
Proof.
  pose proof (reachable_roster m c k g Hreach) as Hroster.
  destruct (reachable_consistent m c k g Hm Hc Hreach)
    as (Hids & Hcrew & Hloc & _).
  destruct (reachable_conserved m c k g Hreach) as [_ Hknown].
  split; [done|]. split.
  { rewrite <- (length_fmap (relocate LEFT)), Hroster,
      initial_characters_length. lia. }
  unfold get_characters_on_boat, get_characters_on_side. split.
  { apply Nat2Z.inj. rewrite <- (count_type_total (characters g)) by done.
    rewrite <- !count_crew_type
      by (try done; intros x Hx; destruct (Hloc x Hx) as (ch & ? & ? & _);
          by exists ch).
    rewrite (length_filter_split (λ ch, id ch ∈ boat_crew (state g))
               (λ ch, type ch = MISSIONARY)).
    rewrite Nat2Z.inj_add. f_equal; f_equal; apply length_filter_iff.
    - intros ch _. tauto.
    - intros ch _. destruct (type ch); split; intros [? ?]; split;
        congruence. }
  split.
  { rewrite <- (length_filter_partition
                  (λ ch, id ch ∈ boat_crew (state g)) (characters g)).
    rewrite (length_filter_split (λ ch, ¬ id ch ∈ boat_crew (state g))
               (λ ch, location ch = LEFT) (characters g)).
    rewrite (length_filter_iff
               (λ ch, location ch = LEFT ∧ (id ch ∉ boat_crew (state g)))
               (λ ch, (¬ id ch ∈ boat_crew (state g)) ∧ location ch = LEFT))
      by (intros; tauto).
    rewrite (length_filter_iff
               (λ ch, location ch = RIGHT ∧ (id ch ∉ boat_crew (state g)))
               (λ ch, (¬ id ch ∈ boat_crew (state g))
                      ∧ ¬ location ch = LEFT))
      by (intros ch _; destruct (location ch); intuition congruence).
    lia. }
  intros ch Hch. apply list_elem_of_filter in Hch as [Hin Hch].
  destruct (Hloc _ Hin) as (ch' & Hch' & Hid & Hside).
  by rewrite (unique_id _ _ _ Hids Hch Hch' (eq_sym Hid)).
Qed.

Lemma roster_partition_witness :
  ∃ g, run (initialize_game 3 3 2) [AddToBoat "M1"; AddToBoat "C4"; Travel;
                                    AddToBoat "C4"] = Return g
       ∧ relocate LEFT <$> characters g = initial_characters 3 3
       ∧ Z.of_nat (length (characters g)) = (3 + 3)%Z
       ∧ length (get_characters_on_boat g) = length (boat_crew (state g))
       ∧ length (get_characters_on_side g LEFT)
         + length (get_characters_on_side g RIGHT)
         + length (get_characters_on_boat g) = length (characters g)
       ∧ ∀ ch, ch ∈ get_characters_on_boat g
               → location ch = boat_side (state g).
Proof.
  eexists. split; [vm_compute; reflexivity|].
  apply (roster_partition 3 3 2); [lia|lia|].
  eapply (run_reachable 3 3 2 _ [AddToBoat "M1"; AddToBoat "C4"; Travel;
                                 AddToBoat "C4"]);
    [apply reachable_init|vm_compute; reflexivity].
Defined.

Section RiverTravel.

Implicit Types (g : Game).

(** With a known crew, [travel] follows [can_travel]. *)
Lemma travel_follows_can_travel g :
  crew_known g →
  ∃ g' msg, travel g = Return (g', (fst (can_travel g), msg)).
Proof.
  intros Hknown. unfold travel.
  destruct (can_travel g) as [[|] m0]; cbn [negb fst]; [|by eexists _, _].
  cbn [set_state state set_boat_side boat_crew].
  match goal with |- context [land_passengers ?s ?cr ?g0] =>
    destruct (land_passengers_counts s cr g0) as (g2 & -> & _) end;
    [exact Hknown|].
  cbn [mbind result_bind]. by eexists _, _.
Qed.

End RiverTravel.

(** X3. The boat is never over capacity in a reachable game, so the
    "too many passengers" refusal of [travel] is never given; the
    [can_travel] entry of [get_game_status] is true exactly when the game
    is running with somebody aboard, and exactly when [travel] would
    succeed. *)
Theorem capacity_refusal_unreachable (m c k : Z) (g : Game)
    (Hreach : reachable m c k g) :
  (Z.of_nat (length (boat_crew (state g))) ≤ Z.max 0 k)%Z
  ∧ (∀ g' ok msg n, travel g = Return (g', (ok, msg)) → msg ≠ MsgTooMany n)
  ∧ (status_can_travel (get_game_status g) = true
     ↔ is_game_over (state g) = false ∧ boat_crew (state g) ≠ [])
  ∧ (status_can_travel (get_game_status g) = true
     ↔ ∃ g' msg, travel g = Return (g', (true, msg))).
Proof.
  pose proof (reachable_capacity m c k g Hreach) as Hcap.
  pose proof (reachable_parameters m c k g Hreach) as (_ & _ & Hk).
  destruct (reachable_conserved m c k g Hreach) as [_ Hknown].
  rewrite Hk in Hcap.
  assert (Hlen : (Z.of_nat (length (boat_crew (state g))) ≤ Z.max 0 k)%Z).
  { destruct Hcap as [->|?]; cbn [length]; lia. }
  assert (Hcan : fst (can_travel g) = true
                 ↔ is_game_over (state g) = false ∧ boat_crew (state g) ≠ []).
  { unfold can_travel. rewrite Hk.
    destruct (is_game_over (state g));
      [split; [discriminate|by intros [? _]]|].
    destruct (Z.eqb_spec (Z.of_nat (length (boat_crew (state g)))) 0) as [E|E].
    { split; [discriminate|]. intros [_ Hne]. destruct Hne.
      destruct (boat_crew (state g)); [done|]. cbn in E. lia. }
    assert (Hne : boat_crew (state g) ≠ []) by (intros Hnil; by rewrite Hnil in E).
    destruct (Z.ltb_spec k (Z.of_nat (length (boat_crew (state g)))));
      [destruct Hcap as [?|?]; [done|lia]|].
    done. }
  split; [done|]. split; [|split; [exact Hcan|]].
  - intros g' ok msg n. unfold travel, can_travel. rewrite Hk.
    destruct (is_game_over (state g)); [by intros [= <- <- <-]|].
    destruct (Z.eqb_spec (Z.of_nat (length (boat_crew (state g)))) 0) as [E|E];
      [by intros [= <- <- <-]|].
    destruct (Z.ltb_spec k (Z.of_nat (length (boat_crew (state g)))));
      [destruct Hcap as [Hnil|?]; [rewrite Hnil in E; done|lia]|].
    cbn [negb]. destruct (land_passengers _ _ _); [|discriminate].
    by intros [= <- <- <-].
  - cbn [get_game_status status_can_travel].
    destruct (travel_follows_can_travel g Hknown) as (g' & msg & E).
    split.
    + intros H. rewrite H in E. by exists g', msg.
    + intros (g1 & msg1 & E1). rewrite E1 in E. by injection E.
Qed.

Lemma capacity_refusal_unreachable_witness :
  ∃ g, run (initialize_game 3 3 2) [AddToBoat "M1"; AddToBoat "C4"]
       = Return g
       ∧ (Z.of_nat (length (boat_crew (state g))) ≤ Z.max 0 2)%Z
       ∧ (∀ g' ok msg n, travel g = Return (g', (ok, msg))
                         → msg ≠ MsgTooMany n)
       ∧ (status_can_travel (get_game_status g) = true
          ↔ is_game_over (state g) = false ∧ boat_crew (state g) ≠ [])
       ∧ (status_can_travel (get_game_status g) = true
          ↔ ∃ g' msg, travel g = Return (g', (true, msg))).
Proof.
  eexists. split; [vm_compute; reflexivity|].
  apply (capacity_refusal_unreachable 3 3 2).
  eapply (run_reachable 3 3 2 _ [AddToBoat "M1"; AddToBoat "C4"]);
    [apply reachable_init|vm_compute; reflexivity].
Defined.

(** X4. A finished game is final: once [is_game_over] is set, every call
    of [add_to_boat], [remove_from_boat] and [travel] is refused with
    "Game is over" and leaves the game as it is, so every further sequence
    of calls shows the same game at each point. *)
Theorem game_over_is_final (g : Game) (Hover : is_game_over (state g) = true) :
  (∀ cid, add_to_boat g cid = Return (g, (false, MsgGameOver)))
  ∧ (∀ cid, remove_from_boat g cid = Return (g, (false, MsgGameOver)))
  ∧ travel g = Return (g, (false, MsgGameOver))
  ∧ status_can_travel (get_game_status g) = false
  ∧ ∀ ops, trace g ops = Return (replicate (S (length ops)) g).
Proof.
  split; [|split; [|split; [|split]]].
  - intros cid. unfold add_to_boat, can_add_to_boat. by rewrite Hover.
  - intros cid. unfold remove_from_boat, can_remove_from_boat.
    by rewrite Hover.
  - unfold travel, can_travel. by rewrite Hover.
  - cbn. unfold can_travel. by rewrite Hover.
  - induction ops as [|op rest IH]; [done|]. cbn [trace].
    rewrite (game_over_step g op Hover). cbn [mbind result_bind].
    by rewrite IH.
Qed.

Lemma game_over_is_final_witness :
  ∃ g, run (initialize_game 3 3 2) [AddToBoat "M1"; AddToBoat "M2"; Travel]
       = Return g
       ∧ (∀ cid, add_to_boat g cid = Return (g, (false, MsgGameOver)))
       ∧ (∀ cid, remove_from_boat g cid = Return (g, (false, MsgGameOver)))
       ∧ travel g = Return (g, (false, MsgGameOver))
       ∧ status_can_travel (get_game_status g) = false
       ∧ ∀ ops, trace g ops = Return (replicate (S (length ops)) g).
Proof.
  eexists. split; [vm_compute; reflexivity|].
  apply game_over_is_final. vm_compute. reflexivity.
Defined.

(** X5. The move counter and the history go together in every reachable
    game: [move_count] is the length of [get_move_history], the boat is on
    the left bank exactly after an even number of crossings, and the record
    at position [i] carries number [i + 1], leaves from the left bank
    exactly when [i] is even, arrives on the other bank, lists a non-empty
    crew within the capacity, and its two snapshots show the crew aboard
    before and an empty boat on the arrival bank after. *)
Theorem move_history_log (m c k : Z) (g : Game) (Hreach : reachable m c k g) :
  move_count (state g) = Z.of_nat (length (get_move_history g))
  ∧ boat_side (state g)
    = (if Nat.even (length (get_move_history g)) then LEFT else RIGHT)
  ∧ ∀ (i : nat) r, get_move_history g !! i = Some r →
      move_number r = (Z.of_nat i + 1)%Z
      ∧ from_side r = (if Nat.even i then LEFT else RIGHT)
      ∧ to_side r = opposite (from_side r)
      ∧ passengers r ≠ []
      ∧ (Z.of_nat (length (passengers r)) ≤ k)%Z
      ∧ snap_boat_side (state_before r) = from_side r
      ∧ snap_boat_crew_count (state_before r)
        = Z.of_nat (length (passengers r))
      ∧ snap_boat_side (state_after r) = to_side r
      ∧ snap_boat_crew_count (state_after r) = 0%Z.
Proof. exact (reachable_history m c k g Hreach). Qed.

Lemma move_history_log_witness :
  ∃ g, run (initialize_game 3 3 2)
         [AddToBoat "M1"; AddToBoat "C4"; Travel; AddToBoat "M1"; Travel]
       = Return g
       ∧ move_count (state g) = 2%Z
       ∧ boat_side (state g) = LEFT
       ∧ ∀ (i : nat) r, get_move_history g !! i = Some r →
           move_number r = (Z.of_nat i + 1)%Z
           ∧ from_side r = (if Nat.even i then LEFT else RIGHT)
           ∧ to_side r = opposite (from_side r)
           ∧ passengers r ≠ []
           ∧ (Z.of_nat (length (passengers r)) ≤ 2)%Z
           ∧ snap_boat_side (state_before r) = from_side r
           ∧ snap_boat_crew_count (state_before r)
             = Z.of_nat (length (passengers r))
           ∧ snap_boat_side (state_after r) = to_side r
           ∧ snap_boat_crew_count (state_after r) = 0%Z.
Proof.
  eexists. split; [vm_compute; reflexivity|].
  match goal with |- context [move_count (state ?g0)] =>
    destruct (move_history_log 3 3 2 g0) as (H1 & H2 & H3) end.
  - eapply (run_reachable 3 3 2 _
              [AddToBoat "M1"; AddToBoat "C4"; Travel; AddToBoat "M1"; Travel]);
      [apply reachable_init|vm_compute; reflexivity].
  - split; [exact H1|]. split; [exact H2|exact H3].
Defined.

(** X6. [restart_game] on any reachable game gives back the game that
    [initialize_game] made at the start, with the same totals and
    capacity, whatever has been played. *)
Theorem restart_game_resets (m c k : Z) (g : Game)
    (Hreach : reachable m c k g) :
  restart_game g = initialize_game m c k.
Proof.
  unfold restart_game.
  by destruct (reachable_parameters m c k g Hreach) as (-> & -> & ->).
Qed.

Lemma restart_game_resets_witness :
  ∃ g, run (initialize_game 3 3 2) [AddToBoat "M1"; AddToBoat "M2"; Travel]
       = Return g
       ∧ is_game_over (state g) = true
       ∧ restart_game g = initialize_game 3 3 2.
Proof.
  eexists. split; [vm_compute; reflexivity|]. split; [reflexivity|].
  apply (restart_game_resets 3 3 2).
  eapply (run_reachable 3 3 2 _ [AddToBoat "M1"; AddToBoat "M2"; Travel]);
    [apply reachable_init|vm_compute; reflexivity].
Defined.

Section RiverWon.

(** A won game: everybody is across. *)
Lemma reachable_won (m c k : Z) (g : Game) :
  (0 ≤ m)%Z → (0 ≤ c)%Z → reachable m c k g →
  is_won (state g) = true →
  is_game_over (state g) = true
  ∧ is_current_state_safe g = true
  ∧ boat_crew (state g) = []
  ∧ (∀ ch, ch ∈ characters g → location ch = RIGHT)
  ∧ missionaries_left (state g) = 0%Z
  ∧ cannibals_left (state g) = 0%Z
  ∧ missionaries_right (state g) = m
  ∧ cannibals_right (state g) = c.
Proof.
  intros Hm Hc Hreach Hw.
  destruct (reachable_flags m c k g Hreach) as (Hwon & Hlost & Hrun).
  destruct (Hwon Hw) as (Hover & Hsafe & Hml & Hcl & Hcrew).
  destruct (reachable_consistent m c k g Hm Hc Hreach) as (_ & _ & _ & Hbank).
  destruct (reachable_conserved m c k g Hreach) as [[Em Ec] _].
  rewrite !crew_count_eq, Hcrew, !count_type_nil in *.
  repeat (split; [done|]). split; [|repeat split; lia].
  intros ch Hch. destruct (location ch) eqn:Hloc; [|done]. exfalso.
  pose proof (Hbank LEFT (type ch)) as Hb.
  assert (H0 : bank_count LEFT (type ch) (state g) = 0%Z)
    by (by destruct (type ch)).
  rewrite H0 in Hb. unfold standing, get_characters_on_side in Hb.
  assert (Hin : ch ∈ filter (λ x, type x = type ch)
                  (filter (λ x, location x = LEFT
                                ∧ (id x ∉ boat_crew (state g)))
                          (characters g))).
  { apply list_elem_of_filter. split; [done|].
    apply list_elem_of_filter. split; [|done]. split; [done|].
    rewrite Hcrew. apply not_elem_of_nil. }
  destruct (filter _ (filter _ _)); [by apply elem_of_nil in Hin|].
  cbn in Hb. lia.
Qed.

End RiverWon.

(** X7. What the terminal flags mean in a reachable game with
    non-negative [m] and [c].  A won game is over and safe, the boat lies
    empty at the right bank, every character is located on the right bank
    and the right counts are the totals.  A game that is over but not won
    is unsafe.  A game that is not over is not won. *)
Theorem terminal_flags_meaning (m c k : Z) (g : Game)
    (Hm : (0 ≤ m)%Z) (Hc : (0 ≤ c)%Z) (Hreach : reachable m c k g) :
  (is_won (state g) = true →
     is_game_over (state g) = true
     ∧ is_current_state_safe g = true
     ∧ boat_crew (state g) = []
     ∧ (∀ ch, ch ∈ characters g → location ch = RIGHT)
     ∧ missionaries_left (state g) = 0%Z
     ∧ cannibals_left (state g) = 0%Z
     ∧ missionaries_right (state g) = m
     ∧ cannibals_right (state g) = c)
  ∧ (is_game_over (state g) = true → is_won (state g) = false →
     is_current_state_safe g = false)
  ∧ (is_game_over (state g) = false → is_won (state g) = false).
Proof.
  destruct (reachable_flags m c k g Hreach) as (_ & Hlost & Hrun).
  split; [|by split]. by apply (reachable_won m c k).
Qed.

Lemma terminal_flags_meaning_witness :
  ∃ g, run (initialize_game 1 1 2) [AddToBoat "M1"; AddToBoat "C2"; Travel]
       = Return g
       ∧ is_won (state g) = true
       ∧ is_game_over (state g) = true
       ∧ (∀ ch, ch ∈ characters g → location ch = RIGHT)
       ∧ missionaries_right (state g) = 1%Z
       ∧ cannibals_right (state g) = 1%Z.
Proof.
  eexists. split; [vm_compute; reflexivity|]. split; [reflexivity|].
  match goal with |- context [characters ?g0] =>
    destruct (terminal_flags_meaning 1 1 2 g0) as (H & _) end.
  - lia.
  - lia.
  - eapply (run_reachable 1 1 2 _ [AddToBoat "M1"; AddToBoat "C2"; Travel]);
      [apply reachable_init|vm_compute; reflexivity].
  - destruct (H eq_refl) as (H1 & _ & _ & H4 & _ & _ & H7 & H8).
    split; [exact H1|]. split; [exact H4|]. split; [exact H7|exact H8].
Defined.

(** X8. A game without characters never moves: when neither [m] nor [c]
    is positive, every call is refused and the game stays the one
    [initialize_game] made; in particular the (0, 0) game, whose left bank
    is empty from the start, is never won. *)
Theorem no_characters_no_moves (m c k : Z) (g : Game)
    (Hm : (m ≤ 0)%Z) (Hc : (c ≤ 0)%Z) (Hreach : reachable m c k g) :
  g = initialize_game m c k ∧ is_won (state g) = false.
Proof.
  assert (Hg : g = initialize_game m c k); [|by rewrite Hg].
  induction Hreach as [|g op g' _ IH Hstep]; [done|]. subst g.
  assert (Hchars : characters (initialize_game m c k) = []).
  { cbn. unfold initial_characters.
    assert (Hnil : ∀ a n, (n ≤ 0)%Z → seqZ a n = []).
    { intros a n Hn. apply length_zero_iff_nil. rewrite length_seqZ. lia. }
    by rewrite !Hnil. }
  apply step_cases in Hstep as [->|[H|[H|H]]]; [done|..]; exfalso.
  - destruct H as (cid & msg & H).
    apply add_to_boat_success in H as (ch & Hch & _).
    unfold get_character in Hch. by rewrite Hchars in Hch.
  - destruct H as (cid & msg & H).
    apply remove_from_boat_success in H as (ch & crew' & _ & Hin & _).
    cbn in Hin. by apply elem_of_nil in Hin.
  - destruct H as (msg & H). by apply travel_success in H as (_ & ? & _).
Qed.

Lemma no_characters_no_moves_witness :
  ∃ g, run (initialize_game 0 0 2) [AddToBoat "M1"; Travel] = Return g
       ∧ g = initialize_game 0 0 2 ∧ is_won (state g) = false.
Proof.
  eexists. split; [vm_compute; reflexivity|].
  apply (no_characters_no_moves 0 0 2); [lia|lia|].
  eapply (run_reachable 0 0 2 _ [AddToBoat "M1"; Travel]);
    [apply reachable_init|vm_compute; reflexivity].
Defined.

(** * Further properties of the cryptarithmetic module *)

Section WordValue.

Implicit Types (w : string) (a : Assignment) (c : ascii).

Lemma pretty_digit (d : Z) :
  (0 ≤ d ≤ 9)%Z →
  ∃ ch, pretty d = String ch EmptyString ∧ digit_value ch = Some d.
Proof.
  intros Hd.
  assert (d = 0 ∨ d = 1 ∨ d = 2 ∨ d = 3 ∨ d = 4 ∨ d = 5 ∨ d = 6 ∨ d = 7
          ∨ d = 8 ∨ d = 9)%Z as Hcases by lia.
  repeat (destruct Hcases as [->|Hcases]; [by eexists|]).
  subst d. by eexists.
Qed.

Lemma append_cons (ch : ascii) (s1 s2 : string) :
  String ch s1 +:+ s2 = String ch (s1 +:+ s2).
Proof. reflexivity. Qed.

Lemma length_append (s1 s2 : string) :
  String.length (s1 +:+ s2) = String.length s1 + String.length s2.
Proof.
  induction s1 as [|ch s1 IH]; [done|]. rewrite append_cons. cbn.
  by rewrite IH.
Qed.

Lemma parse_digits_app (s1 s2 : string) acc :
  parse_digits (s1 +:+ s2) acc
  = match parse_digits s1 acc with
    | Some n => parse_digits s2 n
    | None => None
    end.
Proof.
  revert acc. induction s1 as [|ch s1 IH]; intros acc; [done|].
  rewrite append_cons. cbn [parse_digits].
  destruct (digit_value ch); [apply IH|done].
Qed.

Lemma int_of_str_digits (s : string) n :
  s ≠ EmptyString → parse_digits s 0 = Some n →
  int_of_str s = if (int_max_str_digits <? Z.of_nat (String.length s))%Z
                 then Raise ValueError else Return n.
Proof.
  destruct s as [|ch s]; [done|]. intros _ H. unfold int_of_str.
  case_bool_decide as Hch; [|by rewrite H].
  subst ch. cbn in H. discriminate.
Qed.

Lemma build_number_str_value w a acc n0 :
  word_assigned w a →
  parse_digits acc 0 = Some n0 →
  ∃ str, build_number_str w a acc = Return str
    ∧ parse_digits str 0
      = Some (fold_left (λ x c, (10 * x + default 0 (a !! c))%Z)
                (list_ascii_of_string w) n0)
    ∧ String.length str = String.length acc + String.length w.
Proof.
  revert acc n0. induction w as [|c rest IH]; intros acc n0 Hw Hacc.
  - exists acc. cbn. split; [done|]. split; [done|lia].
  - destruct (Hw c) as (d & Hc & Hd); [by left|].
    destruct (pretty_digit d Hd) as (ch & Hpretty & Hval).
    cbn [build_number_str list_ascii_of_string fold_left]. rewrite Hc.
    destruct (IH (acc +:+ pretty d) (10 * n0 + d)%Z) as (str & E & Hstr & Hlen).
    { intros x Hx. apply Hw. by right. }
    { rewrite parse_digits_app, Hacc, Hpretty. cbn. by rewrite Hval. }
    exists str. split; [done|]. split; [done|].
    rewrite Hlen, length_append, Hpretty. cbn. lia.
Qed.

(** A word whose letters carry digits 0-9 converts to its base-10 value
    when [int] takes that many digits, and raises [ValueError] when it
    does not. *)
Lemma word_to_number_digits w a :
  w ≠ EmptyString → word_assigned w a →
  _word_to_number w a
  = if (int_max_str_digits <? Z.of_nat (String.length w))%Z
    then Raise ValueError else Return (word_value w a).
Proof.
  intros Hne Hw.
  destruct (build_number_str_value w a EmptyString 0 Hw eq_refl)
    as (str & E & Hp & Hlen).
  unfold _word_to_number. destruct w as [|c rest]; [done|].
  rewrite E. cbn [mbind result_bind].
  cbn [String.length Nat.add] in Hlen.
  rewrite (int_of_str_digits str _ ltac:(intros ->; discriminate Hlen) Hp).
  by rewrite Hlen.
Qed.

Lemma word_to_number_assigned w a :
  w ≠ EmptyString → word_assigned w a → fits w →
  _word_to_number w a = Return (word_value w a).
Proof.
  intros Hne Hw Hfit. rewrite word_to_number_digits by done.
  unfold fits in Hfit.
  by destruct (Z.ltb_spec int_max_str_digits (Z.of_nat (String.length w)));
    [lia|].
Qed.

Lemma word_to_number_long w a :
  w ≠ EmptyString → word_assigned w a → ¬ fits w →
  _word_to_number w a = Raise ValueError.
Proof.
  intros Hne Hw Hfit. rewrite word_to_number_digits by done.
  unfold fits in Hfit.
  by destruct (Z.ltb_spec int_max_str_digits (Z.of_nat (String.length w)));
    [|lia].
Qed.

Lemma build_number_str_missing w a acc :
  (∃ c, c ∈ list_ascii_of_string w ∧ a !! c = None) →
  build_number_str w a acc = Raise KeyError.
Proof.
  revert acc. induction w as [|c rest IH]; intros acc (x & Hx & Hnone).
  - by apply elem_of_nil in Hx.
  - cbn [build_number_str]. destruct (a !! c) as [d|] eqn:Hc; [|done].
    apply IH. exists x. split; [|done].
    cbn in Hx. apply elem_of_cons in Hx as [->|Hx]; [congruence|done].
Qed.

Lemma build_number_str_total w a acc :
  (∀ c, c ∈ list_ascii_of_string w → is_Some (a !! c)) →
  ∃ str, build_number_str w a acc = Return str.
Proof.
  revert acc. induction w as [|c rest IH]; intros acc Hw; [by eexists|].
  cbn [build_number_str]. destruct (Hw c) as [d ->]; [by left|].
  apply IH. intros x Hx. apply Hw. by right.
Qed.

Lemma int_of_str_raise s e : int_of_str s = Raise e → e = ValueError.
Proof.
  unfold int_of_str. destruct s as [|ch s]; [by intros [= <-]|].
  case_bool_decide.
  - destruct s; [by intros [= <-]|].
    destruct (parse_digits _ _); [|by intros [= <-]].
    destruct (_ <? _)%Z; [by intros [= <-]|discriminate].
  - destruct (parse_digits _ _); [|by intros [= <-]].
    destruct (_ <? _)%Z; [by intros [= <-]|discriminate].
Qed.

Lemma word_keys_dec w a :
  (∀ c, c ∈ list_ascii_of_string w → is_Some (a !! c))
  ∨ (∃ c, c ∈ list_ascii_of_string w ∧ a !! c = None).
Proof.
  induction (list_ascii_of_string w) as [|x l IH].
  - left. intros c Hc. by apply elem_of_nil in Hc.
  - destruct (a !! x) as [d|] eqn:Hx.
    + destruct IH as [IH|(c & Hc & Hnone)].
      * left. intros c Hc. apply elem_of_cons in Hc as [->|Hc]; [by eexists|].
        by apply IH.
      * right. exists c. split; [by right|done].
    + right. exists x. split; [by left|done].
Qed.


End WordValue.

Section Reading.

Implicit Types (w : string) (a : Assignment) (words : list string)
  (letters : list ascii).

Lemma word_value_bound w a :
  word_assigned w a →
  (0 ≤ word_value w a < 10 ^ Z.of_nat (String.length w))%Z.
Proof.
  unfold word_value, word_assigned.
  assert (Hgen : ∀ l n0,
    (∀ c, c ∈ l → ∃ d, a !! c = Some d ∧ (0 ≤ d ≤ 9)%Z) → (0 ≤ n0)%Z →
    (0 ≤ fold_left (λ x c, 10 * x + default 0 (a !! c)) l n0
     < (n0 + 1) * 10 ^ Z.of_nat (length l))%Z).
  { induction l as [|c l IH]; intros n0 Hl Hn0; cbn [fold_left length].
    - lia.
    - destruct (Hl c) as (d & Hc & Hd); [by left|]. rewrite Hc.
      change (default 0%Z (Some d)) with d.
      destruct (IH (10 * n0 + d)%Z) as [H1 H2];
        [intros x Hx; apply Hl; by right|lia|].
      split; [done|].
      rewrite Nat2Z.inj_succ, Z.pow_succ_r by lia.
      assert (0 < 10 ^ Z.of_nat (length l))%Z by (apply Z.pow_pos_nonneg; lia).
      assert ((10 * n0 + d + 1) * 10 ^ Z.of_nat (length l)
              ≤ (10 * (n0 + 1)) * 10 ^ Z.of_nat (length l))%Z
        by (apply Z.mul_le_mono_nonneg_r; lia).
      lia. }
  intros Hw. specialize (Hgen (list_ascii_of_string w) 0%Z Hw ltac:(lia)).
  assert (Hlen : length (list_ascii_of_string w) = String.length w).
  { clear. induction w as [|c w IH]; [done|]. cbn. by rewrite IH. }
  rewrite Hlen in Hgen. lia.
Qed.

Lemma word_to_number_returns w a n :
  _word_to_number w a = Return n →
  w ≠ EmptyString ∧ ∀ c, c ∈ list_ascii_of_string w → is_Some (a !! c).
Proof.
  intros H. split; [by destruct w|].
  intros c Hc. by eapply word_to_number_keys.
Qed.

(** What a returned number says about the word. *)
Lemma word_to_number_value w a n :
  digit_valued a → _word_to_number w a = Return n →
  w ≠ EmptyString ∧ word_assigned w a ∧ fits w ∧ n = word_value w a.
Proof.
  intros Hdigits H. pose proof H as [Hne Hkeys]%word_to_number_returns.
  assert (Hw : word_assigned w a).
  { intros c Hc. destruct (Hkeys c Hc) as [d Hd].
    exists d. split; [done|]. by eapply Hdigits. }
  rewrite word_to_number_digits in H by done. unfold fits.
  destruct (Z.ltb_spec int_max_str_digits (Z.of_nat (String.length w)));
    [discriminate|].
  injection H as <-. by repeat split.
Qed.

Lemma sum_holds_adds_up words a :
  digit_valued a →
  sum_holds words a
  ↔ adds_up words a ∧ (∀ w, w ∈ words → word_assigned w a)
    ∧ words_fit words.
Proof.
  intros Hdigits. split.
  - intros (w1 & w2 & w3 & n1 & n2 & n3 & -> & E1 & E2 & E3 & Hsum).
    destruct (word_to_number_value _ _ _ Hdigits E1) as (N1 & A1 & F1 & ->).
    destruct (word_to_number_value _ _ _ Hdigits E2) as (N2 & A2 & F2 & ->).
    destruct (word_to_number_value _ _ _ Hdigits E3) as (N3 & A3 & F3 & ->).
    split; [by exists w1, w2, w3|].
    split; intros w Hw;
      repeat (apply elem_of_cons in Hw as [->|Hw]; [done|]);
      by apply elem_of_nil in Hw.
  - intros ((w1 & w2 & w3 & -> & N1 & N2 & N3 & Hsum) & Hall & Hfit).
    exists w1, w2, w3, (word_value w1 a), (word_value w2 a), (word_value w3 a).
    split; [done|].
    rewrite !word_to_number_assigned
      by (try done; first [apply Hall | apply Hfit];
          repeat first [by left | right]).
    done.
Qed.

Lemma letters_of_assigned words letters a w :
  list_to_set letters = letters_of words →
  dom a = list_to_set letters → digit_valued a →
  w ∈ words → word_assigned w a.
Proof.
  intros Hletters Hdom Hdigits Hw c Hc.
  assert (Hin : c ∈ dom a).
  { rewrite Hdom, Hletters. unfold letters_of.
    apply elem_of_union_list. exists (list_to_set (list_ascii_of_string w)).
    split; [|by apply elem_of_list_to_set].
    apply list_elem_of_fmap. by exists w. }
  apply elem_of_dom in Hin as [d Hd]. exists d. split; [done|].
  by eapply Hdigits.
Qed.

Lemma check_all_assigned_exact letters a :
  NoDup letters → dom a = list_to_set letters →
  check_all_assigned letters a = None.
Proof.
  intros Hnd Hdom. unfold check_all_assigned.
  rewrite bool_decide_eq_false_2; [done|]. intros Hne. apply Hne.
  by rewrite <- size_dom, Hdom, size_list_to_set_letters.
Qed.

(** Under a puzzle spec, what the code takes for valid is a solution in
    base 10 of a puzzle whose words [int] can convert. *)
Lemma valid_assignment_solution words letters a :
  puzzle_spec words letters →
  valid_assignment words letters a
  ↔ solution words letters a ∧ words_fit words.
Proof.
  intros (Hlen & Hnd & Hletters). unfold valid_assignment, solution. split.
  - intros (Hdom & Hdigits & Hdist & Hlead & Hsum).
    apply sum_holds_adds_up in Hsum as (? & _ & ?); [|done].
    split; [|done]. by repeat (split; [done|]).
  - intros [(Hdom & Hdigits & Hdist & Hlead & Hsum) Hfit].
    repeat (split; [done|]). apply sum_holds_adds_up; [done|].
    split; [done|]. split; [|done].
    intros w Hw. by eapply letters_of_assigned.
Qed.

End Reading.

Section Raising.

Lemma word_to_number_raise_cases (w : string) (a : Assignment) e :
  _word_to_number w a = Raise e → e = KeyError ∨ e = ValueError.
Proof.
  intros H. destruct w as [|c rest]; [right; by injection H|].
  destruct (word_keys_dec (String c rest) a) as [Hall|Hmiss].
  - right. unfold _word_to_number in H.
    destruct (build_number_str_total _ a EmptyString Hall) as [str E].
    rewrite E in H. cbn [mbind result_bind] in H.
    by apply int_of_str_raise in H.
  - left. unfold _word_to_number in H.
    rewrite (build_number_str_missing _ a EmptyString Hmiss) in H. by injection H.
Qed.

(** Acceptance by the validator, read in base 10. *)
Lemma accepted_iff_solution (s : Solver) (words : list string)
    (letters : list ascii) (a : Assignment) :
  puzzle_spec words letters → digit_valued a →
  snd (validate_cryptarithmetic s words letters a) = (true, SolutionCorrect)
  ↔ solution words letters a ∧ words_fit words.
Proof.
  intros Hspec Hdigits.
  rewrite validate_accepts,
    <- (valid_assignment_solution words letters a Hspec).
  unfold valid_assignment. split.
  - intros (Hrule1 & Hdist & Hlead & Hsum).
    split; [by eapply accepted_dom|done].
  - intros (Hdom & _ & Hdist & Hlead & Hsum).
    split; [|done]. destruct Hspec as (_ & Hnd & _).
    by apply check_all_assigned_exact.
Qed.

End Raising.

(** X11. [_word_to_number] reads a word in base 10, as far as [int]
    goes.  For a non-empty word whose letters all carry a digit 0-9: when
    the word has at most 4300 letters it returns the number whose decimal
    digits are the letters' digits, most significant first; when it has
    more, the [int] of the digit string raises [ValueError].  The base-10
    value is non-negative and below 10 to the power of the word's
    length. *)
Theorem word_to_number_base10 (w : string) (a : Assignment)
    (Hne : w ≠ EmptyString) (Hw : word_assigned w a) :
  (fits w → _word_to_number w a = Return (word_value w a))
  ∧ (¬ fits w → _word_to_number w a = Raise ValueError)
  ∧ (0 ≤ word_value w a < 10 ^ Z.of_nat (String.length w))%Z.
Proof.
  split; [by apply word_to_number_assigned|].
  split; [by apply word_to_number_long|by apply word_value_bound].
Qed.

Lemma word_to_number_base10_witness :
  let a : Assignment :=
    {[ "S"%char := 9%Z; "E"%char := 5%Z; "N"%char := 6%Z; "D"%char := 7%Z ]} in
  _word_to_number "SEND" a = Return 9567%Z
  ∧ (0 ≤ 9567 < 10 ^ 4)%Z.
Proof.
  cbn zeta.
  destruct (word_to_number_base10 "SEND"
              {[ "S"%char := 9%Z; "E"%char := 5%Z; "N"%char := 6%Z;
                 "D"%char := 7%Z ]}) as (H & _ & _).
  - done.
  - intros c Hc. cbn in Hc.
    repeat (apply elem_of_cons in Hc as [->|Hc];
            [eexists; split; [vm_compute; reflexivity|lia]|]).
    by apply elem_of_nil in Hc.
  - split; [|lia]. rewrite H; [vm_compute; reflexivity|].
    unfold fits, int_max_str_digits. cbn. lia.
Defined.


(** X13. What the validator accepts.  For a puzzle of three words with the
    duplicate-free list of their letters and an assignment of digits 0-9,
    [validate_cryptarithmetic] answers "Solution is correct!" exactly when
    the assignment is a solution (it assigns exactly the puzzle's letters,
    with pairwise distinct digits, no word is empty or starts with 0, and
    the first two words add up to the third in base 10) and no word has
    more than 4300 letters: a solution of a puzzle with a longer word is
    rejected, because [int] refuses the digits. *)
Theorem validator_accepts_solutions (s : Solver) (words : list string)
    (letters : list ascii) (a : Assignment)
    (Hspec : puzzle_spec words letters) (Hdigits : digit_valued a) :
  snd (validate_cryptarithmetic s words letters a) = (true, SolutionCorrect)
  ↔ solution words letters a ∧ words_fit words.
Proof. by apply accepted_iff_solution. Qed.

Lemma validator_accepts_solutions_witness :
  let a : Assignment :=
    {[ "T"%char := 1%Z; "H"%char := 9%Z; "I"%char := 5%Z; "S"%char := 3%Z;
       "G"%char := 2%Z; "O"%char := 0%Z; "D"%char := 6%Z ]} in
  snd (validate_cryptarithmetic new_solver ["THIS"; "IS"; "GOOD"]%string
         ["T"; "H"; "I"; "S"; "G"; "O"; "D"]%char a)
  = (true, SolutionCorrect)
  ↔ solution ["THIS"; "IS"; "GOOD"]%string
      ["T"; "H"; "I"; "S"; "G"; "O"; "D"]%char a
    ∧ words_fit ["THIS"; "IS"; "GOOD"]%string.
Proof.
  cbn zeta. apply validator_accepts_solutions.
  - split; [done|]. split.
    + apply (bool_decide_unpack _). vm_compute. reflexivity.
    + vm_compute. reflexivity.
  - apply (bool_decide_unpack (map_Forall (λ _ d, (0 ≤ d ≤ 9)%Z) _)).
    vm_compute. reflexivity.
Defined.

Section Solvable.

Implicit Types (a : Assignment) (words : list string) (letters : list ascii).

(** Ten digits do not go round more than ten letters. *)
Lemma valid_assignment_at_most_ten words letters a :
  NoDup letters → valid_assignment words letters a → length letters ≤ 10.
Proof.
  intros Hnd (Hdom & Hdigits & Hdist & _).
  rewrite <- (size_list_to_set_letters letters Hnd), <- Hdom, size_dom.
  rewrite <- length_map_to_list, <- (length_fmap snd).
  apply distinct_digits_NoDup in Hdist.
  change 10 with (Z.to_nat 10). rewrite <- (length_seqZ 0 10).
  apply submseteq_length, NoDup_submseteq; [done|].
  intros d Hd. apply list_elem_of_fmap in Hd as ([l d'] & -> & Hd).
  apply elem_of_map_to_list in Hd. apply elem_of_seqZ.
  specialize (Hdigits l d' Hd). cbn. lia.
Qed.

Lemma solve_puzzle_verdict (s : Solver) words letters :
  solver_inv s → length words = 3 → NoDup letters →
  ∃ s' r, solve_puzzle s words letters = Return (s', r)
    ∧ solver_inv s'
    ∧ match r with
      | Some a => valid_assignment words letters a
      | None => ∀ a, ¬ valid_assignment words letters a
      end.
Proof.
  intros Hinv Hlen Hnd.
  destruct (solve_puzzle_cases s words letters Hinv Hlen Hnd)
    as (found & Hsearch & Hhit & Hmiss).
  destruct (search_correct words letters Hnd) as (found' & Hsearch' & Hfound).
  rewrite Hsearch in Hsearch'. injection Hsearch' as <-.
  destruct (solution_cache s !! puzzle_key words letters) as [cached|] eqn:Hc.
  - eexists _, _. split; [by apply Hhit|]. split; [done|].
    by destruct found.
  - eexists _, _. split; [by apply Hmiss|]. split.
    + right. exists words, letters, found. by repeat split.
    + by destruct found.
Qed.

End Solvable.

(** X14. [is_puzzle_solvable] on a puzzle of three words with the
    duplicate-free list of their letters, asked of a solver whose cache is
    empty or holds just the entry [solve_puzzle] stored for its current
    three-word puzzle (as a new solver is, and as the call leaves it):
    it returns without raising, and returns [True]
    exactly when the puzzle has a solution (pairwise distinct digits 0-9
    for exactly the letters, no word empty or starting with 0, the sum
    holding in base 10) and no word has more than 4300 letters.  So a
    solvable puzzle with a longer word is reported unsolvable, and so is
    every puzzle of more than ten letters. *)
Theorem is_puzzle_solvable_iff (s : Solver) (words : list string)
    (letters : list ascii)
    (Hinv : solver_inv s) (Hspec : puzzle_spec words letters) :
  ∃ s' b,
    is_puzzle_solvable s words letters = Return (s', b)
    ∧ solver_inv s'
    ∧ (b = true ↔ (∃ a, solution words letters a) ∧ words_fit words)
    ∧ (10 < length letters → b = false).
Proof.
  pose proof Hspec as (Hlen & Hnd & _).
  destruct (solve_puzzle_verdict s words letters Hinv Hlen Hnd)
    as (s' & r & E & Hinv' & Hr).
  unfold is_puzzle_solvable. rewrite E. cbn [mbind result_bind fst snd].
  eexists _, _. split; [done|]. split; [done|].
  destruct r as [a|].
  - split.
    + split; [|done]. intros _.
      apply valid_assignment_solution in Hr as [Hsol Hfit]; [|done].
      split; [by exists a|done].
    + intros Hten.
      pose proof (valid_assignment_at_most_ten words letters a Hnd Hr). lia.
  - split; [|done]. split; [done|]. intros [[a Ha] Hfit]. destruct (Hr a).
    by apply valid_assignment_solution.
Qed.

Lemma is_puzzle_solvable_iff_witness :
  ∃ s' b,
    is_puzzle_solvable new_solver ["A"; "A"; "BC"]%string ["A"; "B"; "C"]%char
    = Return (s', b)
    ∧ solver_inv s'
    ∧ (b = true
       ↔ (∃ a, solution ["A"; "A"; "BC"]%string ["A"; "B"; "C"]%char a)
         ∧ words_fit ["A"; "A"; "BC"]%string)
    ∧ (10 < length ["A"; "B"; "C"]%char → b = false).
Proof.
  apply is_puzzle_solvable_iff.
  - by left.
  - split; [done|]. split.
    + apply (bool_decide_unpack _). vm_compute. reflexivity.
    + vm_compute. reflexivity.
Defined.

(** * The solver, read in base 10 *)

Section SolverVerdict.

Implicit Types (a : Assignment) (words : list string) (letters : list ascii).

Lemma NoDup_digits_distinct a :
  NoDup (map_to_list a).*2 → distinct_digits a.
Proof.
  intros Hnd l1 l2 d H1 H2.
  apply elem_of_map_to_list, list_elem_of_lookup in H1 as [i Hi].
  apply elem_of_map_to_list, list_elem_of_lookup in H2 as [j Hj].
  assert (i = j) as ->.
  { apply (NoDup_lookup _ i j d Hnd);
      rewrite list_lookup_fmap; [by rewrite Hi|by rewrite Hj]. }
  congruence.
Qed.

(** What [solve_puzzle] answers, in terms of base-10 solutions. *)
Lemma solve_puzzle_base10 (s : Solver) words letters :
  solver_inv s → puzzle_spec words letters →
  ∃ s' r,
    solve_puzzle s words letters = Return (s', r)
    ∧ solver_inv s'
    ∧ match r with
      | Some a =>
          solution words letters a ∧ words_fit words
          ∧ snd (validate_cryptarithmetic s' words letters a)
            = (true, SolutionCorrect)
      | None =>
          (words_fit words → ∀ a, ¬ solution words letters a)
          ∧ (∀ a, digit_valued a →
                  fst (snd (validate_cryptarithmetic s' words letters a))
                  = false)
      end.
Proof.
  intros Hinv Hspec. pose proof Hspec as (Hlen & Hnd & _).
  destruct (solve_puzzle_verdict s words letters Hinv Hlen Hnd)
    as (s' & r & E & Hinv' & Hr).
  exists s', r. split; [done|]. split; [done|].
  destruct r as [a|].
  - pose proof Hr as [Hsol Hfit]%valid_assignment_solution; [|done].
    split; [done|]. split; [done|].
    apply accepted_iff_solution; [done|apply Hsol|done].
  - split.
    + intros Hfit a Ha. apply (Hr a).
      by apply valid_assignment_solution.
    + intros a Hdig.
      destruct (fst (snd (validate_cryptarithmetic s' words letters a)))
        eqn:Hv; [|done].
      exfalso. apply (Hr a).
      apply valid_assignment_solution; [done|].
      apply (accepted_iff_solution s'); [done|done|].
      destruct (validate_cryptarithmetic s' words letters a)
        as [s2 [ok fb]] eqn:Hval. cbn [fst snd] in *. subst ok.
      revert Hval. unfold validate_cryptarithmetic, validate_input, set_puzzle.
      cbn [current_puzzle].
      destruct (check_all_assigned letters a); [by intros [= _ <-]|].
      case_bool_decide; [by intros [= _ <-]|].
      destruct (find_leading_zero words a); [by intros [= _ <-]|].
      destruct (_verify_mathematics words a) as [[|] ?]; cbn [negb];
        by intros [= _ <-].
Qed.

End SolverVerdict.

(** C4, amended.  On a puzzle spec (three words with the duplicate-free
    list of their letters), and for a solver in a state the three-word
    queries of a session produce ([solver_inv]: the cache is empty or
    holds the puzzle solved last), [solve_puzzle] returns, without
    raising.  An assignment it returns is total on the unique letters,
    uses pairwise distinct digits 0-9, gives no leading letter 0 and makes
    operand1 + operand2 = result in base 10, and the validator accepts it.
    When no word has more than 4300 letters, it returns [None] only when
    no assignment meets the four constraints; for every puzzle, [None]
    means that the validator rejects every letter-to-digit assignment. *)
Theorem solve_puzzle_correct (s : Solver) (words : list string)
    (letters : list ascii)
    (Hinv : solver_inv s) (Hspec : puzzle_spec words letters) :
  ∃ s' r,
    solve_puzzle s words letters = Return (s', r)
    ∧ solver_inv s'
    ∧ match r with
      | Some a =>
          solution words letters a
          ∧ snd (validate_cryptarithmetic s' words letters a)
            = (true, SolutionCorrect)
      | None =>
          (words_fit words → ∀ a, ¬ solution words letters a)
          ∧ (∀ a, digit_valued a →
                  fst (snd (validate_cryptarithmetic s' words letters a))
                  = false)
      end.
Proof.
  destruct (solve_puzzle_base10 s words letters Hinv Hspec)
    as (s' & r & E & Hinv' & Hr).
  exists s', r. split; [done|]. split; [done|].
  destruct r as [a|]; [|done]. by destruct Hr as (? & _ & ?).
Qed.

Lemma solve_puzzle_correct_witness :
  ∃ s' a,
    solve_puzzle new_solver ["A"; "A"; "B"]%string ["A"; "B"]%char
    = Return (s', Some a)
    ∧ a = {[ "A"%char := 1%Z; "B"%char := 2%Z ]}
    ∧ solution ["A"; "A"; "B"]%string ["A"; "B"]%char a.
Proof.
  destruct (solve_puzzle_correct new_solver
              ["A"; "A"; "B"]%string ["A"; "B"]%char)
    as (s' & r & Hsolve & _ & Hr).
  - by left.
  - split; [reflexivity|]. split; [|vm_compute; reflexivity].
    apply (bool_decide_unpack _). vm_compute. reflexivity.
  - assert (E : solve_puzzle new_solver ["A"; "A"; "B"]%string ["A"; "B"]%char
                = Return (mkSolver (Some (["A"; "A"; "B"]%string, ["A"; "B"]%char))
                            {[ puzzle_key ["A"; "A"; "B"]%string ["A"; "B"]%char
                               := Some {[ "A"%char := 1%Z; "B"%char := 2%Z ]} ]},
                          Some {[ "A"%char := 1%Z; "B"%char := 2%Z ]}))
      by (vm_compute; reflexivity).
    rewrite E in Hsolve. injection Hsolve as <- <-.
    eexists _, _. split; [reflexivity|]. split; [reflexivity|]. apply Hr.
Defined.

(** C4 as stated fails on long words.  In the puzzle
    AA..AA + B = AA..AC, with 4300 times A before the last letter, the
    assignment A = 1, B = 2, C = 3 meets the four constraints
    (11..11 + 2 = 11..13), but [solve_puzzle] returns [None]: [int]
    refuses the 4301 digits of the first word, [_verify_mathematics]
    answers with its "Invalid number conversion" for every candidate, and
    the search gives up. *)
Lemma long_words_not_solved :
  let words := [long_word "A"; "B"%string; long_word "C"] in
  let letters := ["A"; "B"; "C"]%char in
  puzzle_spec words letters
  ∧ solution words letters
      {[ "A"%char := 1%Z; "B"%char := 2%Z; "C"%char := 3%Z ]}
  ∧ ∃ s', solve_puzzle new_solver words letters = Return (s', None).
Proof.
  cbn zeta.
  assert (Hspec : puzzle_spec [long_word "A"; "B"%string; long_word "C"]
                    ["A"; "B"; "C"]%char).
  { split; [reflexivity|]. split.
    - apply (bool_decide_unpack _). vm_compute. reflexivity.
    - vm_compute. reflexivity. }
  split; [exact Hspec|]. split.
  - split; [vm_compute; reflexivity|]. split.
    { apply (bool_decide_unpack (map_Forall (λ _ d, (0 ≤ d ≤ 9)%Z) _)).
      vm_compute. reflexivity. }
    split.
    { apply NoDup_digits_distinct, (bool_decide_unpack _).
      vm_compute. reflexivity. }
    split.
    { apply find_leading_zero_None. vm_compute. reflexivity. }
    exists (long_word "A"), "B"%string, (long_word "C").
    split; [reflexivity|].
    split; [intros H; apply (f_equal String.length) in H;
            vm_compute in H; discriminate H|].
    split; [discriminate|].
    split; [intros H; apply (f_equal String.length) in H;
            vm_compute in H; discriminate H|].
    vm_compute. reflexivity.
  - destruct (solve_puzzle_base10 new_solver _ _ (or_introl eq_refl) Hspec)
      as (s' & r & E & _ & Hr).
    destruct r as [a|]; [|by exists s'].
    destruct Hr as (_ & Hfit & _). exfalso.
    specialize (Hfit (long_word "A") ltac:(by left)).
    unfold fits in Hfit. vm_compute in Hfit. by apply Hfit.
Qed.

Section Duplicates.

Implicit Types (a m : Assignment) (d : Z) (l : ascii).

Lemma elem_of_letters_with l d a : l ∈ letters_with d a ↔ a !! l = Some d.
Proof.
  unfold letters_with. rewrite elem_of_dom. split.
  - intros [x Hx]. apply map_lookup_filter_Some in Hx as [Hx Hd].
    cbn in Hd. by subst x.
  - intros H. exists d. by apply map_lookup_filter_Some.
Qed.

Lemma letters_with_empty d : letters_with d (∅ : Assignment) = ∅.
Proof.
  apply set_eq. intros l. rewrite elem_of_letters_with, lookup_empty.
  split; [done|]. intros H. by apply (not_elem_of_empty (C:=gset ascii)) in H.
Qed.

Lemma letters_with_insert l d d' m :
  m !! l = None →
  letters_with d' (<[l := d]> m)
  = if decide (d' = d) then {[l]} ∪ letters_with d' m else letters_with d' m.
Proof.
  intros Hfresh. apply set_eq. intros x.
  case_decide as Hd; [subst d'|];
    rewrite ?elem_of_union, ?elem_of_singleton, !elem_of_letters_with.
  - destruct (decide (x = l)) as [->|Hx].
    + rewrite lookup_insert_eq. tauto.
    + rewrite lookup_insert_ne by done. tauto.
  - destruct (decide (x = l)) as [->|Hx].
    + rewrite lookup_insert_eq, Hfresh. split; [congruence|done].
    + by rewrite lookup_insert_ne.
Qed.

Lemma letters_with_fresh l d m : m !! l = None → l ∉ letters_with d m.
Proof. intros H. rewrite elem_of_letters_with, H. done. Qed.

(** The digit-to-letters table built by the first loop of
    [_find_duplicate_assignments]. *)
Lemma duplicate_table_lookup a d :
  map_fold (λ letter digit (table : gmap Z (gset ascii)),
              <[digit := {[letter]} ∪ default ∅ (table !! digit)]> table)
           ∅ a !! d
  = if decide (letters_with d a = ∅) then None else Some (letters_with d a).
Proof.
  revert d.
  refine (map_fold_weak_ind (λ (t : gmap Z (gset ascii)) (m : Assignment),
    ∀ d, t !! d = if decide (letters_with d m = ∅) then None
                  else Some (letters_with d m)) _ ∅ _ _ a).
  - intros d. by rewrite lookup_empty, letters_with_empty, decide_True.
  - intros l x m t Hfresh IH d. rewrite letters_with_insert by done.
    destruct (decide (d = x)) as [->|Hd].
    + rewrite lookup_insert_eq, decide_False.
      * f_equal. f_equal. rewrite IH. by case_decide as He; [rewrite He|].
      * intros He. apply (not_elem_of_empty (C:=gset ascii) l).
        rewrite <- He. apply elem_of_union_l. by apply elem_of_singleton_2.
    + rewrite lookup_insert_ne by done. apply IH.
Qed.

(** The dictionary [digit_counts] of [get_hints]. *)
Lemma digit_counts_lookup a d :
  digit_counts a !! d
  = if decide (letters_with d a = ∅) then None
    else Some (size (letters_with d a)).
Proof.
  revert d. unfold digit_counts.
  refine (map_fold_weak_ind (λ (t : gmap Z nat) (m : Assignment),
    ∀ d, t !! d = if decide (letters_with d m = ∅) then None
                  else Some (size (letters_with d m))) _ ∅ _ _ a).
  - intros d. by rewrite lookup_empty, letters_with_empty, decide_True.
  - intros l x m t Hfresh IH d. rewrite letters_with_insert by done.
    destruct (decide (d = x)) as [->|Hd].
    + rewrite lookup_insert_eq, decide_False.
      * f_equal. rewrite size_union, size_singleton, IH.
        -- case_decide as He; [rewrite He, size_empty|]; cbn; lia.
        -- intros y Hy1 Hy2. apply elem_of_singleton in Hy1 as ->.
           by apply (letters_with_fresh l x m).
      * intros He. apply (not_elem_of_empty (C:=gset ascii) l).
        rewrite <- He. apply elem_of_union_l. by apply elem_of_singleton_2.
    + rewrite lookup_insert_ne by done. apply IH.
Qed.

Lemma two_elements (X : gset ascii) :
  1 < size X ↔ ∃ x y, x ∈ X ∧ y ∈ X ∧ x ≠ y.
Proof.
  split.
  - intros Hsize.
    destruct (size_pos_elem_of X) as [x Hx]; [lia|].
    destruct (size_pos_elem_of (X ∖ {[x]})) as [y Hy].
    { rewrite size_difference, size_singleton; [lia|].
      by apply singleton_subseteq_l. }
    apply elem_of_difference in Hy as [Hy Hne].
    exists x, y. split; [done|]. split; [done|].
    intros ->. apply Hne. by apply elem_of_singleton.
  - intros (x & y & Hx & Hy & Hne).
    assert (Hsub : ({[x]} ∪ {[y]} : gset ascii) ⊆ X).
    { intros z Hz. apply elem_of_union in Hz as [Hz|Hz];
        apply elem_of_singleton in Hz; by subst z. }
    apply subseteq_size in Hsub.
    rewrite size_union, !size_singleton in Hsub; [lia|].
    intros z Hz1 Hz2. apply elem_of_singleton in Hz1, Hz2. congruence.
Qed.

Lemma distinct_digits_letters_with a :
  distinct_digits a ↔ ∀ d, ¬ 1 < size (letters_with d a).
Proof.
  split.
  - intros Hdist d Hsize.
    apply two_elements in Hsize as (x & y & Hx & Hy & Hne).
    apply elem_of_letters_with in Hx, Hy. by apply Hne, (Hdist x y d).
  - intros Hall l1 l2 d H1 H2.
    destruct (decide (l1 = l2)) as [|Hne]; [done|].
    destruct (Hall d). apply two_elements.
    exists l1, l2. by rewrite !elem_of_letters_with.
Qed.

Lemma find_duplicate_assignments_lookup a d ls :
  _find_duplicate_assignments a !! d = Some ls
  ↔ ls = letters_with d a ∧ 1 < size ls.
Proof.
  unfold _find_duplicate_assignments.
  rewrite map_lookup_filter_Some, duplicate_table_lookup. cbn [snd]. split.
  - intros [H Hsize]. case_decide; [done|]. by injection H as <-.
  - intros [-> Hsize]. split; [|done].
    rewrite decide_False; [done|]. intros He.
    rewrite He, size_empty in Hsize. lia.
Qed.

Lemma find_duplicate_assignments_empty a :
  _find_duplicate_assignments a = ∅ ↔ distinct_digits a.
Proof.
  rewrite distinct_digits_letters_with, map_empty. split.
  - intros Hnone d Hsize.
    assert (_find_duplicate_assignments a !! d = Some (letters_with d a))
      as Hsome by (by apply find_duplicate_assignments_lookup).
    by rewrite Hnone in Hsome.
  - intros Hall d.
    destruct (_find_duplicate_assignments a !! d) as [ls|] eqn:E; [|done].
    apply find_duplicate_assignments_lookup in E as [-> Hsize].
    by destruct (Hall d).
Qed.

Lemma duplicate_hints_nil a : duplicate_hints a = [] ↔ distinct_digits a.
Proof.
  unfold duplicate_hints.
  assert (Hdups : dom (filter (λ kv : Z * nat, 1 < snd kv) (digit_counts a))
                  = (∅ : gset Z)
                  ↔ distinct_digits a).
  { rewrite dom_empty_iff_L, map_empty, distinct_digits_letters_with.
    split.
    - intros Hnone d Hsize.
      assert (filter (λ kv : Z * nat, 1 < snd kv) (digit_counts a) !! d
              = Some (size (letters_with d a))) as Hsome.
      { apply map_lookup_filter_Some. split; [|done].
        rewrite digit_counts_lookup, decide_False; [done|].
        intros He. rewrite He, size_empty in Hsize. lia. }
      by rewrite Hnone in Hsome.
    - intros Hall d.
      destruct (filter _ (digit_counts a) !! d) as [n|] eqn:E; [|done].
      apply map_lookup_filter_Some in E as [E Hn]. cbn in Hn.
      rewrite digit_counts_lookup in E. case_decide; [done|].
      injection E as <-. by destruct (Hall d). }
  case_bool_decide as Hsize.
  - case_bool_decide as Hne.
    + split; [done|]. intros Hdist. by apply Hdups in Hdist.
    + split; [|done]. intros _. apply Hdups.
      by destruct (decide (dom (filter (λ kv : Z * nat, 1 < snd kv)
                                  (digit_counts a)) = (∅ : gset Z))).
  - split; [|done]. intros _ l1 l2 d H1 H2.
    destruct (decide (l1 = l2)) as [|Hne]; [done|]. exfalso. apply Hsize.
    assert (Hsub : ({[l1 := d; l2 := d]} : Assignment) ⊆ a).
    { apply map_subseteq_spec. intros l x Hl.
      apply lookup_insert_Some in Hl as [[<- <-]|[_ Hl]]; [done|].
      by apply lookup_singleton_Some in Hl as [<- <-]. }
    apply map_subseteq_size in Hsub.
    rewrite map_size_insert_None, map_size_singleton in Hsub; [lia|].
    by apply lookup_singleton_ne.
Qed.

End Duplicates.

(** X15. The table of [_find_duplicate_assignments], which the validator
    prints when two letters share a digit, lists exactly the digits carried
    by more than one letter, each with all the letters that carry it; it is
    empty exactly when the digits are pairwise distinct, so whenever the
    validator gives the duplicate-digits answer the table it shows is not
    empty. *)
Theorem duplicate_table_spec (a : Assignment) :
  (∀ d ls, _find_duplicate_assignments a !! d = Some ls
           ↔ (∀ l, l ∈ ls ↔ a !! l = Some d) ∧ 1 < size ls)
  ∧ (_find_duplicate_assignments a = ∅ ↔ distinct_digits a)
  ∧ ∀ s words letters table,
      snd (validate_cryptarithmetic s words letters a)
      = (false, DuplicateDigits table) →
      table = _find_duplicate_assignments a ∧ table ≠ ∅.
Proof.
  split; [|split; [apply find_duplicate_assignments_empty|]].
  - intros d ls. rewrite find_duplicate_assignments_lookup. split.
    + intros [-> Hsize]. split; [|done].
      intros l. apply elem_of_letters_with.
    + intros [Hls Hsize]. split; [|done]. apply set_eq. intros l.
      by rewrite Hls, elem_of_letters_with.
  - intros s words letters table.
    unfold validate_cryptarithmetic, validate_input, set_puzzle.
    cbn [snd current_puzzle].
    destruct (check_all_assigned letters a) as [f|] eqn:Hrule1.
    { unfold check_all_assigned in Hrule1.
      repeat case_bool_decide; try discriminate;
        injection Hrule1 as <-; discriminate. }
    case_bool_decide as Hrule2.
    + intros [= <-]. split; [done|].
      rewrite find_duplicate_assignments_empty. intros Hdist.
      apply rule2_passes in Hdist. by rewrite bool_decide_eq_false in Hdist.
    + destruct (find_leading_zero words a); [discriminate|].
      destruct (_verify_mathematics words a) as [[|] ?]; discriminate.
Qed.

Section Hints.

Implicit Types (a : Assignment) (words : list string) (letters : list ascii).

Lemma leading_zero_hints_nil words a :
  leading_zero_hints words a = [] ↔ leading_nonzero words a.
Proof.
  rewrite <- find_leading_zero_None. unfold leading_zero_hints.
  induction words as [|w rest IH]; [done|].
  cbn [omap list_omap find_leading_zero]. destruct w as [|c w'].
  - exact IH.
  - case_bool_decide; [done|]. exact IH.
Qed.

Lemma unassigned_nil letters a :
  filter (λ letter, a !! letter = None) letters = []
  ↔ list_to_set letters ⊆ dom a.
Proof.
  induction letters as [|l rest IH].
  - split; [|done]. intros _ x Hx.
    by apply (not_elem_of_empty (C:=gset ascii)) in Hx.
  - rewrite filter_cons, list_to_set_cons. case_decide as Hl.
    + split; [done|]. intros Hsub.
      assert (l ∈ dom a) as Hin
        by (apply Hsub, elem_of_union_l; by apply elem_of_singleton_2).
      apply elem_of_dom in Hin as [d Hd]. congruence.
    + rewrite IH. split.
      * intros Hsub x Hx. apply elem_of_union in Hx as [Hx|Hx]; [|by apply Hsub].
        apply elem_of_singleton in Hx as ->. apply elem_of_dom.
        by destruct (a !! l); [eexists|].
      * intros Hsub x Hx. by apply Hsub, elem_of_union_r.
Qed.

(** The [try] block never lets an exception escape on three words. *)
Lemma math_hints_three w1 w2 w3 a :
  ∃ math, math_hints [w1; w2; w3] a = Some math
    ∧ (HintLookingGood ∉ math)
    ∧ (math = [] ↔
       ¬ ∃ n1 n2 n3, _word_to_number w1 a = Return n1
                     ∧ _word_to_number w2 a = Return n2
                     ∧ _word_to_number w3 a = Return n3
                     ∧ (n1 + n2)%Z ≠ n3
                     ∧ (Z.abs (n1 + n2) < int_str_bound)%Z).
Proof.
  unfold math_hints.
  assert (Hdone : ∃ math : list Hint, Some [] = Some math
            ∧ (HintLookingGood ∉ math)).
  { exists []. split; [done|]. apply not_elem_of_nil. }
  destruct (_word_to_number w1 a) as [n1|e1] eqn:E1.
  2: { destruct (word_to_number_raise_cases _ _ _ E1) as [-> | ->];
       (exists []; split; [done|]; split; [apply not_elem_of_nil|]);
       (split; [|done]; intros _ (? & ? & ? & ? & _); discriminate). }
  destruct (_word_to_number w2 a) as [n2|e2] eqn:E2.
  2: { destruct (word_to_number_raise_cases _ _ _ E2) as [-> | ->];
       (exists []; split; [done|]; split; [apply not_elem_of_nil|]);
       (split; [|done]; intros _ (? & ? & ? & _ & ? & _); discriminate). }
  destruct (_word_to_number w3 a) as [n3|e3] eqn:E3.
  2: { destruct (word_to_number_raise_cases _ _ _ E3) as [-> | ->];
       (exists []; split; [done|]; split; [apply not_elem_of_nil|]);
       (split; [|done]; intros _ (? & ? & ? & _ & _ & ? & _); discriminate). }
  case_bool_decide as Hsum.
  - destruct (Z.ltb_spec (Z.abs (n1 + n2)) int_str_bound) as [Hfit|Hbig].
    + eexists. split; [done|]. split.
      * intros Hin. by apply list_elem_of_singleton in Hin.
      * split; [done|]. intros Hno. destruct Hno. by exists n1, n2, n3.
    + exists []. split; [done|]. split; [apply not_elem_of_nil|].
      split; [|done].
      intros _ (m1 & m2 & m3 & [= <-] & [= <-] & [= <-] & _ & Hlt). lia.
  - exists []. split; [done|]. split; [apply not_elem_of_nil|].
    split; [|done].
    intros _ (m1 & m2 & m3 & [= <-] & [= <-] & [= <-] & Hne & _).
    by apply Hne, dec_stable.
Qed.

Lemma front_hints_clean letters words a :
  HintLookingGood ∉
    (match filter (λ letter, a !! letter = None) letters with
     | [] => []
     | _ => [HintUnassigned (filter (λ letter, a !! letter = None) letters)]
     end ++ leading_zero_hints words a) ++ duplicate_hints a.
Proof.
  rewrite !elem_of_app. intros [[H|H]|H].
  - destruct (filter _ letters); [by apply elem_of_nil in H|].
    by apply list_elem_of_singleton in H.
  - unfold leading_zero_hints in H.
    apply list_elem_of_omap in H as (w & _ & H).
    destruct w; [done|]. by case_bool_decide.
  - unfold duplicate_hints in H.
    repeat case_bool_decide; try (by apply elem_of_nil in H).
    by apply list_elem_of_singleton in H.
Qed.

Lemma looking_good_iff (hints : list Hint) :
  HintLookingGood ∉ hints →
  match hints with [] => [HintLookingGood] | _ => hints end
  = [HintLookingGood] ↔ hints = [].
Proof.
  intros Hclean. destruct hints as [|h t]; [done|]. split; [|done].
  intros [= -> ->]. destruct Hclean. by left.
Qed.

(** [get_hints] on a loaded three-word puzzle. *)
Lemma get_hints_looking_good (s : Solver) w1 w2 w3 letters a :
  current_puzzle s = Some ([w1; w2; w3], letters) →
  ∃ hints, get_hints s a = Some hints ∧ hints ≠ []
    ∧ (hints = [HintLookingGood]
       ↔ list_to_set letters ⊆ dom a
         ∧ leading_nonzero [w1; w2; w3] a
         ∧ distinct_digits a
         ∧ (size a = length letters →
            ¬ ∃ n1 n2 n3, _word_to_number w1 a = Return n1
                          ∧ _word_to_number w2 a = Return n2
                          ∧ _word_to_number w3 a = Return n3
                          ∧ (n1 + n2)%Z ≠ n3
                          ∧ (Z.abs (n1 + n2) < int_str_bound)%Z)).
Proof.
  intros Hpuzzle. unfold get_hints. rewrite Hpuzzle.
  pose proof (front_hints_clean letters [w1; w2; w3] a) as Hclean.
  set (front := (_ ++ leading_zero_hints _ a) ++ duplicate_hints a) in *.
  assert (Hfront : front = []
                   ↔ list_to_set letters ⊆ dom a
                     ∧ leading_nonzero [w1; w2; w3] a ∧ distinct_digits a).
  { subst front. rewrite <- unassigned_nil, <- leading_zero_hints_nil,
      <- duplicate_hints_nil. split.
    - intros H. apply app_eq_nil in H as [H ?].
      apply app_eq_nil in H as [H ?].
      by destruct (filter _ letters).
    - intros (-> & -> & ->). done. }
  destruct (math_hints_three w1 w2 w3 a) as (math & Hmath & Hmclean & Hmnil).
  assert (Hnonempty : ∀ h : list Hint,
            match h with [] => [HintLookingGood] | _ => h end ≠ [])
    by (by intros []).
  case_bool_decide as Hsize.
  - rewrite Hmath. cbn [mbind option_bind].
    eexists. split; [done|]. split; [apply Hnonempty|].
    assert (Hc : HintLookingGood ∉ front ++ math)
      by (rewrite elem_of_app; by intros [?|?]).
    rewrite (looking_good_iff _ Hc).
    split.
    + intros H. apply app_eq_nil in H as [Hf Hm].
      apply Hfront in Hf as (? & ? & ?). repeat (split; [done|]).
      intros _. by apply Hmnil.
    + intros (H1 & H2 & H3 & H4).
      rewrite (proj2 Hfront) by done. cbn [app]. by apply Hmnil, H4.
  - cbn [mbind option_bind].
    eexists. split; [done|]. split; [apply Hnonempty|].
    rewrite (looking_good_iff _ Hclean), Hfront.
    split; [intros (? & ? & ?); by repeat split|].
    intros (? & ? & ? & _). by repeat split.
Qed.

End Hints.

(** The sum of two words of fewer than 4300 letters can be printed. *)
Lemma short_sum_fits (w1 w2 : string) (a : Assignment) :
  word_assigned w1 a → word_assigned w2 a →
  (Z.of_nat (String.length w1) < int_max_str_digits)%Z →
  (Z.of_nat (String.length w2) < int_max_str_digits)%Z →
  (Z.abs (word_value w1 a + word_value w2 a) < int_str_bound)%Z.
Proof.
  intros A1 A2 L1 L2.
  pose proof (word_value_bound w1 a A1) as B1.
  pose proof (word_value_bound w2 a A2) as B2.
  assert (Hpow : ∀ n, (0 ≤ n < int_max_str_digits)%Z →
            (2 * 10 ^ n ≤ int_str_bound)%Z).
  { intros n Hn. change int_str_bound with (10 ^ int_max_str_digits)%Z.
    unfold int_max_str_digits in *.
    replace 4300%Z with (n + 1 + (4299 - n))%Z by lia.
    rewrite !Z.pow_add_r, Z.pow_1_r by lia.
    pose proof (Z.pow_pos_nonneg 10 n). 
    pose proof (Z.pow_pos_nonneg 10 (4299 - n)). nia. }
  assert (Hmono : ∀ n m, (0 ≤ n ≤ m)%Z → (10 ^ n ≤ 10 ^ m)%Z)
    by (intros n m Hnm; apply Z.pow_le_mono_r; lia).
  set (n1 := Z.of_nat (String.length w1)) in *.
  set (n2 := Z.of_nat (String.length w2)) in *.
  pose proof (Hpow (Z.max n1 n2) ltac:(lia)).
  pose proof (Hmono n1 (Z.max n1 n2) ltac:(lia)).
  pose proof (Hmono n2 (Z.max n1 n2) ltac:(lia)).
  lia.
Qed.

(** X16. [get_puzzle_hints] against the validator, for a puzzle of three
    non-empty words with the duplicate-free list of their letters and a
    guess that gives digits 0-9 to puzzle letters only.  [get_hints]
    raises nothing and never returns an empty list; a guess that
    [validate_cryptarithmetic] accepts gets the single hint "Looking good
    so far!"; and when every word has fewer than 4300 letters, that hint
    alone is given to accepted guesses only.  (With longer words the
    [try] block of the hints swallows the [ValueError] of [int] or of
    printing the sum, and the hint is given to guesses the validator
    rejects.) *)
Theorem hints_agree_with_validator (s : Solver) (words : list string)
    (letters : list ascii) (a : Assignment)
    (Hspec : puzzle_spec words letters)
    (Hwords : ∀ w, w ∈ words → w ≠ EmptyString)
    (Hdigits : digit_valued a)
    (Hdom : dom a ⊆ list_to_set letters) :
  ∃ hints,
    snd (get_puzzle_hints s words letters a) = Some hints
    ∧ hints ≠ []
    ∧ (snd (validate_cryptarithmetic s words letters a)
       = (true, SolutionCorrect) → hints = [HintLookingGood])
    ∧ ((∀ w, w ∈ words →
          (Z.of_nat (String.length w) < int_max_str_digits)%Z) →
       hints = [HintLookingGood] →
       snd (validate_cryptarithmetic s words letters a)
       = (true, SolutionCorrect)).
Proof.
  pose proof Hspec as (Hlen & Hnd & Hletters).
  destruct words as [|w1 [|w2 [|w3 [|? ?]]]]; try done.
  unfold get_puzzle_hints. cbn [snd].
  destruct (get_hints_looking_good (set_puzzle s [w1; w2; w3] letters)
              w1 w2 w3 letters a eq_refl) as (hints & E & Hne & Hgood).
  exists hints. split; [done|]. split; [done|].
  rewrite Hgood, (accepted_iff_solution s _ _ a Hspec Hdigits).
  unfold solution. split.
  - intros [(Heq & _ & Hdist & Hlead & (x1 & x2 & x3 & [= <- <- <-] & N1 & N2
                                         & N3 & Hsum)) Hfit].
    split; [by rewrite Heq|]. repeat (split; [done|]).
    intros _ (n1 & n2 & n3 & E1 & E2 & E3 & Hne' & _).
    assert (Hall : ∀ w, w ∈ [w1; w2; w3] → word_assigned w a)
      by (intros w Hw; by eapply letters_of_assigned).
    rewrite word_to_number_assigned in E1, E2, E3
      by (first [done | apply Hall | apply Hfit];
          repeat first [by left | right]).
    injection E1 as <-. injection E2 as <-. injection E3 as <-. done.
  - intros Hshort (Hsub & Hlead & Hdist & Hsum).
    assert (Heq : dom a = list_to_set letters).
    { apply set_eq. intros x. split; [apply Hdom|apply Hsub]. }
    assert (Hall : ∀ w, w ∈ [w1; w2; w3] → word_assigned w a)
      by (intros w Hw; by eapply letters_of_assigned).
    assert (Hfit : words_fit [w1; w2; w3]).
    { intros w Hw. specialize (Hshort w Hw). unfold fits. lia. }
    split; [|done]. repeat (split; [done|]).
    exists w1, w2, w3. split; [done|].
    split; [apply Hwords; by left|].
    split; [apply Hwords; right; by left|].
    split; [apply Hwords; right; right; by left|].
    destruct (decide (word_value w1 a + word_value w2 a = word_value w3 a)%Z)
      as [|Hne']; [done|].
    destruct Hsum.
    { by rewrite <- size_dom, Heq, size_list_to_set_letters. }
    exists (word_value w1 a), (word_value w2 a), (word_value w3 a).
    rewrite !word_to_number_assigned
      by (first [apply Hall | apply Hwords | apply Hfit];
          repeat first [by left | right]).
    repeat (split; [done|]).
    apply short_sum_fits;
      first [apply Hall | apply Hshort]; repeat first [by left | right].
Qed.

Lemma hints_agree_with_validator_witness :
  let a : Assignment :=
    {[ "T"%char := 1%Z; "H"%char := 9%Z; "I"%char := 5%Z; "S"%char := 3%Z;
       "G"%char := 2%Z; "O"%char := 0%Z; "D"%char := 6%Z ]} in
  ∃ hints,
    snd (get_puzzle_hints new_solver ["THIS"; "IS"; "GOOD"]%string
           ["T"; "H"; "I"; "S"; "G"; "O"; "D"]%char a) = Some hints
    ∧ hints ≠ []
    ∧ hints = [HintLookingGood]
    ∧ snd (validate_cryptarithmetic new_solver
             ["THIS"; "IS"; "GOOD"]%string
             ["T"; "H"; "I"; "S"; "G"; "O"; "D"]%char a)
      = (true, SolutionCorrect).
Proof.
  cbn zeta.
  destruct (hints_agree_with_validator new_solver
              ["THIS"; "IS"; "GOOD"]%string
              ["T"; "H"; "I"; "S"; "G"; "O"; "D"]%char
              {[ "T"%char := 1%Z; "H"%char := 9%Z; "I"%char := 5%Z;
                 "S"%char := 3%Z; "G"%char := 2%Z; "O"%char := 0%Z;
                 "D"%char := 6%Z ]})
    as (hints & E & Hne & Hgood & _).
  - split; [done|]. split.
    + apply (bool_decide_unpack _). vm_compute. reflexivity.
    + vm_compute. reflexivity.
  - intros w Hw.
    repeat (apply elem_of_cons in Hw as [->|Hw]; [done|]).
    by apply elem_of_nil in Hw.
  - apply (bool_decide_unpack (map_Forall (λ _ d, (0 ≤ d ≤ 9)%Z) _)).
    vm_compute. reflexivity.
  - apply (bool_decide_unpack _). vm_compute. reflexivity.
  - assert (Hv : snd (validate_cryptarithmetic new_solver
                        ["THIS"; "IS"; "GOOD"]%string
                        ["T"; "H"; "I"; "S"; "G"; "O"; "D"]%char
                        {[ "T"%char := 1%Z; "H"%char := 9%Z; "I"%char := 5%Z;
                           "S"%char := 3%Z; "G"%char := 2%Z; "O"%char := 0%Z;
                           "D"%char := 6%Z ]})
                 = (true, SolutionCorrect)) by (vm_compute; reflexivity).
    exists hints. split; [exact E|]. split; [exact Hne|].
    split; [exact (Hgood Hv)|exact Hv].
Defined.

Section SearchOrder.

Variable words : list string.
Variable leading : gset ascii.

Implicit Types (a b : Assignment) (u : gset Z) (rest : list ascii).

Lemma try_digits_least letter rest recurse :
  letter ∉ rest → NoDup rest →
  search_ok words leading rest recurse →
  search_least words leading rest recurse →
  ∀ digits a u b,
    increasing digits →
    a !! letter = None →
    (∀ l, l ∈ rest → a !! l = None) →
    try_digits letter leading recurse digits a u = Return (Found b) →
    ∀ d' b', d' ∈ digits → d' ∉ u → ¬ (letter ∈ leading ∧ d' = 0%Z) →
      extends leading (<[letter := d']> a) rest ({[d']} ∪ u) b' →
      fst (_verify_mathematics words b') = true →
      lex_le (letter :: rest) b b'.
Proof.
  intros Hfresh Hnd Hok Hleast digits.
  induction digits as [|d ds IH]; intros a u b Hsorted Ha Hrest Hrun d' b' Hd';
    [by apply elem_of_nil in Hd'|].
  destruct Hsorted as [Hlt Hsorted].
  assert (Hfree : ∀ x l, l ∈ rest → <[letter := x]> a !! l = None).
  { intros x l Hl. rewrite lookup_insert_ne; [by apply Hrest|].
    by intros ->. }
  assert (Hat : ∀ x v b0, extends leading (<[letter := x]> a) rest v b0 →
                          b0 !! letter = Some x).
  { intros x v b0 Hext.
    destruct (extends_sound leading rest _ _ _ Hnd (Hfree x) Hext)
      as (_ & Hout & _).
    rewrite Hout by done. apply lookup_insert_eq. }
  rewrite try_digits_cons in Hrun.
  intros Hu' Hl' Hext' Hver'.
  assert (Hlater : d' ∈ ds →
            try_digits letter leading recurse ds a u = Return (Found b) →
            lex_le (letter :: rest) b b').
  { intros Hin Hrun'. by eapply (IH a u b). }
  case_bool_decide as Hused.
  { apply elem_of_cons in Hd' as [->|Hin]; [done|by apply Hlater]. }
  destruct (bool_decide (letter ∈ leading) && bool_decide (d = 0%Z))
    eqn:Hlead.
  { apply elem_of_cons in Hd' as [->|Hin]; [|by apply Hlater].
    destruct Hl'. apply andb_prop in Hlead as [H1 H2].
    split; [by apply bool_decide_eq_true in H1
           |by apply bool_decide_eq_true in H2]. }
  pose proof (Hok (<[letter := d]> a) ({[d]} ∪ u) (Hfree d)) as Hrec.
  destruct (recurse (<[letter := d]> a) ({[d]} ∪ u)) as [[b0|a' u']|e] eqn:E;
    [| |done].
  - injection Hrun as <-. destruct Hrec as [Hext0 _].
    cbn [lex_le]. rewrite (Hat _ _ _ Hext0), (Hat _ _ _ Hext').
    apply elem_of_cons in Hd' as [->|Hin].
    + right. split; [done|].
      by apply (Hleast _ _ _ (Hfree d) E).
    + left. cbn. rewrite Forall_forall in Hlt. by apply Hlt.
  - destruct Hrec as (-> & -> & Hnone).
    rewrite lookup_insert_eq in Hrun.
    rewrite bool_decide_eq_true_2 in Hrun
      by (by apply elem_of_union_l, elem_of_singleton).
    rewrite delete_insert_id in Hrun by done.
    replace (({[d]} ∪ u) ∖ {[d]}) with u in Hrun.
    2:{ apply set_eq. intros y.
        rewrite elem_of_difference, elem_of_union, !elem_of_singleton.
        split; [intros ?; split; [by right|by intros ->]
               |intros [[?|?] ?]; done]. }
    apply elem_of_cons in Hd' as [->|Hin]; [|by apply Hlater].
    rewrite (Hnone b' Hext') in Hver'. discriminate.
Qed.

Lemma range10_sorted : increasing range10.
Proof.
  unfold range10. cbn. repeat split; repeat (constructor; [lia|]); constructor.
Qed.

Lemma backtrack_solve_least rest :
  NoDup rest →
  search_least words leading rest (_backtrack_solve words leading rest).
Proof.
  induction rest as [|letter rest IH]; intros Hnd a u b Hfree Hrun b';
    [done|].
  apply NoDup_cons in Hnd as [Hfresh Hnd].
  rewrite backtrack_solve_cons in Hrun.
  intros (d' & Hd' & Hu' & Hl' & Hext') Hver'.
  eapply (try_digits_least letter rest _ Hfresh Hnd
            (backtrack_solve_ok words leading rest Hnd) (IH Hnd)
            range10 a u b range10_sorted); try done.
  - apply Hfree. by left.
  - intros l Hl. apply Hfree. by right.
  - apply elem_of_seqZ. lia.
Qed.

End SearchOrder.

Section Least.

Lemma solve_puzzle_least (s : Solver) (words : list string)
    (letters : list ascii) s' b :
  solver_inv s → length words = 3 → NoDup letters →
  solve_puzzle s words letters = Return (s', Some b) →
  valid_assignment words letters b
  ∧ ∀ b', valid_assignment words letters b' → lex_le letters b b'.
Proof.
  intros Hinv Hlen Hnd Hrun.
  destruct (solve_puzzle_cases s words letters Hinv Hlen Hnd)
    as (found & Hsearch & Hhit & Hmiss).
  destruct (search_correct words letters Hnd) as (found' & Hsearch' & Hfound).
  rewrite Hsearch in Hsearch'. injection Hsearch' as <-.
  assert (Hb : found = Found b).
  { destruct (solution_cache s !! puzzle_key words letters) eqn:Hc.
    - rewrite Hhit in Hrun by done. injection Hrun as _ Hr.
      by destruct found; [injection Hr as ->|].
    - rewrite Hmiss in Hrun by done. injection Hrun as _ Hr.
      by destruct found; [injection Hr as ->|]. }
  subst found. split; [done|].
  intros b' (Hdom & Hdigits & Hdist & Hlead & Hsum).
  eapply (backtrack_solve_least words (leading_letters_of words) letters Hnd
            ∅ ∅ b); [done|done| |by apply verify_sum_holds].
  by apply extends_top.
Qed.

End Least.

(** X17. Which solution the solver returns: the first one in its search
    order.  For a puzzle of three words with the duplicate-free list of
    their letters, an assignment returned by [solve_puzzle] is a solution,
    and every solution of the puzzle comes after it or is equal to it in
    the order that compares the digit of the first letter of
    [unique_letters], then of the second, and so on. *)
Theorem solver_returns_least (s s' : Solver) (words : list string)
    (letters : list ascii) (b : Assignment)
    (Hinv : solver_inv s) (Hspec : puzzle_spec words letters)
    (Hrun : solve_puzzle s words letters = Return (s', Some b)) :
  solution words letters b
  ∧ ∀ b', solution words letters b' → lex_le letters b b'.
Proof.
  pose proof Hspec as (Hlen & Hnd & _).
  destruct (solve_puzzle_least s words letters s' b Hinv Hlen Hnd Hrun)
    as [Hvalid Hleast].
  apply valid_assignment_solution in Hvalid as [Hsol Hfit]; [|done].
  split; [done|].
  intros b' Hb'. apply Hleast, valid_assignment_solution; [done|].
  by split.
Qed.

Lemma solver_returns_least_witness :
  ∃ s' b,
    solve_puzzle new_solver ["A"; "A"; "BC"]%string ["A"; "B"; "C"]%char
    = Return (s', Some b)
    ∧ b = {[ "A"%char := 5%Z; "B"%char := 1%Z; "C"%char := 0%Z ]}
    ∧ solution ["A"; "A"; "BC"]%string ["A"; "B"; "C"]%char b
    ∧ ∀ b', solution ["A"; "A"; "BC"]%string ["A"; "B"; "C"]%char b'
            → lex_le ["A"; "B"; "C"]%char b b'.
Proof.
  eexists _, _. split; [vm_compute; reflexivity|].
  split; [vm_compute; reflexivity|].
  eapply (solver_returns_least new_solver).
  - by left.
  - split; [done|]. split.
    + apply (bool_decide_unpack _). vm_compute. reflexivity.
    + vm_compute. reflexivity.
  - vm_compute. reflexivity.
Defined.

(** * Properties of the persistence module *)

Section Persistence.

Import Part2.

Lemma readable_dict (d : gmap string JValue) :
  readable (JDict d) = true ↔ map_Forall (λ _ v, readable v = true) d.
Proof.
  cbn [readable].
  induction d as [|k v d Hk Hfold IH] using map_first_key_ind.
  - rewrite map_fold_empty. split; [intros _; apply map_Forall_empty|done].
  - rewrite map_fold_insert_first_key by done.
    rewrite map_Forall_insert by done. by rewrite andb_true_iff, IH.
Qed.

Lemma readable_insert (d : gmap string JValue) k v :
  readable (JDict d) = true → readable v = true →
  readable (JDict (<[k := v]> d)) = true.
Proof.
  rewrite !readable_dict. intros Hd Hv. by apply map_Forall_insert_2.
Qed.

(** What is written, on top of the dictionary [d0] found in the file. *)
Lemma save_progress_write now i (d0 : gmap string JValue) :
  let data2 := <["last_played"%string := JStr now]>
                 (<["highest_level_completed"%string := JInt i]> d0) in
  let d := match data2 !! "session_history"%string with
           | None => <["session_history"%string := JList []]> data2
           | Some _ => data2
           end in
  d !! "highest_level_completed"%string = Some (JInt i)
  ∧ d !! "last_played"%string = Some (JStr now)
  ∧ d !! "session_history"%string
    = Some (default (JList []) (d0 !! "session_history"%string))
  ∧ (∀ k, k ∉ written_keys → d !! k = d0 !! k)
  ∧ (readable (JDict d0) = true → int_fits i = true →
     readable (JDict d) = true).
Proof.
  intros data2.
  assert (Hhist : data2 !! "session_history"%string
                  = d0 !! "session_history"%string).
  { subst data2. by rewrite !lookup_insert_ne by done. }
  assert (Hk : ∀ k, k ∉ written_keys → data2 !! k = d0 !! k).
  { intros k Hk. subst data2.
    rewrite !lookup_insert_ne; [done|..]; intros <-; apply Hk;
      unfold written_keys; repeat first [by left | right]. }
  assert (Hread : readable (JDict d0) = true → int_fits i = true →
                  readable (JDict data2) = true).
  { intros Hd0 Hi. subst data2. by repeat apply readable_insert. }
  destruct (data2 !! "session_history"%string) as [h|] eqn:E; cbn zeta.
  - subst data2.
    split; [by rewrite lookup_insert_ne, lookup_insert_eq by done|].
    split; [by rewrite lookup_insert_eq|].
    split; [by rewrite E, <- Hhist|]. by split.
  - subst data2.
    split; [by rewrite !lookup_insert_ne, lookup_insert_eq by done|].
    split; [by rewrite lookup_insert_ne, lookup_insert_eq by done|].
    split; [by rewrite lookup_insert_eq, <- Hhist|].
    split.
    + intros k Hk'. rewrite lookup_insert_ne; [by apply (Hk k)|].
      intros <-. apply Hk'. unfold written_keys.
      repeat first [by left | right].
    + intros Hd0 Hi. apply readable_insert; [by apply Hread|done].
Qed.

Lemma readable_empty : readable (JDict ∅) = true.
Proof. apply readable_dict, map_Forall_empty. Qed.

Lemma save_progress_usable now i file :
  usable file → int_fits i = true →
  ∃ d, save_progress now i file = Stored (JDict d)
    ∧ readable (JDict d) = true
    ∧ d !! "highest_level_completed"%string = Some (JInt i)
    ∧ d !! "last_played"%string = Some (JStr now)
    ∧ d !! "session_history"%string
      = Some (default (JList []) (entries_of file !! "session_history"%string))
    ∧ ∀ k, k ∉ written_keys → d !! k = entries_of file !! k.
Proof.
  intros Hfile Hi.
  assert (Hgen : ∀ d0 : gmap string JValue, readable (JDict d0) = true →
    ∃ d, (let data2 := <["last_played"%string := JStr now]>
                         (<["highest_level_completed"%string := JInt i]> d0) in
          let data3 := match data2 !! "session_history"%string with
                       | None => <["session_history"%string := JList []]> data2
                       | Some _ => data2
                       end in
          if int_fits i then Stored (JDict data3) else Garbled)
         = Stored (JDict d)
      ∧ readable (JDict d) = true
      ∧ d !! "highest_level_completed"%string = Some (JInt i)
      ∧ d !! "last_played"%string = Some (JStr now)
      ∧ d !! "session_history"%string
        = Some (default (JList []) (d0 !! "session_history"%string))
      ∧ ∀ k, k ∉ written_keys → d !! k = d0 !! k).
  { intros d0 Hd0. cbn zeta. rewrite Hi. eexists. split; [reflexivity|].
    destruct (save_progress_write now i d0) as (H1 & H2 & H3 & H4 & H5).
    split; [by apply H5|]. by repeat split. }
  destruct file as [| | |[| | | | |d0]]; try done.
  - exact (Hgen ∅ readable_empty).
  - exact (Hgen ∅ readable_empty).
  - cbn [usable] in Hfile. unfold save_progress, json_load.
    rewrite Hfile. exact (Hgen d0 Hfile).
Qed.

Lemma save_progress_unprintable now i file :
  usable file → int_fits i = false → save_progress now i file = Garbled.
Proof.
  intros Hfile Hi. destruct file as [| | |[| | | | |d0]]; try done.
  - unfold save_progress. by rewrite Hi.
  - unfold save_progress, json_load. by rewrite Hi.
  - cbn [usable] in Hfile. unfold save_progress, json_load.
    by rewrite Hfile, Hi.
Qed.

(** A file that is not usable is left alone, and cannot be loaded. *)
Lemma save_progress_unusable now i file :
  ¬ usable file →
  save_progress now i file = file
  ∧ load_progress file
    = inl match file with
          | NotText => UnicodeDecodeError
          | Stored data => if readable data then AttributeError else ValueError
          | _ => AttributeError
          end.
Proof.
  intros Hfile. destruct file as [| | |data]; try done.
  unfold save_progress, load_progress, json_load.
  destruct (readable data) eqn:Hr; [|done].
  by destruct data.
Qed.

End Persistence.

(** X18. Saving and loading progress (JSON without floating-point
    numbers).  When the save file is absent, is text that is not JSON, or
    holds a dictionary that [json.load] reads, [save_progress] with a
    level that [json.dump] can print writes a dictionary with the level,
    the time and a session history (the stored one, or an empty list),
    keeps every other entry, and the [load_progress] that follows returns
    the saved level capped at the last level index; with a level of more
    than 4300 digits it leaves text that is not JSON, from which
    [load_progress] returns 0.  Every other file is left as it is, and
    [load_progress] raises on it: [UnicodeDecodeError] when the bytes are
    not text, [ValueError] when an integer in it has more than 4300
    digits, [AttributeError] when the JSON value is not a dictionary. *)
Theorem save_then_load (now : string) (i : Z) (file : Part2.SaveFile) :
  (usable file → Part2.int_fits i = true →
     usable (Part2.save_progress now i file)
     ∧ Part2.load_progress (Part2.save_progress now i file)
       = inr (Part2.JInt (Z.min i Part1.get_max_level_index))
     ∧ entries_of (Part2.save_progress now i file)
         !! "highest_level_completed"%string = Some (Part2.JInt i)
     ∧ ∀ k, k ∉ written_keys →
         entries_of (Part2.save_progress now i file) !! k
         = entries_of file !! k)
  ∧ (usable file → Part2.int_fits i = false →
     Part2.save_progress now i file = Part2.Garbled
     ∧ Part2.load_progress (Part2.save_progress now i file)
       = inr (Part2.JInt 0))
  ∧ (¬ usable file →
     Part2.save_progress now i file = file
     ∧ Part2.load_progress file
       = inl match file with
             | Part2.NotText => Part2.UnicodeDecodeError
             | Part2.Stored data =>
                 if Part2.readable data then Part2.AttributeError
                 else Part2.ValueError
             | _ => Part2.AttributeError
             end).
Proof.
  split; [|split].
  - intros Hfile Hi.
    destruct (save_progress_usable now i file Hfile Hi)
      as (d & -> & Hread & Hlevel & _ & _ & Hkeep).
    split; [done|]. split; [|by split].
    unfold Part2.load_progress, Part2.json_load. rewrite Hread, Hlevel.
    cbn [default].
    do 2 f_equal. destruct (Z.ltb_spec Part1.get_max_level_index i); lia.
  - intros Hfile Hi.
    by rewrite (save_progress_unprintable now i file Hfile Hi).
  - apply save_progress_unusable.
Qed.

Section Sessions.

Import Part2.

Lemma record_level_attempt_counts now d level ty ok :
  let d' := record_level_attempt now level ty ok d in
  levels_attempted d' = levels_attempted d ++ [mkAttempt level ty ok now]
  ∧ total_playtime d' = total_playtime d
  ∧ cryptarithmetic_attempts d'
    = (cryptarithmetic_attempts d
       + if bool_decide (ty = "cryptarithmetic"%string) then 1 else 0)%Z
  ∧ river_crossing_attempts d'
    = (river_crossing_attempts d
       + if bool_decide (ty = "river_crossing"%string) then 1 else 0)%Z.
Proof.
  unfold record_level_attempt, update_session_stats.
  repeat case_bool_decide; simplify_eq; cbn; repeat split; lia.
Qed.

Lemma record_attempts_cons now call rest d :
  record_attempts now (call :: rest) d
  = record_attempts now rest
      (record_level_attempt now call.1.1 call.1.2 call.2 d).
Proof. reflexivity. Qed.

Lemma record_attempts_counts now calls d :
  let d' := record_attempts now calls d in
  levels_attempted d'
  = levels_attempted d
    ++ ((λ call, mkAttempt call.1.1 call.1.2 call.2 now) <$> calls)
  ∧ total_playtime d' = total_playtime d
  ∧ cryptarithmetic_attempts d'
    = (cryptarithmetic_attempts d
       + Z.of_nat (length (filter (λ call, call.1.2 = "cryptarithmetic"%string)
                                  calls)))%Z
  ∧ river_crossing_attempts d'
    = (river_crossing_attempts d
       + Z.of_nat (length (filter (λ call, call.1.2 = "river_crossing"%string)
                                  calls)))%Z.
Proof.
  revert d. induction calls as [|[[level ty] ok] rest IH]; intros d.
  - cbn. rewrite app_nil_r. repeat split; lia.
  - rewrite record_attempts_cons. cbn [fst snd].
    destruct (IH (record_level_attempt now level ty ok d))
      as (E1 & E2 & E3 & E4).
    destruct (record_level_attempt_counts now d level ty ok)
      as (F1 & F2 & F3 & F4).
    cbn zeta in *. cbn [fst snd] in *.
    rewrite E1, E2, E3, E4, F1, F2, F3, F4, !filter_cons, fmap_cons.
    cbn [fst snd]. rewrite <- app_assoc. cbn [app].
    split; [done|]. split; [done|].
    split.
    + destruct (decide (ty = "cryptarithmetic"%string)) as [Ht|Ht];
        [rewrite bool_decide_eq_true_2 by done
        |rewrite bool_decide_eq_false_2 by done]; cbn [length]; lia.
    + destruct (decide (ty = "river_crossing"%string)) as [Ht|Ht];
        [rewrite bool_decide_eq_true_2 by done
        |rewrite bool_decide_eq_false_2 by done]; cbn [length]; lia.
Qed.

End Sessions.

(** X19. The session counters count.  After any sequence of
    [record_level_attempt] calls on a fresh [ProgressManager] the
    cryptarithmetic and the river counters are the numbers of attempts
    recorded with that puzzle type, the playtime is untouched, and in
    [get_session_summary] the total is the number of calls, the number of
    distinct levels is at most the total, and the two counters together
    are at most the total. *)
Theorem session_counters (now : string) (calls : list (Z * string * bool)) :
  let d := record_attempts now calls (Part2.new_session now) in
  let s := Part2.get_session_summary d in
  Part2.summary_total_attempts s = length calls
  ∧ Part2.summary_levels_attempted s
    = size (list_to_set ((λ call, call.1.1) <$> calls) : gset Z)
  ∧ Part2.summary_levels_attempted s ≤ length calls
  ∧ Part2.summary_cryptarithmetic_attempts s
    = Z.of_nat (length (filter (λ call, call.1.2 = "cryptarithmetic"%string)
                               calls))
  ∧ Part2.summary_river_crossing_attempts s
    = Z.of_nat (length (filter (λ call, call.1.2 = "river_crossing"%string)
                               calls))
  ∧ (Part2.summary_cryptarithmetic_attempts s
     + Part2.summary_river_crossing_attempts s
     ≤ Z.of_nat (length calls))%Z
  ∧ Part2.total_playtime d = 0%Z.
Proof.
  cbn zeta.
  destruct (record_attempts_counts now calls (Part2.new_session now))
    as (E1 & E2 & E3 & E4).
  cbn zeta in *. unfold Part2.get_session_summary.
  cbn [Part2.summary_total_attempts Part2.summary_levels_attempted
       Part2.summary_cryptarithmetic_attempts
       Part2.summary_river_crossing_attempts].
  rewrite E1, E2, E3, E4. cbn [Part2.new_session Part2.levels_attempted
    Part2.total_playtime Part2.cryptarithmetic_attempts
    Part2.river_crossing_attempts app].
  rewrite length_fmap, <- list_fmap_compose.
  assert (Hlevels : (Part2.attempt_level
                     ∘ (λ call : Z * string * bool,
                          Part2.mkAttempt call.1.1 call.1.2 call.2 now)
                     <$> calls)
                    = (λ call, call.1.1) <$> calls) by done.
  rewrite Hlevels.
  split; [done|]. split; [done|].
  split.
  { etrans; [apply size_list_to_set_le|]. by rewrite length_fmap. }
  split; [lia|]. split; [lia|]. split; [|done].
  assert (Hdisj : length (filter (λ call : Z * string * bool,
                            call.1.2 = "cryptarithmetic"%string) calls)
                  + length (filter (λ call : Z * string * bool,
                              call.1.2 = "river_crossing"%string) calls)
                  ≤ length calls).
  { clear. induction calls as [|x l IH]; [done|]. rewrite !filter_cons.
    repeat case_decide; cbn [length]; try lia. congruence. }
  lia.
Qed.

(** * The monolith's validator against the module's *)

Section LegacyValidator.

Implicit Types (a : Assignment) (words : list string) (letters : list ascii).





End LegacyValidator.



(** * The application as a whole *)

Section Levels.

Lemma levels_puzzle_spec lv :
  lv ∈ Part1.LEVELS →
  puzzle_spec (Part1.words lv) (Part1.unique_letters lv)
  ∧ (∀ w, w ∈ Part1.words lv → w ≠ EmptyString)
  ∧ (0 ≤ Part1.final_m lv)%Z ∧ (0 ≤ Part1.final_c lv)%Z.
Proof.
  intros Hlv. unfold Part1.LEVELS in Hlv.
  repeat (apply elem_of_cons in Hlv as [->|Hlv];
    [split; [split; [done|split;
               [apply (bool_decide_unpack _); vm_compute; reflexivity
               |vm_compute; reflexivity]]|];
     split; [|cbn; lia];
     intros w Hw; cbn in Hw;
     repeat (apply elem_of_cons in Hw as [->|Hw]; [done|]);
     by apply elem_of_nil in Hw|]).
  by apply elem_of_nil in Hlv.
Qed.

(** The words of the levels are short enough for [int]. *)
Lemma levels_fit lv : lv ∈ Part1.LEVELS → words_fit (Part1.words lv).
Proof.
  intros Hlv. unfold Part1.LEVELS in Hlv.
  repeat (apply elem_of_cons in Hlv as [->|Hlv];
    [intros w Hw; cbn in Hw;
     repeat (apply elem_of_cons in Hw as [->|Hw];
             [unfold fits, int_max_str_digits; cbn; lia|]);
     by apply elem_of_nil in Hw|]).
  by apply elem_of_nil in Hlv.
Qed.

Lemma level_lookup (i : Z) :
  (0 ≤ i < Part1.get_level_count)%Z →
  ∃ lv, Part1.LEVELS !! Z.to_nat i = Some lv ∧ lv ∈ Part1.LEVELS.
Proof.
  intros Hi. unfold Part1.get_level_count in Hi.
  destruct (lookup_lt_is_Some_2 Part1.LEVELS (Z.to_nat i)) as [lv Hlv]; [lia|].
  exists lv. split; [done|]. by eapply list_elem_of_lookup_2.
Qed.

End Levels.

Section CryptoInput.

Import Part5.

Implicit Types (ui : CryptoUI) (letter : ascii).

Lemma digit_value_range c d : digit_value c = Some d → (0 ≤ d ≤ 9)%Z.
Proof.
  unfold digit_value.
  destruct (Z.leb_spec 48 (Z.of_nat (nat_of_ascii c))); cbn [andb];
    [|discriminate].
  destruct (Z.leb_spec (Z.of_nat (nat_of_ascii c)) 57); [|discriminate].
  intros [= <-]. lia.
Qed.

Lemma find_duplicate_None digit letter ui :
  _find_duplicate_assignment digit letter ui = None
  ↔ ∀ l, l ≠ letter → current_guess ui !! l ≠ Some digit.
Proof.
  unfold _find_duplicate_assignment.
  destruct (find _ (map_to_list (current_guess ui))) as [[l d]|] eqn:E;
    cbn [fmap option_fmap option_map].
  - split; [done|]. intros Hall. exfalso.
    apply find_some in E as [Hin Hp].
    apply list_elem_of_In, elem_of_map_to_list in Hin.
    apply andb_prop in Hp as [H1 H2]. cbn [fst snd] in *.
    apply bool_decide_eq_true in H1, H2. subst d. by apply (Hall l).
  - split; [|done]. intros _ l Hl Hd.
    apply elem_of_map_to_list, list_elem_of_In in Hd.
    pose proof (find_none _ _ E _ Hd) as Hp. cbn [fst snd] in Hp.
    apply andb_false_iff in Hp as [Hp|Hp];
      apply bool_decide_eq_false in Hp; done.
Qed.

Lemma find_duplicate_Some digit letter ui l :
  _find_duplicate_assignment digit letter ui = Some l →
  l ≠ letter ∧ current_guess ui !! l = Some digit.
Proof.
  unfold _find_duplicate_assignment.
  destruct (find _ (map_to_list (current_guess ui))) as [[l' d]|] eqn:E;
    cbn [fmap option_fmap option_map]; [|discriminate].
  intros [= <-]. apply find_some in E as [Hin Hp].
  apply list_elem_of_In, elem_of_map_to_list in Hin.
  apply andb_prop in Hp as [H1 H2]. cbn [fst snd] in *.
  apply bool_decide_eq_true in H1, H2. by subst d.
Qed.

(** The two things [on_input_change] can do to the guess. *)
Lemma on_input_change_cases letter content ui :
  let ui' := on_input_change letter content ui in
  current_level_index ui' = current_level_index ui
  ∧ guess_entries ui' = guess_entries ui
  ∧ (current_guess ui' = delete letter (current_guess ui)
     ∨ ∃ digit, (0 ≤ digit ≤ 9)%Z
         ∧ (∀ l, l ≠ letter → current_guess ui !! l ≠ Some digit)
         ∧ current_guess ui' = <[letter := digit]> (current_guess ui)).
Proof.
  unfold on_input_change.
  destruct (if (1 <? String.length content)%nat then last_char content
            else content) as [|c rest]; [by repeat split; left|].
  destruct (digit_value c) as [d|] eqn:Hd; [|by repeat split; left].
  destruct (_find_duplicate_assignment d letter ui) as [l|] eqn:Hdup;
    [by repeat split; left|].
  repeat split. right. exists d. split; [by eapply digit_value_range|].
  split; [by apply find_duplicate_None|done].
Qed.

Lemma delete_keeps_guess letter (a : Assignment) (entries : list ascii) :
  digit_valued a → distinct_digits a → dom a ⊆ list_to_set entries →
  digit_valued (delete letter a) ∧ distinct_digits (delete letter a)
  ∧ dom (delete letter a) ⊆ list_to_set entries.
Proof.
  intros Hdig Hdist Hdom. split; [|split].
  - intros l d Hl. apply lookup_delete_Some in Hl as [_ Hl]. by eapply Hdig.
  - intros l1 l2 d H1 H2. apply lookup_delete_Some in H1 as [_ H1].
    apply lookup_delete_Some in H2 as [_ H2]. by eapply Hdist.
  - intros l Hl. apply Hdom. apply elem_of_dom in Hl as [d Hl].
    apply lookup_delete_Some in Hl as [_ Hl]. apply elem_of_dom. by eexists.
Qed.

Lemma insert_keeps_guess letter digit (a : Assignment) (entries : list ascii) :
  digit_valued a → distinct_digits a → dom a ⊆ list_to_set entries →
  letter ∈ entries → (0 ≤ digit ≤ 9)%Z →
  (∀ l, l ≠ letter → a !! l ≠ Some digit) →
  digit_valued (<[letter := digit]> a)
  ∧ distinct_digits (<[letter := digit]> a)
  ∧ dom (<[letter := digit]> a) ⊆ list_to_set entries.
Proof.
  intros Hdig Hdist Hdom Hin Hd Hfree. split; [|split].
  - intros l d Hl. apply lookup_insert_Some in Hl as [[_ <-]|[_ Hl]];
      [done|by eapply Hdig].
  - intros l1 l2 d H1 H2.
    apply lookup_insert_Some in H1 as [[<- <-]|[N1 H1]];
      apply lookup_insert_Some in H2 as [[<- E2]|[N2 H2]]; try done.
    + by destruct (Hfree l2).
    + subst d. by destruct (Hfree l1).
    + by eapply Hdist.
  - rewrite dom_insert_L. intros l Hl.
    apply elem_of_union in Hl as [Hl|Hl]; [|by apply Hdom].
    apply elem_of_singleton in Hl as ->. by apply elem_of_list_to_set.
Qed.

Lemma on_input_change_keeps letter content ui :
  digit_valued (current_guess ui) → distinct_digits (current_guess ui) →
  dom (current_guess ui) ⊆ list_to_set (guess_entries ui) →
  letter ∈ guess_entries ui →
  let ui' := on_input_change letter content ui in
  digit_valued (current_guess ui') ∧ distinct_digits (current_guess ui')
  ∧ dom (current_guess ui') ⊆ list_to_set (guess_entries ui').
Proof.
  intros Hdig Hdist Hdom Hin.
  destruct (on_input_change_cases letter content ui)
    as (_ & He & [Hg|(d & Hd & Hfree & Hg)]); cbn zeta; rewrite He, Hg.
  - by apply delete_keeps_guess.
  - by apply insert_keeps_guess.
Qed.

End CryptoInput.

Section AppInvariant.

Import App.

Implicit Types (a : App) (ev : Event).

Lemma level_count : Part1.get_level_count = 3%Z.
Proof. reflexivity. Qed.

Lemma max_level_index : Part1.get_max_level_index = 2%Z.
Proof. reflexivity. Qed.

Lemma load_progress_usable file v :
  Part2.load_progress file = inr v → usable file.
Proof.
  destruct file as [| | |data]; try done.
  unfold Part2.load_progress, Part2.json_load. cbn [usable].
  destruct (Part2.readable data) eqn:Hr; [|done]. by destruct data.
Qed.

(** The level indices of the game are numbers that can be printed. *)
Lemma level_index_fits (i : Z) :
  (0 ≤ i ≤ Part1.get_level_count)%Z → Part2.int_fits i = true.
Proof.
  rewrite level_count. intros Hi. unfold Part2.int_fits.
  apply Z.ltb_lt. change int_str_bound with (10 ^ int_max_str_digits)%Z.
  unfold int_max_str_digits.
  pose proof (Z.pow_le_mono_r 10 1 4300). lia.
Qed.

(** The fields of the controller after a river win. *)
Lemma on_river_complete_fields (c : Part6.Controller) :
  (0 ≤ Part6.current_level c < Part1.get_level_count)%Z →
  Part6.current_level (Part6._on_river_complete c)
  = next_level (Part6.current_level c)
  ∧ Part6.highest_level_completed (Part6._on_river_complete c)
    = (if (Part6.highest_level_completed c <=? Part6.current_level c)%Z
       then Part6.current_level c + 1
       else Part6.highest_level_completed c)%Z.
Proof.
  rewrite level_count. intros Hc.
  unfold Part6._on_river_complete, Part6._load_level, next_level.
  rewrite level_count.
  cbn [Part6.current_level Part6.highest_level_completed
       Part6.persistence_calls].
  destruct (Z.leb_spec (Part6.highest_level_completed c)
              (Part6.current_level c));
    cbn [Part6.current_level Part6.highest_level_completed
         Part6.persistence_calls];
    destruct (Z.ltb_spec (Part6.current_level c) (3 - 1));
    repeat match goal with
    | |- context [(?x <=? ?y)%Z] => destruct (Z.leb_spec x y); try lia
    | |- context [(?x <? ?y)%Z] => destruct (Z.ltb_spec x y); try lia
    end; cbn; done.
Qed.

Lemma next_level_range (i : Z) :
  (0 ≤ i < Part1.get_level_count)%Z →
  (0 ≤ next_level i < Part1.get_level_count)%Z.
Proof.
  rewrite level_count. unfold next_level. rewrite level_count.
  destruct (Z.ltb_spec i (3 - 1)); lia.
Qed.

Lemma load_level_fields (i : Z) (ui : Part5.CryptoUI) :
  (0 ≤ i < Part1.get_level_count)%Z →
  ∃ lv, Part1.LEVELS !! Z.to_nat i = Some lv
    ∧ Part5.load_level i ui = Part5.mkCryptoUI i ∅ (Part1.unique_letters lv).
Proof.
  intros Hi. destruct (level_lookup i Hi) as (lv & Hlv & _).
  exists lv. split; [done|]. unfold Part5.load_level.
  rewrite level_count in Hi. change (Z.of_nat (length Part1.LEVELS)) with 3%Z.
  destruct (Z.leb_spec 0 i); [|lia]. destruct (Z.ltb_spec i 3); [|lia].
  cbn [andb negb]. by rewrite Hlv.
Qed.

Lemma empty_guess (entries : list ascii) :
  digit_valued (∅ : Assignment) ∧ distinct_digits (∅ : Assignment)
  ∧ dom (∅ : Assignment) ⊆ (list_to_set entries : gset ascii).
Proof.
  split; [|split].
  - intros l d H. by rewrite lookup_empty in H.
  - intros l1 l2 d H. by rewrite lookup_empty in H.
  - rewrite dom_empty_L. intros x Hx.
    by apply (not_elem_of_empty (C:=gset ascii)) in Hx.
Qed.

(** A completed level: what [_on_river_complete] leaves behind. *)
Lemma on_river_complete_inv now a :
  app_inv a →
  let a' := _on_river_complete now a in
  app_inv a'
  ∧ Part6.current_level (controller a')
    = next_level (Part6.current_level (controller a))
  ∧ Part6.highest_level_completed (controller a')
    = (if (Part6.highest_level_completed (controller a)
           <=? Part6.current_level (controller a))%Z
       then Part6.current_level (controller a) + 1
       else Part6.highest_level_completed (controller a))%Z
  ∧ is_unlocked a' = false
  ∧ game a' = game a
  ∧ Part5.current_guess (crypto_ui a') = ∅.
Proof.
  intros (Hrange & Hidx & Hentries & Hdig & Hdist & Hdom & Hreach & Hfile).
  cbn zeta.
  destruct (on_river_complete_fields (controller a) Hrange) as [Ecur Ehigh].
  pose proof (next_level_range _ Hrange) as Hnext.
  destruct (load_level_fields (next_level (Part6.current_level (controller a)))
              (crypto_ui a) Hnext) as (lv & Hlv & Hload).
  unfold _on_river_complete. fold (next_level (Part6.current_level (controller a))).
  destruct (Z.leb_spec 0 (next_level (Part6.current_level (controller a))));
    [|lia].
  destruct (Z.ltb_spec (next_level (Part6.current_level (controller a)))
              Part1.get_level_count); [|lia].
  cbn [andb negb].
  unfold lock_challenge, set_is_unlocked, set_crypto_ui, set_controller.
  cbn [controller crypto_ui is_unlocked game solver save_file session_data].
  assert (Hui : ∀ a0, crypto_ui a0 = crypto_ui a →
            Part5.load_level (next_level (Part6.current_level (controller a)))
              (crypto_ui a0)
            = Part5.mkCryptoUI (next_level (Part6.current_level (controller a)))
                ∅ (Part1.unique_letters lv)).
  { intros a0 ->. exact Hload. }
  destruct (Z.leb_spec (Part6.highest_level_completed (controller a))
              (Part6.current_level (controller a))) as [Hle|Hgt];
    cbn [set_save_file set_session_data controller crypto_ui is_unlocked game
         solver save_file session_data];
    rewrite Hload; (split; [|by repeat split]);
    unfold app_inv, level_of;
    cbn [controller crypto_ui is_unlocked game solver save_file session_data
         Part5.current_level_index Part5.current_guess Part5.guess_entries];
    rewrite Ecur, Ehigh;
    (split; [done|]); (split; [done|]);
    (split; [right; by exists lv|]);
    destruct (empty_guess (Part1.unique_letters lv)) as (G1 & G2 & G3);
    (split; [done|]); (split; [done|]); (split; [done|]);
    (split; [done|]).
  - destruct Hfile as (v & Hv & _).
    destruct (save_progress_usable now
                (Part6.current_level (controller a) + 1) (save_file a)
                (load_progress_usable _ _ Hv))
      as (d & -> & Hread & Hlevel & _).
    { apply level_index_fits. lia. }
    eexists. split.
    + unfold Part2.load_progress, Part2.json_load. rewrite Hread, Hlevel.
      cbn [default]. reflexivity.
    + cbn [as_int].
      f_equal. destruct (Z.ltb_spec Part1.get_max_level_index
                           (Part6.current_level (controller a) + 1)); lia.
  - exact Hfile.
Qed.

End AppInvariant.

Section AppSteps.

Import App.

Implicit Types (a : App) (ev : Event).

Lemma remove_from_boat_returns g cid ch :
  Part4.get_character g cid = Some ch →
  ∃ g' ok msg, remove_from_boat g cid = Return (g', (ok, msg)).
Proof.
  intros Hch. unfold remove_from_boat, can_remove_from_boat.
  destruct (is_game_over (state g)); [by eexists _, _, _|].
  case_bool_decide as Hin; cbn [negb]; [|by eexists _, _, _].
  destruct (list_remove_elem _ _ Hin) as [crew' ->]. rewrite Hch.
  by eexists _, _, _.
Qed.

(** With the river game replaced by a game of the same session the
    invariant stays. *)
Lemma app_inv_set_game a g :
  app_inv a →
  (∀ lv, level_of a = Some lv →
     reachable (Part1.final_m lv) (Part1.final_c lv) (Part1.final_k lv)
       (game a) →
     reachable (Part1.final_m lv) (Part1.final_c lv) (Part1.final_k lv) g) →
  app_inv (set_game g a).
Proof.
  intros (Hrange & Hidx & Hentries & Hdig & Hdist & Hdom & Hreach & Hfile) Hg.
  unfold app_inv, level_of, set_game.
  cbn [controller crypto_ui is_unlocked game solver save_file session_data].
  repeat (split; [done|]). split; [|done].
  intros Hun. destruct (Hreach Hun) as (lv & Hlv & Hr).
  exists lv. split; [done|]. by apply Hg.
Qed.

Lemma on_character_click_inv cid a :
  app_inv a → ∃ a', _on_character_click cid a = Some a' ∧ app_inv a'
    ∧ controller a' = controller a ∧ is_unlocked a' = is_unlocked a
    ∧ (is_unlocked a = false → a' = a).
Proof.
  intros Hinv. unfold _on_character_click.
  destruct (is_unlocked a) eqn:Hun; cbn [negb]; [|by exists a].
  destruct (Part4.get_character (game a) cid) as [ch|] eqn:Hch;
    [|exists a; by rewrite Hun].
  case_bool_decide as Hin.
  - destruct (remove_from_boat_returns _ _ _ Hch) as (g' & ok & msg & E).
    rewrite E. eexists. split; [done|]. split; [|by repeat split].
    apply app_inv_set_game; [done|]. intros lv _ Hr.
    apply (reachable_step _ _ _ _ (RemoveFromBoat cid) _ Hr).
    cbn [step]. by rewrite E.
  - destruct (add_to_boat_total (game a) cid) as (g' & ok & msg & E & _).
    rewrite E. eexists. split; [done|]. split; [|by repeat split].
    apply app_inv_set_game; [done|]. intros lv _ Hr.
    apply (reachable_step _ _ _ _ (AddToBoat cid) _ Hr).
    cbn [step]. by rewrite E.
Qed.

Lemma travel_boat_inv a :
  app_inv a → ∃ a', _travel_boat a = Some a' ∧ app_inv a'
    ∧ controller a' = controller a ∧ is_unlocked a' = is_unlocked a
    ∧ (is_unlocked a = false → a' = a).
Proof.
  intros Hinv. unfold _travel_boat.
  destruct (is_unlocked a) eqn:Hun; cbn [negb]; [|by exists a].
  pose proof Hinv as (_ & _ & _ & _ & _ & _ & Hreach & _).
  destruct (Hreach Hun) as (lv & Hlv & Hr).
  destruct (reachable_conserved _ _ _ _ Hr) as [_ Hknown].
  destruct (travel_follows_can_travel _ Hknown) as (g' & msg & E).
  rewrite E. eexists. split; [done|]. split; [|by repeat split].
  apply app_inv_set_game; [done|]. intros lv' _ Hr'.
  apply (reachable_step _ _ _ _ Travel _ Hr'). cbn [step]. by rewrite E.
Qed.

Lemma restart_river_challenge_inv a :
  app_inv a → app_inv (_restart_river_challenge a)
    ∧ controller (_restart_river_challenge a) = controller a
    ∧ is_unlocked (_restart_river_challenge a) = is_unlocked a
    ∧ (is_unlocked a = false → _restart_river_challenge a = a).
Proof.
  intros Hinv. unfold _restart_river_challenge.
  destruct (is_unlocked a) eqn:Hun; [|done].
  split; [|by repeat split].
  apply app_inv_set_game; [done|]. intros lv _ Hr.
  unfold Part4.restart_game.
  destruct (reachable_parameters _ _ _ _ Hr) as (-> & -> & ->).
  apply reachable_init.
Qed.

Lemma app_inv_level a :
  app_inv a →
  ∃ lv, level_of a = Some lv ∧ lv ∈ Part1.LEVELS
    ∧ Part1.LEVELS !! Z.to_nat (Part5.current_level_index (crypto_ui a))
      = Some lv.
Proof.
  intros (Hrange & Hidx & _).
  destruct (level_lookup _ Hrange) as (lv & Hlv & Hin).
  exists lv. split; [done|]. split; [done|]. by rewrite Hidx.
Qed.

Lemma app_inv_guess_letters a lv :
  app_inv a → level_of a = Some lv →
  dom (Part5.current_guess (crypto_ui a))
  ⊆ list_to_set (Part1.unique_letters lv).
Proof.
  intros (_ & _ & Hentries & _ & _ & Hdom & _) Hlv.
  destruct Hentries as [He|(lv' & Hlv' & He)]; rewrite He in Hdom.
  - intros x Hx. apply Hdom in Hx. rewrite list_to_set_nil in Hx.
    by apply (not_elem_of_empty (C:=gset ascii)) in Hx.
  - rewrite Hlv in Hlv'. by injection Hlv' as <-.
Qed.

(** "Verify Solution". *)
Lemma on_solve_clicked_inv now a :
  app_inv a →
  ∃ a' lv, _on_solve_clicked now a = Some a' ∧ app_inv a'
    ∧ level_of a = Some lv
    ∧ Part6.current_level (controller a') = Part6.current_level (controller a)
    ∧ Part6.highest_level_completed (controller a')
      = Part6.highest_level_completed (controller a)
    ∧ crypto_ui a' = crypto_ui a
    ∧ save_file a' = save_file a
    ∧ is_unlocked a'
      = fst (snd (Part3.validate_cryptarithmetic (solver a) (Part1.words lv)
                    (Part1.unique_letters lv)
                    (Part5.current_guess (crypto_ui a))))
    ∧ (is_unlocked a' = true →
       game a' = Part4.initialize_game (Part1.final_m lv) (Part1.final_c lv)
                   (Part1.final_k lv))
    ∧ (is_unlocked a' = false → game a' = game a).
Proof.
  intros Hinv. destruct (app_inv_level a Hinv) as (lv & Hlv & Hin & Hidx).
  pose proof Hinv as (Hrange & Hi & Hentries & Hdig & Hdist & Hdom & Hreach
                      & Hfile).
  unfold _on_solve_clicked. rewrite Hidx. cbn [mbind option_bind].
  destruct (Part3.validate_cryptarithmetic (solver a) (Part1.words lv)
              (Part1.unique_letters lv) (Part5.current_guess (crypto_ui a)))
    as [s [ok msg]] eqn:Hval.
  unfold _on_crypto_solution, set_solver.
  cbn [controller crypto_ui is_unlocked game solver save_file session_data].
  pose proof Hlv as Hlookup. unfold level_of in Hlookup.
  rewrite Hlookup. cbn [mbind option_bind].
  eexists _, lv. split; [reflexivity|].
  destruct ok; unfold unlock_challenge, lock_challenge, set_game,
    set_is_unlocked, set_controller, set_session_data;
    cbn [controller crypto_ui is_unlocked game solver save_file session_data
         Part6.current_level Part6.highest_level_completed fst snd].
  - split; [|rewrite Hval; by repeat split].
    unfold app_inv, level_of.
    cbn [controller crypto_ui is_unlocked game solver save_file session_data
         Part6.current_level Part6.highest_level_completed].
    repeat (split; [done|]). split; [|done].
    intros _. exists lv. split; [done|]. apply reachable_init.
  - split; [|rewrite Hval; by repeat split].
    unfold app_inv, level_of.
    cbn [controller crypto_ui is_unlocked game solver save_file session_data
         Part6.current_level Part6.highest_level_completed].
    repeat (split; [done|]). exact Hfile.
Qed.

Lemma show_hints_inv a :
  app_inv a →
  ∃ a' hints, _show_hints a = Some (a', hints) ∧ app_inv a'
    ∧ controller a' = controller a ∧ is_unlocked a' = is_unlocked a
    ∧ game a' = game a ∧ crypto_ui a' = crypto_ui a
    ∧ save_file a' = save_file a.
Proof.
  intros Hinv. destruct (app_inv_level a Hinv) as (lv & Hlv & Hin & Hidx).
  destruct (levels_puzzle_spec lv Hin) as ((Hlen & _) & _).
  unfold _show_hints. rewrite Hidx. cbn [mbind option_bind].
  unfold get_puzzle_hints.
  destruct (Part1.words lv) as [|w1 [|w2 [|w3 [|? ?]]]] eqn:Hw; try done.
  destruct (get_hints_looking_good
              (set_puzzle (solver a) [w1; w2; w3] (Part1.unique_letters lv))
              w1 w2 w3 (Part1.unique_letters lv)
              (Part5.current_guess (crypto_ui a)) eq_refl)
    as (hints & -> & _).
  cbn [mbind option_bind]. eexists _, _. split; [done|].
  split; [|by repeat split]. exact Hinv.
Qed.

(** Every event is handled, and the invariant stays. *)
Lemma handle_inv a ev :
  app_inv a → ∃ a', handle a ev = Some a' ∧ app_inv a'.
Proof.
  intros Hinv. destruct ev as [letter content|now| |cid| | |now];
    cbn [handle].
  - case_bool_decide as Hin; [|by exists a].
    eexists. split; [done|].
    destruct Hinv as (Hrange & Hidx & Hentries & Hdig & Hdist & Hdom & Hreach
                      & Hfile).
    destruct (on_input_change_cases letter content (crypto_ui a))
      as (E1 & E2 & _).
    destruct (on_input_change_keeps letter content (crypto_ui a)
                Hdig Hdist Hdom Hin) as (G1 & G2 & G3).
    unfold app_inv, level_of, set_crypto_ui.
    cbn [controller crypto_ui is_unlocked game solver save_file session_data].
    cbn zeta in *. rewrite E1, E2. rewrite E2 in G3.
    do 6 (split; [done|]). split; [exact Hreach|exact Hfile].
  - destruct (on_solve_clicked_inv now a Hinv) as (a' & lv & E & Hinv' & _).
    by exists a'.
  - destruct (show_hints_inv a Hinv) as (a' & hints & E & Hinv' & _).
    rewrite E. by exists a'.
  - destruct (on_character_click_inv cid a Hinv) as (a' & E & Hinv' & _).
    by exists a'.
  - destruct (travel_boat_inv a Hinv) as (a' & E & Hinv' & _). by exists a'.
  - eexists. split; [done|]. by apply restart_river_challenge_inv.
  - eexists. split; [done|]. unfold _check_game_status.
    cbn [Part4.get_game_status Part4.status_is_game_over Part4.status_is_won].
    destruct (is_game_over (state (game a))); [|done].
    destruct (is_won (state (game a)));
      [by apply on_river_complete_inv|by apply restart_river_challenge_inv].
Qed.

Lemma run_inv a events :
  app_inv a → ∃ a', run a events = Some a' ∧ app_inv a'.
Proof.
  revert a. induction events as [|ev rest IH]; intros a Hinv; [by exists a|].
  cbn [run]. destruct (handle_inv a ev Hinv) as (a1 & -> & Hinv1).
  cbn [mbind option_bind]. by apply IH.
Qed.

(** The application starts in a state that meets the invariant, or not
    at all. *)
Lemma init_inv now file a : init now file = Some a → app_inv a.
Proof.
  unfold init. destruct (Part2.load_progress file) as [e|v] eqn:Hload;
    [discriminate|].
  destruct (as_int v) as [loaded|] eqn:Hv; [|discriminate].
  cbn [mbind option_bind]. intros [= <-].
  assert (Hcap : (loaded ≤ Part1.get_max_level_index)%Z).
  { rewrite max_level_index.
    destruct file as [| | |data];
      try discriminate; try (injection Hload as <-; injection Hv as <-; lia).
    unfold Part2.load_progress, Part2.json_load in Hload.
    destruct (Part2.readable data); [|discriminate].
    destruct data as [| | | | |d]; try discriminate.
    destruct (default (Part2.JInt 0) (d !! "highest_level_completed"%string))
      as [|b|n| | |]; try discriminate.
    - rewrite max_level_index in Hload. injection Hload as <-.
      destruct b; cbn in Hv; injection Hv as <-; lia.
    - rewrite max_level_index in Hload. injection Hload as <-.
      injection Hv as <-. destruct (Z.ltb_spec 2 n); lia. }
  rewrite max_level_index in Hcap.
  assert (Hfile : ∃ v0, Part2.load_progress file = inr v0
            ∧ as_int v0 = Some (Z.min loaded Part1.get_max_level_index)).
  { exists v. split; [done|]. rewrite Hv, max_level_index. f_equal. lia. }
  unfold _load_level. rewrite level_count.
  replace (Z.min loaded (3 - 1)) with loaded by lia.
  destruct (Z.leb_spec 0 loaded) as [Hpos|Hneg]; cbn [andb negb].
  - destruct (Z.ltb_spec loaded 3); [|lia]. cbn [negb].
    destruct (load_level_fields loaded Part5.new_ui) as (lv & Hlv & Hl);
      [rewrite level_count; lia|].
    unfold lock_challenge, set_is_unlocked, set_crypto_ui, set_controller,
      Part6._load_level. rewrite level_count.
    destruct (Z.leb_spec 0 loaded); [|lia].
    destruct (Z.ltb_spec loaded 3); [|lia]. cbn [andb negb].
    cbn [controller crypto_ui is_unlocked game solver save_file session_data
         Part6.current_level Part6.highest_level_completed
         Part6.persistence_calls].
    rewrite Hl. unfold app_inv, level_of.
    cbn [controller crypto_ui is_unlocked game solver save_file session_data
         Part6.current_level Part6.highest_level_completed
         Part5.current_level_index Part5.current_guess Part5.guess_entries].
    rewrite level_count.
    destruct (empty_guess (Part1.unique_letters lv)) as (G1 & G2 & G3).
    split; [lia|]. split; [done|]. split; [right; by exists lv|].
    by repeat (split; [done|]).
  - unfold app_inv, level_of.
    cbn [controller crypto_ui is_unlocked game solver save_file session_data
         Part6.current_level Part6.highest_level_completed
         Part5.new_ui Part5.current_level_index Part5.current_guess
         Part5.guess_entries].
    rewrite level_count.
    destruct (empty_guess []) as (G1 & G2 & G3).
    split; [lia|]. split; [done|]. split; [by left|].
    by repeat (split; [done|]).
Qed.

End AppSteps.

(** X21. The entry fields never let two letters share a digit.  Whatever
    ASCII text is typed into the field of a letter, [on_input_change]
    leaves the other letters' digits as they are and either removes the
    letter from the guess or gives it a digit 0-9 that no other letter
    carries; so a guess of pairwise distinct digits 0-9 stays one. *)
Theorem input_keeps_guess_distinct (letter : ascii) (content : string)
    (ui : Part5.CryptoUI)
    (Hascii : ascii_text content = true)
    (Hdigits : digit_valued (Part5.current_guess ui))
    (Hdistinct : distinct_digits (Part5.current_guess ui)) :
  let ui' := Part5.on_input_change letter content ui in
  digit_valued (Part5.current_guess ui')
  ∧ distinct_digits (Part5.current_guess ui')
  ∧ (∀ l, l ≠ letter →
       Part5.current_guess ui' !! l = Part5.current_guess ui !! l)
  ∧ (Part5.current_guess ui' !! letter = None
     ∨ ∃ digit, Part5.current_guess ui' !! letter = Some digit
                ∧ (0 ≤ digit ≤ 9)%Z
                ∧ ∀ l, l ≠ letter → Part5.current_guess ui !! l ≠ Some digit)
  ∧ Part5.guess_entries ui' = Part5.guess_entries ui
  ∧ Part5.current_level_index ui' = Part5.current_level_index ui.
Proof.
  cbn zeta.
  destruct (on_input_change_cases letter content ui)
    as (E1 & E2 & [Hg|(d & Hd & Hfree & Hg)]); rewrite Hg.
  - destruct (delete_keeps_guess letter (Part5.current_guess ui)
                (elements (dom (Part5.current_guess ui))) Hdigits Hdistinct)
      as (G1 & G2 & _).
    { intros x Hx. apply elem_of_list_to_set. by apply elem_of_elements. }
    split; [done|]. split; [done|].
    split; [intros l Hl; by rewrite lookup_delete_ne|].
    split; [left; by rewrite lookup_delete_eq|done].
  - destruct (insert_keeps_guess letter d (Part5.current_guess ui)
                (letter :: elements (dom (Part5.current_guess ui)))
                Hdigits Hdistinct) as (G1 & G2 & _); try done.
    { intros x Hx. apply elem_of_list_to_set. right.
      by apply elem_of_elements. }
    { by left. }
    split; [done|]. split; [done|].
    split; [intros l Hl; by rewrite lookup_insert_ne|].
    split; [|done]. right. exists d. by rewrite lookup_insert_eq.
Qed.

Lemma input_keeps_guess_distinct_witness :
  let ui := Part5.mkCryptoUI 0 {[ "S"%char := 9%Z ]}
              ["S"; "E"; "N"; "D"; "M"; "O"; "R"; "Y"]%char in
  Part5.current_guess (Part5.on_input_change "E" "9" ui)
  = {[ "S"%char := 9%Z ]}
  ∧ Part5.current_guess (Part5.on_input_change "E" "95" ui)
    = {[ "S"%char := 9%Z; "E"%char := 5%Z ]}
  ∧ distinct_digits (Part5.current_guess (Part5.on_input_change "E" "95" ui)).
Proof.
  cbn zeta. split; [vm_compute; reflexivity|]. split; [vm_compute; reflexivity|].
  apply (input_keeps_guess_distinct "E" "95"
           (Part5.mkCryptoUI 0 {[ "S"%char := 9%Z ]}
              ["S"; "E"; "N"; "D"; "M"; "O"; "R"; "Y"]%char)).
  - reflexivity.
  - apply (bool_decide_unpack (map_Forall (λ _ d, (0 ≤ d ≤ 9)%Z) _)).
    vm_compute. reflexivity.
  - intros l1 l2 d H1 H2. cbn in H1, H2.
    apply lookup_singleton_Some in H1 as [<- _].
    by apply lookup_singleton_Some in H2 as [<- _].
Defined.

(** X22. The handlers never raise.  Once [__init__] has run, every
    sequence of events (typing ASCII text into the entry fields, "Verify
    Solution", "Get Hint", clicks on characters, the travel and restart
    buttons, the deferred status check) is handled without an exception
    from the level table, the validator, the hints, the river engine or
    the persistence module, and after each of them the controller is at a
    level of the table, the puzzle panel shows that level, the guess holds
    pairwise distinct digits 0-9 for letters of the level only, an
    unlocked river game is one reached from the level's initial game, and
    the save file can be loaded and holds the highest completed level
    capped at the last index. *)
Theorem app_never_raises (now : string) (file : Part2.SaveFile)
    (events : list App.Event) (a0 : App.App)
    (Hascii : forallb ascii_event events = true)
    (Hinit : App.init now file = Some a0) :
  ∃ a, App.run a0 events = Some a ∧ app_inv a.
Proof. apply run_inv. by eapply init_inv. Qed.

Lemma app_never_raises_witness :
  ∃ a0 a,
    App.init "t0" Part2.Absent = Some a0
    ∧ App.run a0 [App.InputChange "S" "9"; App.SolveClicked "t1";
                  App.CharacterClick "M1"; App.TravelClicked;
                  App.StatusTimer "t2"; App.HintClicked] = Some a
    ∧ app_inv a.
Proof.
  eexists. 
  destruct (app_never_raises "t0" Part2.Absent
              [App.InputChange "S" "9"; App.SolveClicked "t1";
               App.CharacterClick "M1"; App.TravelClicked;
               App.StatusTimer "t2"; App.HintClicked] _ eq_refl eq_refl)
    as (a & Hrun & Hinv).
  by exists a.
Defined.

Section AppVerdicts.

Import App.

Lemma validator_verdict (s : Solver) words letters (g : Assignment) :
  fst (snd (validate_cryptarithmetic s words letters g)) = true
  ↔ snd (validate_cryptarithmetic s words letters g) = (true, SolutionCorrect).
Proof.
  split; [|by intros ->].
  unfold validate_cryptarithmetic, validate_input, set_puzzle.
  cbn [snd current_puzzle].
  destruct (check_all_assigned letters g); [done|].
  case_bool_decide; [done|].
  destruct (find_leading_zero words g); [done|].
  by destruct (_verify_mathematics words g) as [[|] ?].
Qed.

(** What "Verify Solution" does in a state that meets the invariant. *)
Lemma solve_clicked_unlocks now a :
  app_inv a →
  ∃ a' lv,
    handle a (SolveClicked now) = Some a'
    ∧ level_of a = Some lv
    ∧ app_inv a'
    ∧ (is_unlocked a' = true
       ↔ solution (Part1.words lv) (Part1.unique_letters lv)
           (Part5.current_guess (crypto_ui a)))
    ∧ (is_unlocked a' = true →
       game a' = initialize_game (Part1.final_m lv) (Part1.final_c lv)
                   (Part1.final_k lv))
    ∧ (is_unlocked a' = false → game a' = game a)
    ∧ Part6.current_level (controller a') = Part6.current_level (controller a)
    ∧ Part6.highest_level_completed (controller a')
      = Part6.highest_level_completed (controller a)
    ∧ crypto_ui a' = crypto_ui a.
Proof.
  intros Hinv.
  destruct (on_solve_clicked_inv now a Hinv)
    as (a' & lv & E & Hinv' & Hlv & Ecur & Ehigh & Eui & _ & Eun & Hg1 & Hg2).
  exists a', lv. split; [done|]. split; [done|]. split; [done|].
  split; [|by repeat split].
  destruct (app_inv_level a Hinv) as (lv' & Hlv' & Hin & _).
  rewrite Hlv in Hlv'. injection Hlv' as <-.
  destruct (levels_puzzle_spec lv Hin) as (Hspec & _).
  pose proof Hinv as (_ & _ & _ & Hdig & _).
  rewrite Eun, validator_verdict, (accepted_iff_solution _ _ _ _ Hspec Hdig).
  split; [by intros [? _]|]. intros Hsol. split; [done|].
  by apply levels_fit.
Qed.

End AppVerdicts.

(** X23. "Verify Solution" unlocks the river exactly for a solution.  In
    every state of the application, the click is handled without an
    exception; the river challenge is unlocked afterwards exactly when the
    digits in the entry fields are a solution of the level's puzzle
    (exactly the level's letters, pairwise distinct digits, no leading
    zero, the sum holds in base 10), and then the river game is the
    initial game of the level's missionaries, cannibals and capacity;
    otherwise the challenge is locked and the river game untouched. *)
Theorem verify_unlocks_iff_solution (now : string) (a : App.App)
    (Hinv : app_inv a) :
  ∃ a' lv,
    App.handle a (App.SolveClicked now) = Some a'
    ∧ level_of a = Some lv
    ∧ (App.is_unlocked a' = true
       ↔ solution (Part1.words lv) (Part1.unique_letters lv)
           (Part5.current_guess (App.crypto_ui a)))
    ∧ (App.is_unlocked a' = true →
       App.game a' = initialize_game (Part1.final_m lv) (Part1.final_c lv)
                       (Part1.final_k lv))
    ∧ (App.is_unlocked a' = false → App.game a' = App.game a).
Proof.
  destruct (solve_clicked_unlocks now a Hinv)
    as (a' & lv & E & Hlv & _ & Hiff & Hg1 & Hg2 & _).
  by exists a', lv.
Qed.

Lemma verify_unlocks_iff_solution_witness :
  ∃ a0 a a' lv,
    App.init "t0" Part2.Absent = Some a0
    ∧ App.run a0 [App.InputChange "S" "9"; App.InputChange "E" "5";
                  App.InputChange "N" "6"; App.InputChange "D" "7";
                  App.InputChange "M" "1"; App.InputChange "O" "0";
                  App.InputChange "R" "8"; App.InputChange "Y" "2"] = Some a
    ∧ App.handle a (App.SolveClicked "t1") = Some a'
    ∧ level_of a = Some lv
    ∧ (App.is_unlocked a' = true
       ↔ solution (Part1.words lv) (Part1.unique_letters lv)
           (Part5.current_guess (App.crypto_ui a)))
    ∧ App.is_unlocked a' = true.
Proof.
  eexists.
  destruct (run_inv _
              [App.InputChange "S" "9"; App.InputChange "E" "5";
               App.InputChange "N" "6"; App.InputChange "D" "7";
               App.InputChange "M" "1"; App.InputChange "O" "0";
               App.InputChange "R" "8"; App.InputChange "Y" "2"]
              (init_inv "t0" Part2.Absent _ eq_refl))
    as (a & Hrun & Hinv).
  destruct (verify_unlocks_iff_solution "t1" a Hinv)
    as (a' & lv & E & Hlv & Hiff & _).
  exists a, a', lv. split; [reflexivity|]. split; [exact Hrun|].
  split; [exact E|]. split; [exact Hlv|]. split; [exact Hiff|].
  vm_compute in Hrun. injection Hrun as <-.
  vm_compute in E. by injection E as <-.
Defined.

Section AppLevels.

Import App.

Implicit Types (a : App) (ev : Event).

(** What an event can do to the lock, the river game and the level. *)
Lemma handle_effects a ev a' :
  app_inv a → handle a ev = Some a' →
  (is_unlocked a = false → is_unlocked a' = true ∨ game a' ≠ game a →
     ∃ now, ev = SolveClicked now ∧ is_unlocked a' = true)
  ∧ (Part6.current_level (controller a') ≠ Part6.current_level (controller a)
     ∨ Part6.highest_level_completed (controller a')
       ≠ Part6.highest_level_completed (controller a) →
     ∃ now, ev = StatusTimer now
       ∧ is_game_over (state (game a)) = true
       ∧ is_won (state (game a)) = true
       ∧ a' = _on_river_complete now a)
  ∧ (Part6.highest_level_completed (controller a)
     ≤ Part6.highest_level_completed (controller a'))%Z.
Proof.
  intros Hinv Hev. destruct ev as [letter content|now| |cid| | |now];
    cbn [handle] in Hev.
  - assert (controller a' = controller a ∧ is_unlocked a' = is_unlocked a
            ∧ game a' = game a) as (Ec & Eu & Eg)
      by (case_bool_decide; by injection Hev as <-).
    rewrite Ec, Eu, Eg. split; [|split; [|lia]].
    + intros Hun [?|?]; congruence.
    + intros [?|?]; done.
  - destruct (solve_clicked_unlocks now a Hinv)
      as (a1 & lv & E & _ & _ & _ & _ & Hg & Ecur & Ehigh & _).
    cbn [handle] in E. rewrite E in Hev. injection Hev as <-.
    rewrite Ecur, Ehigh. split; [|split; [|lia]].
    + intros Hun [?|Hne]; [by exists now|]. exists now. split; [done|].
      destruct (is_unlocked a1); [done|]. by destruct Hne, Hg.
    + intros [?|?]; done.
  - destruct (show_hints_inv a Hinv)
      as (a1 & hints & E & _ & Ec & Eu & Eg & _).
    rewrite E in Hev. injection Hev as <-. rewrite Ec, Eu, Eg.
    split; [|split; [|lia]].
    + intros Hun [?|?]; congruence.
    + intros [?|?]; done.
  - destruct (on_character_click_inv cid a Hinv)
      as (a1 & E & _ & Ec & Eu & Hsame).
    rewrite E in Hev. injection Hev as <-. rewrite Ec, Eu.
    split; [|split; [|lia]].
    + intros Hun. rewrite (Hsame Hun). intros [?|?]; congruence.
    + intros [?|?]; done.
  - destruct (travel_boat_inv a Hinv) as (a1 & E & _ & Ec & Eu & Hsame).
    rewrite E in Hev. injection Hev as <-. rewrite Ec, Eu.
    split; [|split; [|lia]].
    + intros Hun. rewrite (Hsame Hun). intros [?|?]; congruence.
    + intros [?|?]; done.
  - injection Hev as <-.
    destruct (restart_river_challenge_inv a Hinv) as (_ & Ec & Eu & Hsame).
    rewrite Ec, Eu. split; [|split; [|lia]].
    + intros Hun. rewrite (Hsame Hun). intros [?|?]; congruence.
    + intros [?|?]; done.
  - injection Hev as <-. unfold _check_game_status.
    cbn [Part4.get_game_status Part4.status_is_game_over Part4.status_is_won].
    destruct (is_game_over (state (game a))) eqn:Hover.
    2: { split; [|split; [|lia]].
         - intros Hun [?|?]; congruence.
         - intros [?|?]; done. }
    destruct (is_won (state (game a))) eqn:Hwon.
    + destruct (on_river_complete_inv now a Hinv)
        as (_ & Ecur & Ehigh & Eu & Eg & _).
      cbn zeta in *. rewrite Ehigh, Eu, Eg. split; [|split].
      * intros Hun [?|?]; congruence.
      * intros _. by exists now.
      * destruct (Z.leb_spec (Part6.highest_level_completed (controller a))
                    (Part6.current_level (controller a))); lia.
    + destruct (restart_river_challenge_inv a Hinv) as (_ & Ec & Eu & Hsame).
      rewrite Ec, Eu. split; [|split; [|lia]].
      * intros Hun. rewrite (Hsame Hun). intros [?|?]; congruence.
      * intros [?|?]; done.
Qed.

End AppLevels.

(** X24. The river stays locked until the puzzle is solved.  While the
    challenge is locked, the only event that unlocks it or changes the
    river game is a "Verify Solution" whose guess is a solution of the
    level's puzzle: clicks on characters, the travel and restart buttons,
    typing (of ASCII text), hints and the status check all leave the lock
    and the river game as they are. *)
Theorem river_locked_until_solved (a a' : App.App) (ev : App.Event)
    (Hinv : app_inv a) (Hascii : ascii_event ev = true) (Hev : App.handle a ev = Some a')
    (Hlocked : App.is_unlocked a = false)
    (Hchange : App.is_unlocked a' = true ∨ App.game a' ≠ App.game a) :
  ∃ now lv,
    ev = App.SolveClicked now
    ∧ level_of a = Some lv
    ∧ solution (Part1.words lv) (Part1.unique_letters lv)
        (Part5.current_guess (App.crypto_ui a))
    ∧ App.is_unlocked a' = true
    ∧ App.game a' = initialize_game (Part1.final_m lv) (Part1.final_c lv)
                      (Part1.final_k lv).
Proof.
  destruct (handle_effects a ev a' Hinv Hev) as (Hlock & _).
  destruct (Hlock Hlocked Hchange) as (now & -> & Hun).
  destruct (solve_clicked_unlocks now a Hinv)
    as (a1 & lv & E & Hlv & _ & Hiff & Hg & _).
  rewrite E in Hev. injection Hev as ->.
  exists now, lv. split; [done|]. split; [done|].
  split; [by apply Hiff|]. split; [done|]. by apply Hg.
Qed.

Lemma river_locked_until_solved_witness :
  ∃ a0 a a' now lv,
    App.init "t0" Part2.Absent = Some a0
    ∧ App.run a0 [App.InputChange "S" "9"; App.InputChange "E" "5";
                  App.InputChange "N" "6"; App.InputChange "D" "7";
                  App.InputChange "M" "1"; App.InputChange "O" "0";
                  App.InputChange "R" "8"; App.InputChange "Y" "2"] = Some a
    ∧ App.handle a (App.SolveClicked "t1") = Some a'
    ∧ App.SolveClicked "t1" = App.SolveClicked now
    ∧ level_of a = Some lv
    ∧ solution (Part1.words lv) (Part1.unique_letters lv)
        (Part5.current_guess (App.crypto_ui a))
    ∧ App.is_unlocked a' = true.
Proof.
  eexists.
  destruct (run_inv _
              [App.InputChange "S" "9"; App.InputChange "E" "5";
               App.InputChange "N" "6"; App.InputChange "D" "7";
               App.InputChange "M" "1"; App.InputChange "O" "0";
               App.InputChange "R" "8"; App.InputChange "Y" "2"]
              (init_inv "t0" Part2.Absent _ eq_refl))
    as (a & Hrun & Hinv).
  destruct (handle_inv a (App.SolveClicked "t1") Hinv) as (a' & E & _).
  destruct (river_locked_until_solved a a' (App.SolveClicked "t1") Hinv
              eq_refl E)
    as (now & lv & Hev & Hlv & Hsol & Hun & _).
  - vm_compute in Hrun. by injection Hrun as <-.
  - left. vm_compute in Hrun. injection Hrun as <-.
    vm_compute in E. by injection E as <-.
  - exists a, a', now, lv. split; [reflexivity|]. split; [exact Hrun|].
    split; [exact E|]. split; [exact Hev|]. split; [exact Hlv|].
    split; [exact Hsol|exact Hun].
Defined.

(** X25. A level is completed only by a won river game.  An event (with
    ASCII text, if it is typing) changes the controller's level or its
    highest completed level only when it is the status check and the
    river game is over and won; the
    application then is what [_on_river_complete] makes of it: the level
    is the next one (the first after the last), the highest completed
    level is raised to the level just played plus one if it was not
    higher, the challenge is locked again and the guess is empty.  If the
    challenge was unlocked, every character of the level is on the right
    bank.  The highest completed level never goes down. *)
Theorem level_completed_only_by_win (a a' : App.App) (ev : App.Event)
    (Hinv : app_inv a) (Hascii : ascii_event ev = true) (Hev : App.handle a ev = Some a') :
  (Part6.highest_level_completed (App.controller a)
   ≤ Part6.highest_level_completed (App.controller a'))%Z
  ∧ (Part6.current_level (App.controller a')
     ≠ Part6.current_level (App.controller a)
     ∨ Part6.highest_level_completed (App.controller a')
       ≠ Part6.highest_level_completed (App.controller a) →
     (∃ now, ev = App.StatusTimer now)
     ∧ is_won (state (App.game a)) = true
     ∧ Part6.current_level (App.controller a')
       = next_level (Part6.current_level (App.controller a))
     ∧ Part6.highest_level_completed (App.controller a')
       = Z.max (Part6.highest_level_completed (App.controller a))
               (Part6.current_level (App.controller a) + 1)
     ∧ App.is_unlocked a' = false
     ∧ Part5.current_guess (App.crypto_ui a') = ∅
     ∧ (App.is_unlocked a = true →
        ∃ lv, level_of a = Some lv
          ∧ Z.of_nat (length (characters (App.game a)))
            = (Part1.final_m lv + Part1.final_c lv)%Z
          ∧ ∀ ch, ch ∈ characters (App.game a) → location ch = RIGHT)).
Proof.
  destruct (handle_effects a ev a' Hinv Hev) as (_ & Hlevel & Hmono).
  split; [done|]. intros Hchange.
  destruct (Hlevel Hchange) as (now & -> & Hover & Hwon & ->).
  destruct (on_river_complete_inv now a Hinv)
    as (_ & Ecur & Ehigh & Eu & Eg & Eguess).
  cbn zeta in *. split; [by exists now|]. split; [done|]. split; [done|].
  split.
  { rewrite Ehigh.
    destruct (Z.leb_spec (Part6.highest_level_completed (App.controller a))
                (Part6.current_level (App.controller a))); lia. }
  split; [done|]. split; [done|].
  intros Hun. pose proof Hinv as (_ & _ & _ & _ & _ & _ & Hreach & _).
  destruct (Hreach Hun) as (lv & Hlv & Hr). exists lv. split; [done|].
  destruct (app_inv_level a Hinv) as (lv' & Hlv' & Hin & _).
  rewrite Hlv in Hlv'. injection Hlv' as <-.
  destruct (levels_puzzle_spec lv Hin) as (_ & _ & Hm & Hc).
  split.
  - rewrite <- (length_fmap (relocate LEFT)),
      (reachable_roster _ _ _ _ Hr), initial_characters_length. lia.
  - by apply (reachable_won _ _ _ _ Hm Hc Hr).
Qed.

Section AppTimers.

Import App.

Lemma on_river_complete_session now a :
  session_data (_on_river_complete now a)
  = Part2.record_level_attempt now (Part6.current_level (controller a))
      "river_crossing" true (session_data a)
  ∧ solver (_on_river_complete now a) = solver a.
Proof.
  unfold _on_river_complete, lock_challenge, set_is_unlocked, set_crypto_ui,
    set_controller, set_save_file, set_session_data.
  by repeat (match goal with |- context [if ?b then _ else _] =>
               destruct b end;
             cbn [controller crypto_ui is_unlocked game solver save_file
                  session_data]).
Qed.

(** Status checks on a won game, one after the other. *)
Lemma status_timers_complete now (k : nat) a :
  app_inv a →
  is_game_over (state (game a)) = true → is_won (state (game a)) = true →
  ∃ ak, run a (replicate k (StatusTimer now)) = Some ak
    ∧ app_inv ak
    ∧ Part6.current_level (controller ak)
      = Nat.iter k next_level (Part6.current_level (controller a))
    ∧ game ak = game a
    ∧ (0 < k → is_unlocked ak = false)
    ∧ (Part6.highest_level_completed (controller a)
       ≤ Part6.highest_level_completed (controller ak))%Z
    ∧ (0 < k →
       (Part6.current_level (controller a) + 1
        ≤ Part6.highest_level_completed (controller ak))%Z)
    ∧ Part2.river_crossing_attempts (session_data ak)
      = (Part2.river_crossing_attempts (session_data a) + Z.of_nat k)%Z.
Proof.
  revert a. induction k as [|k IH]; intros a Hinv Hover Hwon.
  - exists a. split; [done|]. split; [done|]. split; [done|].
    split; [done|]. split; [intros ?; lia|]. split; [lia|].
    split; [intros ?; lia|]. cbn. lia.
  - cbn [replicate run handle]. unfold _check_game_status.
    cbn [Part4.get_game_status Part4.status_is_game_over Part4.status_is_won].
    rewrite Hover, Hwon. cbn [mbind option_bind].
    destruct (on_river_complete_inv now a Hinv)
      as (Hinv1 & Ecur & Ehigh & Eu & Eg & _).
    destruct (on_river_complete_session now a) as [Es _].
    cbn zeta in *.
    destruct (IH (_on_river_complete now a) Hinv1)
      as (ak & Hrun & Hinvk & Ek & Egk & Euk & Ehk & _ & Esk);
      [by rewrite Eg|by rewrite Eg|].
    exists ak. split; [done|]. split; [done|].
    split; [by rewrite Ek, Ecur, Nat.iter_succ_r|].
    split; [by rewrite Egk|].
    split.
    { intros _. destruct k as [|k']; [|apply Euk; lia].
      cbn in Hrun. by injection Hrun as <-. }
    assert (Hstep : (Part6.highest_level_completed (controller a)
                     ≤ Part6.highest_level_completed
                         (controller (_on_river_complete now a))
                     ∧ Part6.current_level (controller a) + 1
                       ≤ Part6.highest_level_completed
                           (controller (_on_river_complete now a)))%Z).
    { rewrite Ehigh.
      destruct (Z.leb_spec (Part6.highest_level_completed (controller a))
                  (Part6.current_level (controller a))); lia. }
    split; [lia|]. split; [lia|].
    rewrite Esk, Es.
    destruct (record_level_attempt_counts now (session_data a)
                (Part6.current_level (controller a)) "river_crossing" true)
      as (_ & _ & _ & ->).
    rewrite bool_decide_eq_true_2 by done. lia.
Qed.

(** Starting the application again on the file a session has left. *)
Lemma init_after_session now a :
  app_inv a →
  ∃ a', init now (save_file a) = Some a'
    ∧ Part6.highest_level_completed (controller a')
      = Z.min (Part6.highest_level_completed (controller a))
              Part1.get_max_level_index
    ∧ Part6.current_level (controller a')
      = Z.max 0 (Z.min (Part6.highest_level_completed (controller a))
                       Part1.get_max_level_index)
    ∧ is_unlocked a' = false
    ∧ Part5.current_guess (crypto_ui a') = ∅.
Proof.
  intros (_ & _ & _ & _ & _ & _ & _ & v & Hload & Hv).
  unfold init. rewrite Hload, Hv. cbn [mbind option_bind].
  eexists. split; [reflexivity|].
  rewrite max_level_index, level_count.
  set (loaded := Z.min (Part6.highest_level_completed (controller a)) 2).
  replace (Z.min loaded (3 - 1)) with loaded by lia.
  unfold _load_level, Part6._load_level, lock_challenge, set_is_unlocked,
    set_crypto_ui, set_controller, Part5.load_level.
  rewrite level_count. change (Z.of_nat (length Part1.LEVELS)) with 3%Z.
  destruct (Z.leb_spec 0 loaded); destruct (Z.ltb_spec loaded 3);
    cbn [andb negb controller crypto_ui is_unlocked game solver save_file
         session_data Part6.current_level Part6.highest_level_completed
         Part5.current_guess Part5.new_ui];
    repeat split; lia.
Qed.

End AppTimers.

Lemma level_completed_only_by_win_witness :
  ∃ a0 a a',
    App.init "t0" Part2.Absent = Some a0
    ∧ App.run a0 first_level_play = Some a
    ∧ App.handle a (App.StatusTimer "t2") = Some a'
    ∧ Part6.current_level (App.controller a) = 0%Z
    ∧ Part6.current_level (App.controller a') = 1%Z
    ∧ Part6.highest_level_completed (App.controller a') = 1%Z
    ∧ ∀ ch, ch ∈ characters (App.game a) → location ch = RIGHT.
Proof.
  eexists.
  destruct (run_inv _ first_level_play
              (init_inv "t0" Part2.Absent _ eq_refl)) as (a & Hrun & Hinv).
  destruct (handle_inv a (App.StatusTimer "t2") Hinv) as (a' & E & _).
  assert (Hfacts : Part6.current_level (App.controller a) = 0%Z
                   ∧ Part6.highest_level_completed (App.controller a) = 0%Z
                   ∧ App.is_unlocked a = true).
  { vm_compute in Hrun. by injection Hrun as <-. }
  destruct Hfacts as (Hcur & Hhigh & Hun).
  assert (Hcur' : Part6.current_level (App.controller a') = 1%Z).
  { vm_compute in Hrun. injection Hrun as <-.
    vm_compute in E. by injection E as <-. }
  destruct (level_completed_only_by_win a a' (App.StatusTimer "t2") Hinv
              eq_refl E)
    as (_ & Hchange).
  destruct Hchange as (_ & _ & _ & Ehigh & _ & _ & Hacross);
    [left; rewrite Hcur, Hcur'; lia|].
  destruct (Hacross Hun) as (lv & _ & _ & Hright).
  exists a, a'. split; [reflexivity|]. split; [exact Hrun|].
  split; [exact E|]. split; [exact Hcur|]. split; [exact Hcur'|].
  split; [rewrite Ehigh, Hcur, Hhigh; reflexivity|exact Hright].
Defined.

(** X26. A status check completes a level that was never played.  The
    deferred status check does not look at the lock, and completing a
    level leaves the river game as it is, won: so in a state whose river
    game is over and won, [k] status checks in a row are handled without
    an exception and complete [k] levels, the current one and the [k - 1]
    that follow it, each recorded as a successful river attempt, with the
    highest completed level raised accordingly, although the river game
    is never touched and the challenge is locked from the first check
    on. *)
Theorem status_check_completes_unplayed (now : string) (k : nat)
    (a : App.App) (Hinv : app_inv a)
    (Hover : is_game_over (state (App.game a)) = true)
    (Hwon : is_won (state (App.game a)) = true) :
  ∃ ak, App.run a (replicate k (App.StatusTimer now)) = Some ak
    ∧ Part6.current_level (App.controller ak)
      = Nat.iter k next_level (Part6.current_level (App.controller a))
    ∧ App.game ak = App.game a
    ∧ (0 < k → App.is_unlocked ak = false)
    ∧ (0 < k →
       (Part6.current_level (App.controller a) + 1
        ≤ Part6.highest_level_completed (App.controller ak))%Z)
    ∧ Part2.river_crossing_attempts (App.session_data ak)
      = (Part2.river_crossing_attempts (App.session_data a) + Z.of_nat k)%Z.
Proof.
  destruct (status_timers_complete now k a Hinv Hover Hwon)
    as (ak & Hrun & _ & Ek & Eg & Eu & _ & Eh & Es).
  by exists ak.
Qed.

Lemma status_check_completes_unplayed_witness :
  ∃ a0 a a2,
    App.init "t0" Part2.Absent = Some a0
    ∧ App.run a0 first_level_play = Some a
    ∧ Part6.current_level (App.controller a) = 0%Z
    ∧ App.run a (replicate 2 (App.StatusTimer "t2")) = Some a2
    ∧ Part6.current_level (App.controller a2) = 2%Z
    ∧ Part6.highest_level_completed (App.controller a2) = 2%Z
    ∧ App.game a2 = App.game a.
Proof.
  eexists.
  destruct (run_inv _ first_level_play
        (init_inv "t0" Part2.Absent _ eq_refl))
    as (a & Hrun & Hinv).
  assert (Hfacts : is_game_over (state (App.game a)) = true
                   ∧ is_won (state (App.game a)) = true
                   ∧ Part6.current_level (App.controller a) = 0%Z).
  { vm_compute in Hrun. by injection Hrun as <-. }
  destruct Hfacts as (Hover & Hwon & Hcur).
  destruct (status_check_completes_unplayed "t2" 2 a Hinv Hover Hwon)
    as (a2 & Hrun2 & Ek & Eg & _).
  exists a, a2. split; [reflexivity|]. split; [exact Hrun|].
  split; [exact Hcur|]. split; [exact Hrun2|].
  split; [by rewrite Ek, Hcur|]. split; [|exact Eg].
  vm_compute in Hrun. injection Hrun as <-.
  vm_compute in Hrun2. by injection Hrun2 as <-.
Defined.

(** X27. Progress survives a restart.  In every state of the application
    the save file can be loaded, and an application started on it resumes
    with the highest completed level of the running one, capped at the
    last level index, at that level (at the first one if the number is
    negative), locked and with an empty guess. *)
Theorem progress_survives_restart (now : string) (a : App.App)
    (Hinv : app_inv a) :
  ∃ a', App.init now (App.save_file a) = Some a'
    ∧ Part6.highest_level_completed (App.controller a')
      = Z.min (Part6.highest_level_completed (App.controller a))
              Part1.get_max_level_index
    ∧ Part6.current_level (App.controller a')
      = Z.max 0 (Z.min (Part6.highest_level_completed (App.controller a))
                       Part1.get_max_level_index)
    ∧ App.is_unlocked a' = false
    ∧ Part5.current_guess (App.crypto_ui a') = ∅.
Proof. by apply init_after_session. Qed.

Lemma progress_survives_restart_witness :
  ∃ a0 a a',
    App.init "t0" (Part2.Stored (Part2.JDict
                     {[ "highest_level_completed"%string := Part2.JInt 1 ]}))
    = Some a0
    ∧ App.run a0 [App.InputChange "T" "7"; App.HintClicked] = Some a
    ∧ App.init "t1" (App.save_file a) = Some a'
    ∧ Part6.current_level (App.controller a') = 1%Z.
Proof.
  destruct (App.init "t0" (Part2.Stored (Part2.JDict
              {[ "highest_level_completed"%string := Part2.JInt 1 ]})))
    as [a0|] eqn:Hinit; [|vm_compute in Hinit; discriminate].
  destruct (run_inv a0 [App.InputChange "T" "7"; App.HintClicked]
              (init_inv _ _ _ Hinit)) as (a & Hrun & Hinv).
  destruct (progress_survives_restart "t1" a Hinv)
    as (a' & Hinit' & Hhigh & Hcur & _).
  exists a0, a, a'. split; [reflexivity|]. split; [exact Hrun|].
  split; [exact Hinit'|]. rewrite Hcur.
  vm_compute in Hinit. injection Hinit as <-.
  vm_compute in Hrun. by injection Hrun as <-.
Defined.

(** C9.  One win of the river engine completes two levels.  The player
    solves the first puzzle and takes everybody across, the last two
    crossings less than a second apart, so that the status checks that
    crossings ten and eleven schedule both run after the eleventh.  Before
    that crossing the game is not won; the crossing wins it, once.  The
    first status check completes level 0 and saves 1; the second finds
    the same won game ([_check_game_status] does not look at
    [is_unlocked], and nothing resets the game) and completes level 1,
    which was never played, saving 2: the controller is at level 2 after
    one win, with two calls of [save_progress], and the river game is
    still the one of level 0. *)
Theorem one_win_two_levels :
  ∃ a0 a10 a11 a,
    App.init "t0" Part2.Absent = Some a0
    ∧ App.run a0 before_last_crossing = Some a10
    ∧ is_won (state (App.game a10)) = false
    ∧ App.handle a10 App.TravelClicked = Some a11
    ∧ is_won (state (App.game a11)) = true
    ∧ Part6.current_level (App.controller a11) = 0%Z
    ∧ saves (Part6.persistence_calls (App.controller a11)) = []
    ∧ App.run a11 [App.StatusTimer "s10"; App.StatusTimer "s11"] = Some a
    ∧ Part6.current_level (App.controller a) = 2%Z
    ∧ Part6.highest_level_completed (App.controller a) = 2%Z
    ∧ saves (Part6.persistence_calls (App.controller a)) = [1%Z; 2%Z]
    ∧ loads (Part6.persistence_calls (App.controller a)) = 1
    ∧ App.is_unlocked a = false
    ∧ App.game a = App.game a11
    ∧ move_count (state (App.game a)) = 11%Z.
Proof.
  eexists _, _, _, _.
  do 14 (split; [vm_compute; reflexivity|]). vm_compute. reflexivity.
Qed.
